(** * swarm-tools: the event-sourced coordination kernel

    A shallow embedding of the storage adapter, the event store, the durable
    stream adapter, the memory store search, the cell adapter and the
    projection replay of swarm-mail, with the properties of the
    specification stated over them.

    Layout: Part I holds the definitions, module by module; Part II holds
    the lemmas and theorems. *)

From Stdlib Require Import ZArith List String Bool Lia Permutation Sorted.
From Stdlib Require Import QArith Qabs.
From Stdlib Require OrderedTypeEx.
Import ListNotations.

Local Open Scope Z_scope.
Local Open Scope list_scope.

(* ===================================================================== *)
(** * Part I: definitions                                                 *)
(* ===================================================================== *)

(** ** Events (tagged union on [type]) *)

Module Events.

(** Payload of an event.  The projections only look at the agent, message
    and reservation variants; every other member of the closed set of
    event types is kept under its type tag and the name of the agent it
    bears, when it bears one. *)
Inductive EventData : Type :=
| agent_registered (agent_name program model task_description : string)
| agent_active (agent_name : string)
| message_sent (from_agent : string) (to_agents : list string)
               (subject body : string) (thread_id : option string)
               (importance : string)
| message_read (message_id : Z) (agent_name : string)
| message_acked (message_id : Z) (agent_name : string)
| file_reserved (agent_name : string) (paths : list string)
                (reason : option string) (exclusive : bool)
                (expires_at : option Z)
| file_released (agent_name : string) (paths : option (list string))
| other_event (type_tag : string) (agent_name : option string).

Definition event_type (d : EventData) : string :=
  match d with
  | agent_registered _ _ _ _ => "agent_registered"
  | agent_active _ => "agent_active"
  | message_sent _ _ _ _ _ _ => "message_sent"
  | message_read _ _ => "message_read"
  | message_acked _ _ => "message_acked"
  | file_reserved _ _ _ _ _ => "file_reserved"
  | file_released _ _ => "file_released"
  | other_event tag _ => tag
  end.

(** An event as the caller builds it ([createEvent]): no identifiers yet. *)
Record NewEvent : Type := mkNewEvent {
  ne_project_key : string;
  ne_timestamp : Z;
  ne_data : EventData
}.

(** A stored event: the row of the [events] table. *)
Record Event : Type := mkEvent {
  id : Z;
  sequence : Z;
  project_key : string;
  timestamp : Z;
  data : EventData
}.

Definition type (e : Event) : string := event_type (data e).

End Events.

Export Events.

(** ** Event store *)

Module EventStore.

(** The [events] table, rows in insert order. *)
Definition EventsTable := list Event.

Record ReadEventsOptions : Type := mkReadEventsOptions {
  projectKey : option string;
  types : option (list string);
  afterSequence : option Z;
  fromTimestamp : option Z;
  toTimestamp : option Z;
  limit : option nat;
  offset : option nat
}.

Definition noOptions : ReadEventsOptions :=
  mkReadEventsOptions None None None None None None None.

Definition project_matches (pk : option string) (e : Event) : bool :=
  match pk with
  | None => true
  | Some p => String.eqb (project_key e) p
  end.

Definition type_matches (ts : option (list string)) (e : Event) : bool :=
  match ts with
  | None => true
  | Some l => existsb (String.eqb (type e)) l
  end.

Definition after_matches (a : option Z) (e : Event) : bool :=
  match a with
  | None => true
  | Some s => s <? sequence e
  end.

Definition from_matches (t : option Z) (e : Event) : bool :=
  match t with
  | None => true
  | Some t0 => t0 <=? timestamp e
  end.

Definition to_matches (t : option Z) (e : Event) : bool :=
  match t with
  | None => true
  | Some t0 => timestamp e <=? t0
  end.

Definition event_matches (o : ReadEventsOptions) (e : Event) : bool :=
  project_matches (projectKey o) e
  && type_matches (types o) e
  && after_matches (afterSequence o) e
  && from_matches (fromTimestamp o) e
  && to_matches (toTimestamp o) e.

(** [ORDER BY sequence ASC]: a stable insertion sort on [sequence] (rows
    of equal sequence keep their table order). *)
Fixpoint insert_by_sequence (e : Event) (l : list Event) : list Event :=
  match l with
  | [] => [e]
  | x :: r =>
      if sequence e <=? sequence x then e :: x :: r
      else x :: insert_by_sequence e r
  end.

Fixpoint order_by_sequence (l : list Event) : list Event :=
  match l with
  | [] => []
  | x :: r => insert_by_sequence x (order_by_sequence r)
  end.

Definition ascending (l : list Event) : Prop :=
  StronglySorted (fun a b => sequence a <= sequence b) l.

Definition strictly_ascending (l : list Event) : Prop :=
  StronglySorted (fun a b => sequence a < sequence b) l.

Definition apply_offset (o : option nat) (l : list Event) : list Event :=
  match o with
  | None => l
  | Some n => skipn n l
  end.

Definition apply_limit (o : option nat) (l : list Event) : list Event :=
  match o with
  | None => l
  | Some n => firstn n l
  end.

(** Modelled from the spec: [readEvents] of the event store (store.ts and
    store-drizzle.ts are not among the sources).  Section 4.3: returns
    the events that pass every given filter, in ascending [sequence]
    order; [afterSequence] is strict; [offset] and [limit] page the
    ordered answer. *)
Definition readEvents (o : ReadEventsOptions) (t : EventsTable) : list Event :=
  apply_limit (limit o)
    (apply_offset (offset o)
       (order_by_sequence (filter (event_matches o) t))).

(** [MAX(sequence)] over a list of rows; [None] is SQL's NULL. *)
Definition max_sequence (l : list Event) : option Z :=
  match l with
  | [] => None
  | x :: r => Some (fold_left Z.max (map sequence r) (sequence x))
  end.

(** Modelled from the spec: [getLatestSequence(projectKey?)] of the event
    store.  Section 4.3: the latest sequence, 0 when there is no event;
    the optional project key restricts the events looked at. *)
Definition getLatestSequence (pk : option string) (t : EventsTable) : Z :=
  match max_sequence (filter (project_matches pk) t) with
  | None => 0
  | Some s => s
  end.

(** The auto-increment source of the table: one more than the largest
    value handed out so far. *)
Definition next_sequence (t : EventsTable) : Z :=
  getLatestSequence None t + 1.

Definition store_event (ne : NewEvent) (t : EventsTable) : Event :=
  mkEvent (next_sequence t) (next_sequence t)
          (ne_project_key ne) (ne_timestamp ne) (ne_data ne).

(** Modelled from the spec: the insert half of [appendEvent] (the
    projection half is in [Projections]).  Section 4.3: the sequence comes
    from the table's auto-increment and the stored event is returned with
    its identifiers. *)
Definition insertEvent (ne : NewEvent) (t : EventsTable) : Event * EventsTable :=
  let e := store_event ne t in (e, t ++ [e]).

(** The table after a run of successful appends, oldest first. *)
Definition insertEvents (nes : list NewEvent) (t : EventsTable) : EventsTable :=
  fold_left (fun acc ne => snd (insertEvent ne acc)) nes t.

End EventStore.

Export EventStore.

(** ** Durable stream adapter (streams/durable-adapter.ts) *)

Module DurableStreamAdapter.

Record StreamEvent : Type := mkStreamEvent {
  se_offset : Z;
  se_data : string;
  se_timestamp : Z
}.

Section Adapter.

(** [JSON.stringify] on events is the host's; the adapter is read over
    any encoder. *)
Variable JSON_stringify : Event -> string.

(** What the adapter closes over: the project key.  The SwarmMailAdapter
    it also closes over is the events table, threaded explicitly. *)
Variable projectKey : string.

Definition toStreamEvent (event : Event) : StreamEvent :=
  mkStreamEvent (sequence event) (JSON_stringify event) (timestamp event).

Definition read (t : EventsTable) (offset : Z) (limit : nat) : list StreamEvent :=
  let events :=
    readEvents
      (mkReadEventsOptions (Some projectKey) None (Some offset) None None
                           (Some limit) None) t in
  map toStreamEvent events.

Definition head (t : EventsTable) : Z :=
  getLatestSequence (Some projectKey) t.

(** *** subscribe

    The closure state of one subscription.  [pollInterval] says whether the
    interval timer is still armed; [pendingHead] is the head read that
    [subscribe] issues when no start offset is given, until its promise
    resolves; [inFlight] holds the polls that are suspended at their
    [await readEvents], each with the rows its read returns; [received]
    records the calls of the callback, oldest first. *)
Record Subscription : Type := mkSubscription {
  lastSequence : Z;
  isActive : bool;
  initialized : bool;
  pollInterval : bool;
  pendingHead : option Z;
  inFlight : list (list Event);
  received : list StreamEvent
}.

(** What a call of the subscriber's callback does besides receiving the
    event: return, call the unsubscribe function, or throw. *)
Inductive CallbackOutcome : Type :=
| cb_returns
| cb_unsubscribes
| cb_throws.

Variable callback : StreamEvent -> CallbackOutcome.

(** The callback of a reader that only takes the event. *)
Definition always_returns : StreamEvent -> CallbackOutcome :=
  fun _ => cb_returns.

Definition subscribe (startOffset : option Z) (t : EventsTable) : Subscription :=
  let initialized0 := match startOffset with Some _ => true | None => false end in
  mkSubscription
    (match startOffset with Some o => o | None => 0 end)
    true
    initialized0
    true
    (if initialized0 then None else Some (getLatestSequence (Some projectKey) t))
    []
    [].

(** The async block of [subscribe] resumes: [lastSequence] becomes the head
    it read and the subscription is initialized. *)
Definition initResolves (s : Subscription) : Subscription :=
  match pendingHead s with
  | None => s
  | Some h =>
      mkSubscription h (isActive s) true (pollInterval s) None
                     (inFlight s) (received s)
  end.

(** The unsubscribe function returned by [subscribe]. *)
Definition unsubscribe (s : Subscription) : Subscription :=
  mkSubscription (lastSequence s) false (initialized s) false
                 (pendingHead s) (inFlight s) (received s).

(** The interval fires: the poll runs up to its [await], issuing the read
    after the current [lastSequence] with the batch size 100. *)
Definition intervalFires (t : EventsTable) (s : Subscription) : Subscription :=
  if negb (pollInterval s) then s
  else if negb (isActive s) || negb (initialized s) then s
  else
    let events :=
      readEvents
        (mkReadEventsOptions (Some projectKey) None (Some (lastSequence s))
                             None None (Some 100%nat) None) t in
    mkSubscription (lastSequence s) (isActive s) (initialized s)
                   (pollInterval s) (pendingHead s)
                   (inFlight s ++ [events]) (received s).

(** The [for] loop of a poll over the rows it read. *)
Fixpoint deliver (events : list Event) (s : Subscription) : Subscription :=
  match events with
  | [] => s
  | event :: rest =>
      if negb (isActive s) then s
      else
        let streamEvent := toStreamEvent event in
        let got := received s ++ [streamEvent] in
        match callback streamEvent with
        | cb_throws =>
            (* caught by the poll's try/catch: the loop is left and
               [lastSequence] keeps its value *)
            mkSubscription (lastSequence s) (isActive s) (initialized s)
                           (pollInterval s) (pendingHead s) (inFlight s) got
        | cb_unsubscribes =>
            deliver rest
              (mkSubscription (sequence event) false (initialized s) false
                              (pendingHead s) (inFlight s) got)
        | cb_returns =>
            deliver rest
              (mkSubscription (sequence event) (isActive s) (initialized s)
                              (pollInterval s) (pendingHead s) (inFlight s) got)
        end
  end.

(** A list without its [i]-th element. *)
Fixpoint remove_nth {A : Type} (i : nat) (l : list A) : list A :=
  match i, l with
  | _, [] => []
  | O, _ :: r => r
  | S j, x :: r => x :: remove_nth j r
  end.

(** The read of the [i]-th suspended poll resolves and its loop runs. *)
Definition readResolves (i : nat) (s : Subscription) : Subscription :=
  match nth_error (inFlight s) i with
  | None => s
  | Some events =>
      deliver events
        (mkSubscription (lastSequence s) (isActive s) (initialized s)
                        (pollInterval s) (pendingHead s)
                        (remove_nth i (inFlight s)) (received s))
  end.

(** The read of the [i]-th suspended poll rejects: the poll's [catch] logs
    the error and the poll is over. *)
Definition readRejects (i : nat) (s : Subscription) : Subscription :=
  mkSubscription (lastSequence s) (isActive s) (initialized s)
                 (pollInterval s) (pendingHead s)
                 (remove_nth i (inFlight s)) (received s).

(** The event loop around one subscription: the table and the closure. *)
Record World : Type := mkWorld {
  table : EventsTable;
  sub : Subscription
}.

Inductive Action : Type :=
| Append (ne : NewEvent)
| InitResolves
| IntervalFires
| ReadResolves (i : nat)
| ReadRejects (i : nat)
| Unsubscribe.

Definition step (w : World) (a : Action) : World :=
  match a with
  | Append ne => mkWorld (snd (insertEvent ne (table w))) (sub w)
  | InitResolves => mkWorld (table w) (initResolves (sub w))
  | IntervalFires => mkWorld (table w) (intervalFires (table w) (sub w))
  | ReadResolves i => mkWorld (table w) (readResolves i (sub w))
  | ReadRejects i => mkWorld (table w) (readRejects i (sub w))
  | Unsubscribe => mkWorld (table w) (unsubscribe (sub w))
  end.

Definition run (w : World) (schedule : list Action) : World :=
  fold_left step schedule w.

(** A poll whose read resolves before anything else happens. *)
Definition poll (w : World) : World :=
  step (step w IntervalFires) (ReadResolves (List.length (inFlight (sub w)))).

(** Schedules in which no two polls of the subscription overlap: appends
    and whole polls. *)
Inductive SeqAction : Type :=
| SeqAppend (ne : NewEvent)
| SeqPoll.

Definition seq_step (w : World) (a : SeqAction) : World :=
  match a with
  | SeqAppend ne => step w (Append ne)
  | SeqPoll => poll w
  end.

Definition seq_run (w : World) (schedule : list SeqAction) : World :=
  fold_left seq_step schedule w.

(** The stored events of the adapter's project with a sequence above [l],
    in table order: what a subscriber at [lastSequence = l] has still to
    receive. *)
Definition pending (l : Z) (t : EventsTable) : list Event :=
  filter
    (fun e => String.eqb (project_key e) projectKey && (l <? sequence e)) t.

(** A world in which a subscriber that started at offset [o] has received
    the first [k] pending events and stands between two polls. *)
Definition received_prefix (o : Z) (k : nat) (t : EventsTable)
           (s : Subscription) : Prop :=
  (k <= List.length (pending o t))%nat
  /\ received s = map toStreamEvent (firstn k (pending o t))
  /\ lastSequence s = last (map sequence (firstn k (pending o t))) o.

(** A subscription between two polls: running, nothing suspended. *)
Definition idle (s : Subscription) : Prop :=
  isActive s = true /\ initialized s = true /\ pollInterval s = true
  /\ pendingHead s = None /\ inFlight s = [].

End Adapter.

End DurableStreamAdapter.

(** ** libSQL storage adapter (libsql.ts) *)

Module LibSQL.

(** A value a JavaScript function throws: an [Error] object, or anything
    else, kept as the text [String(error)] gives for it. *)
Inductive Thrown : Type :=
| ThrownError (message : string)
| ThrownValue (text : string).

Record JsError : Type := mkJsError { message : string }.

(** [error instanceof Error ? error : new Error(String(error))] *)
Definition capture (x : Thrown) : JsError :=
  match x with
  | ThrownError m => mkJsError m
  | ThrownValue s => mkJsError s
  end.

Section Client.

(** The @libsql/client [Client] is not part of the repository: its
    database state, its rows and arguments, and what [execute] does to
    the database are parameters.  [execute] either rejects, leaving the
    database as it was, or resolves with the rows and the new state. *)
Variable Database : Type.
Variable Row : Type.
Variable Arg : Type.

Record InStatement : Type := mkInStatement {
  sql : string;
  args : option (list Arg)
}.

Variable execute : InStatement -> Database -> Thrown + (list Row * Database).

(** [client.batch(stmts, "write")]: the statements run in order inside one
    database transaction; if one of them fails the transaction is rolled
    back and the batch rejects. *)
Fixpoint batch_run (stmts : list InStatement) (db : Database)
  : Thrown + Database :=
  match stmts with
  | [] => inr db
  | st :: rest =>
      match execute st db with
      | inl err => inl err
      | inr (_, db') => batch_run rest db'
      end
  end.

Definition batch (stmts : list InStatement) (db : Database)
  : Thrown + Database := batch_run stmts db.

(** [LibSQLAdapter.query] and [LibSQLAdapter.exec] *)
Definition query (s : string) (params : option (list Arg)) (db : Database)
  : Thrown + (list Row * Database) :=
  execute (mkInStatement s params) db.

Definition exec (s : string) (db : Database) : Thrown + Database :=
  match execute (mkInStatement s None) db with
  | inl err => inl err
  | inr (_, db') => inr db'
  end.

(** The function given to [transaction], as the calls it makes on the
    transaction handle [tx]: it returns, throws, awaits [tx.query] (and
    goes on with the rows or with the rejection, which it may catch), or
    awaits [tx.exec]. *)
Inductive TxProg (T : Type) : Type :=
| Return (v : T)
| Throw (x : Thrown)
| TxQuery (s : string) (params : option (list Arg))
          (k : Thrown + list Row -> TxProg T)
| TxExec (s : string) (k : TxProg T).

Arguments Return {T} v.
Arguments Throw {T} x.
Arguments TxQuery {T} s params k.
Arguments TxExec {T} s k.

(** The state of a call of [fn(txAdapter)] when it settles: its outcome,
    the database, the statements collected in [txStatements], and every
    query the handle executed with the database state it ran on. *)
Record FnRun (T : Type) : Type := mkFnRun {
  outcome : T + Thrown;
  db_after : Database;
  txStatements : list InStatement;
  observed : list (InStatement * Database)
}.

Arguments mkFnRun {T} _ _ _ _.
Arguments outcome {T} _.
Arguments db_after {T} _.
Arguments txStatements {T} _.
Arguments observed {T} _.

Fixpoint run_fn {T : Type} (fn : TxProg T) (db : Database)
         (collected : list InStatement)
         (seen : list (InStatement * Database)) : FnRun T :=
  match fn with
  | Return v => mkFnRun (inl v) db collected seen
  | Throw x => mkFnRun (inr x) db collected seen
  | TxQuery s params k =>
      let st := mkInStatement s params in
      match execute st db with
      | inl err => run_fn (k (inl err)) db collected (seen ++ [(st, db)])
      | inr (rows, db') =>
          run_fn (k (inr rows)) db' collected (seen ++ [(st, db)])
      end
  | TxExec s k =>
      run_fn k db (collected ++ [mkInStatement s None]) seen
  end.

(** [LibSQLAdapter.transaction] *)
Definition transaction {T : Type} (fn : TxProg T) (db : Database)
  : (T + JsError) * Database :=
  let r := run_fn fn db [] [] in
  match outcome r with
  | inl result =>
      match txStatements r with
      | [] => (inl result, db_after r)
      | _ :: _ =>
          match batch (txStatements r) (db_after r) with
          | inl err => (inr (capture err), db_after r)
          | inr db' => (inl result, db')
          end
      end
  | inr x => (inr (capture x), db_after r)
  end.

(** [fn] with its [tx.exec] calls taken out. *)
Fixpoint without_exec {T : Type} (fn : TxProg T) : TxProg T :=
  match fn with
  | Return v => Return v
  | Throw x => Throw x
  | TxQuery s params k => TxQuery s params (fun r => without_exec (k r))
  | TxExec s k => without_exec k
  end.

End Client.

Arguments Return {Row Arg T} v.
Arguments Throw {Row Arg T} x.
Arguments TxQuery {Row Arg T} s params k.
Arguments TxExec {Row Arg T} s k.
Arguments mkInStatement {Arg} sql args.
Arguments sql {Arg} _.
Arguments args {Arg} _.
Arguments outcome {Database Arg T} _.
Arguments db_after {Database Arg T} _.
Arguments txStatements {Database Arg T} _.
Arguments observed {Database Arg T} _.
Arguments batch_run {Database Row Arg} execute stmts db.
Arguments batch {Database Row Arg} execute stmts db.
Arguments query {Database Row Arg} execute s params db.
Arguments exec {Database Row Arg} execute s db.
Arguments run_fn {Database Row Arg} execute {T} fn db collected seen.
Arguments transaction {Database Row Arg} execute {T} fn db.
Arguments without_exec {Row Arg T} fn.

(** A one-table database to run the adapter on: table [t] holds integers. *)
Definition mini_execute (st : InStatement Z) (db : list Z)
  : Thrown + (list Z * list Z) :=
  if String.eqb (sql st) "SELECT v FROM t" then inr (db, db)
  else if String.eqb (sql st) "INSERT INTO t VALUES (?)" then
    match args st with
    | Some [v] => inr ([], db ++ [v])
    | _ => inl (ThrownError "SQLITE_RANGE")
    end
  else if String.eqb (sql st) "INSERT INTO t VALUES (1)" then inr ([], db ++ [1])
  else if String.eqb (sql st) "DELETE FROM t" then inr ([], [])
  else inl (ThrownError "SQLITE_ERROR").

End LibSQL.

(** ** Memory store (memory/store.ts): vector search *)

Module MemoryStore.

Inductive AdapterType : Type := pglite | libsql.

Inductive MatchType : Type := vector | fts.

(** A number as a query hands it back: a number, or none.  PGlite gives
    NaN for what has no value; in libSQL a NaN becomes NULL. *)
Inductive Num : Type :=
| num (q : Q)
| not_a_number.

(** What [LIMIT] makes of the number it is given: a row count, no bound,
    or a rejection of the query. *)
Inductive LimitReading : Type :=
| first_rows (n : nat)
| unlimited
| rejected.

(** The row count a number is, when it is one: a non-negative integer. *)
Definition as_count (limit : Q) : option nat :=
  let r := Qred limit in
  if ((Qden r =? 1)%positive && (0 <=? Qnum r)%Z)%bool
  then Some (Z.to_nat (Qnum r))
  else None.

Definition limit_rows {A : Type} (reading : LimitReading) (rows : list A)
  : option (list A) :=
  match reading with
  | first_rows n => Some (firstn n rows)
  | unlimited => Some rows
  | rejected => None
  end.

(** An order on scores in which a score that is no number is the lowest. *)
Definition score_at_least (a b : Num) : Prop :=
  match a, b with
  | num x, num y => (y <= x)%Q
  | _, not_a_number => True
  | not_a_number, num _ => False
  end.

Section Store.

(** Not in the repository: the parsed form of a metadata object with
    [JSON.parse] and the empty object; the cosine distance that both
    engines compute ([vector_distance_cos(e, vector(?))] in libSQL,
    [e <=> $1] in PGlite), here over rational coordinates and with no
    value where the engine has none (a vector without direction); and
    what the engine's [LIMIT] makes of a number that is no row count (a
    negative or fractional limit). *)
Variable Metadata : Type.
Variable JSON_parse : string -> Metadata.
Variable empty_metadata : Metadata.
Variable vector_distance_cos : list Q -> list Q -> Num.
Variable limit_outside : AdapterType -> Q -> LimitReading.

(** The [metadata] column: TEXT in libSQL, JSONB (already an object) in
    PGlite, or NULL. *)
Inductive MetadataColumn : Type :=
| metadata_text (s : string)
| metadata_object (m : Metadata)
| metadata_null.

(** A row of [memories].  In libSQL the embedding is a column of the
    table; in PGlite that column does not exist (always [None]) and the
    embeddings are the rows of [memory_embeddings]. *)
Record MemoryRow : Type := mkMemoryRow {
  row_id : string;
  row_content : string;
  row_metadata : MetadataColumn;
  row_collection : option string;
  row_created_at : string;
  row_confidence : option Q;
  row_embedding : option (list Q)
}.

Record EmbeddingRow : Type := mkEmbeddingRow {
  memory_id : string;
  embedding : list Q
}.

Record Database : Type := mkDatabase {
  adapterType : AdapterType;
  memories : list MemoryRow;
  memory_embeddings : list EmbeddingRow
}.

Record Memory : Type := mkMemory {
  id : string;
  content : string;
  metadata : Metadata;
  collection : string;
  createdAt : string;
  confidence : Q
}.

Record SearchResult : Type := mkSearchResult {
  memory : Memory;
  score : Num;
  matchType : MatchType
}.

(** [limit] and [threshold] are numbers of the caller's choice; the code
    hands them to the engine as they are. *)
Record SearchOptions : Type := mkSearchOptions {
  opt_limit : option Q;
  opt_threshold : option Q;
  opt_collection : option string
}.

Definition parseMemoryRow (row : MemoryRow) : Memory :=
  let metadata :=
    match row_metadata row with
    | metadata_text s => JSON_parse s
    | metadata_object m => m
    | metadata_null => empty_metadata
    end in
  mkMemory (row_id row) (row_content row) metadata
           (match row_collection row with Some c => c | None => "default"%string end)
           (row_created_at row)
           (match row_confidence row with Some c => c | None => (7 # 10)%Q end).

(** [if (collection)]: an absent collection and the empty string add no
    condition to the query. *)
Definition collection_condition (collection : option string) : option string :=
  match collection with
  | None => None
  | Some c => if String.eqb c EmptyString then None else Some c
  end.

(** [collection = ?] on a row; a NULL collection matches nothing. *)
Definition collection_is (c : string) (row : MemoryRow) : bool :=
  match row_collection row with
  | Some rc => String.eqb rc c
  | None => false
  end.

(** The row a query works on: a memory with the embedding found for it. *)
Definition Candidate : Type := (MemoryRow * list Q)%type.

Definition distance_of (queryEmbedding : list Q) (c : Candidate) : Num :=
  vector_distance_cos (snd c) queryEmbedding.

(** [1 - distance]: no number when the distance is none. *)
Definition score_of (queryEmbedding : list Q) (c : Candidate) : Num :=
  match distance_of queryEmbedding c with
  | num d => num (1 - d)
  | not_a_number => not_a_number
  end.

(** [FROM memories WHERE embedding IS NOT NULL] *)
Definition from_memories (db : Database) : list Candidate :=
  flat_map
    (fun m => match row_embedding m with
              | Some e => [(m, e)]
              | None => []
              end)
    (memories db).

(** [FROM memory_embeddings e JOIN memories m ON m.id = e.memory_id] *)
Definition from_embeddings_join (db : Database) : list Candidate :=
  flat_map
    (fun e =>
       map (fun m => (m, embedding e))
           (filter (fun m => String.eqb (row_id m) (memory_id e))
                   (memories db)))
    (memory_embeddings db).

(** [score >= threshold] as the engine decides it.  In PostgreSQL NaN
    compares greater than every number, so the condition holds; in
    SQLite a comparison with NULL is not true. *)
Definition passes_threshold (engine : AdapterType) (threshold : Q)
           (score : Num) : bool :=
  match score with
  | num s => Qle_bool threshold s
  | not_a_number =>
      match engine with
      | pglite => true
      | libsql => false
      end
  end.

Definition where_clause (engine : AdapterType) (queryEmbedding : list Q)
           (collection : option string) (threshold : Q) (c : Candidate) : bool :=
  match collection_condition collection with
  | None => true
  | Some col => collection_is col (fst c)
  end
  && passes_threshold engine threshold (score_of queryEmbedding c).

(** The order of [ORDER BY distance ASC]: numbers by size, and what is no
    number after them (PostgreSQL sorts NaN last; in libSQL no such row
    passes the threshold). *)
Definition distance_le (a b : Num) : bool :=
  match a, b with
  | num x, num y => Qle_bool x y
  | _, not_a_number => true
  | not_a_number, num _ => false
  end.

(** [ORDER BY distance ASC]: a stable insertion sort on the distance. *)
Fixpoint insert_by_distance (queryEmbedding : list Q) (c : Candidate)
         (l : list Candidate) : list Candidate :=
  match l with
  | [] => [c]
  | x :: r =>
      if distance_le (distance_of queryEmbedding c) (distance_of queryEmbedding x)
      then c :: x :: r
      else x :: insert_by_distance queryEmbedding c r
  end.

Fixpoint order_by_distance (queryEmbedding : list Q) (l : list Candidate)
  : list Candidate :=
  match l with
  | [] => []
  | c :: r => insert_by_distance queryEmbedding c (order_by_distance queryEmbedding r)
  end.

(** [LIMIT ?] with the number the caller gave. *)
Definition read_limit (engine : AdapterType) (limit : Q) : LimitReading :=
  match as_count limit with
  | Some n => first_rows n
  | None => limit_outside engine limit
  end.

Definition to_result (queryEmbedding : list Q) (c : Candidate) : SearchResult :=
  mkSearchResult (parseMemoryRow (fst c)) (score_of queryEmbedding c) vector.

(** [search(queryEmbedding, options)]; [None] when the engine rejects the
    query, which rejects the call. *)
Definition search (db : Database) (queryEmbedding : list Q)
           (options : SearchOptions) : option (list SearchResult) :=
  let limit := match opt_limit options with Some n => n | None => 10%Q end in
  let threshold :=
    match opt_threshold options with Some t => t | None => (3 # 10)%Q end in
  let collection := opt_collection options in
  let rows :=
    match adapterType db with
    | libsql =>
        limit_rows (read_limit libsql limit)
          (order_by_distance queryEmbedding
             (filter (where_clause libsql queryEmbedding collection threshold)
                     (from_memories db)))
    | pglite =>
        limit_rows (read_limit pglite limit)
          (order_by_distance queryEmbedding
             (filter (where_clause pglite queryEmbedding collection threshold)
                     (from_embeddings_join db)))
    end in
  option_map (map (to_result queryEmbedding)) rows.

Definition nearest_first (queryEmbedding : list Q) (l : list Candidate) : Prop :=
  StronglySorted
    (fun a b => distance_le (distance_of queryEmbedding a)
                            (distance_of queryEmbedding b) = true) l.

(** The memories with an embedding, whichever the engine. *)
Definition stored (db : Database) : list Candidate :=
  match adapterType db with
  | libsql => from_memories db
  | pglite => from_embeddings_join db
  end.

End Store.

Arguments metadata_text {Metadata} s.
Arguments metadata_object {Metadata} m.
Arguments metadata_null {Metadata}.
Arguments mkMemoryRow {Metadata} _ _ _ _ _ _ _.
Arguments row_id {Metadata} _.
Arguments row_content {Metadata} _.
Arguments row_metadata {Metadata} _.
Arguments row_collection {Metadata} _.
Arguments row_created_at {Metadata} _.
Arguments row_confidence {Metadata} _.
Arguments row_embedding {Metadata} _.
Arguments mkDatabase {Metadata} _ _ _.
Arguments adapterType {Metadata} _.
Arguments memories {Metadata} _.
Arguments memory_embeddings {Metadata} _.
Arguments mkMemory {Metadata} _ _ _ _ _ _.
Arguments id {Metadata} _.
Arguments content {Metadata} _.
Arguments metadata {Metadata} _.
Arguments collection {Metadata} _.
Arguments createdAt {Metadata} _.
Arguments confidence {Metadata} _.
Arguments mkSearchResult {Metadata} _ _ _.
Arguments memory {Metadata} _.
Arguments score {Metadata} _.
Arguments matchType {Metadata} _.
Arguments parseMemoryRow {Metadata} JSON_parse empty_metadata row.
Arguments collection_is {Metadata} c row.
Arguments distance_of {Metadata} vector_distance_cos queryEmbedding c.
Arguments score_of {Metadata} vector_distance_cos queryEmbedding c.
Arguments from_memories {Metadata} db.
Arguments from_embeddings_join {Metadata} db.
Arguments where_clause {Metadata} vector_distance_cos engine queryEmbedding
  collection threshold c.
Arguments insert_by_distance {Metadata} vector_distance_cos queryEmbedding c l.
Arguments order_by_distance {Metadata} vector_distance_cos queryEmbedding l.
Arguments nearest_first {Metadata} vector_distance_cos queryEmbedding l.
Arguments to_result {Metadata} JSON_parse empty_metadata vector_distance_cos
  queryEmbedding c.
Arguments search {Metadata} JSON_parse empty_metadata vector_distance_cos
  limit_outside db queryEmbedding options.
Arguments stored {Metadata} db.

(** A distance to run the queries on without the engines: the absolute
    difference of the first coordinates.  Like the cosine distance it is
    0 on equal vectors. *)
Definition first_coordinate_distance (e q : list Q) : Num :=
  num (Qabs (hd 0%Q e - hd 0%Q q)).

(** The same with no value on a vector whose coordinates are all 0, as
    the cosine distance has none there. *)
Definition direction_distance (e q : list Q) : Num :=
  if forallb (fun x => Qeq_bool x 0) e || forallb (fun x => Qeq_bool x 0) q
  then not_a_number
  else first_coordinate_distance e q.

(** A [LIMIT] that rejects what is no row count, and one that takes it
    for no bound. *)
Definition limit_rejects : AdapterType -> Q -> LimitReading :=
  fun _ _ => rejected.

Definition limit_unbounded : AdapterType -> Q -> LimitReading :=
  fun _ _ => unlimited.

End MemoryStore.

(** ** Cell adapter (beads/adapter.ts) *)

Module Beads.

Inductive BeadStatus : Type := open | in_progress | blocked | closed | tombstone.

Inductive BeadType : Type := bug | feature | task | epic | chore | message.

Definition BeadStatus_eqb (a b : BeadStatus) : bool :=
  match a, b with
  | open, open | in_progress, in_progress | blocked, blocked
  | closed, closed | tombstone, tombstone => true
  | _, _ => false
  end.

Definition BeadType_eqb (a b : BeadType) : bool :=
  match a, b with
  | bug, bug | feature, feature | task, task | epic, epic
  | chore, chore | message, message => true
  | _, _ => false
  end.

(** Full bead record (the row of the [beads] projection). *)
Record Bead : Type := mkBead {
  id : string;
  project_key : string;
  type : BeadType;
  status : BeadStatus;
  title : string;
  description : option string;
  priority : Z;
  parent_id : option string;
  assignee : option string;
  created_at : Z;
  updated_at : Z;
  closed_at : option Z;
  closed_reason : option string;
  deleted_at : option Z;
  deleted_by : option string;
  delete_reason : option string;
  created_by : option string
}.

Record QueryBeadsOptions : Type := mkQueryBeadsOptions {
  q_status : option (list BeadStatus);
  q_type : option (list BeadType);
  q_parent_id : option string;
  q_assignee : option string;
  q_limit : option nat;
  q_offset : option nat;
  q_include_deleted : bool
}.

Definition option_string_is (o : option string) (s : string) : bool :=
  match o with
  | Some x => String.eqb x s
  | None => false
  end.

Definition bead_matches (projectKey : string) (o : QueryBeadsOptions)
           (b : Bead) : bool :=
  String.eqb (project_key b) projectKey
  && match q_status o with
     | None => true
     | Some l => existsb (BeadStatus_eqb (status b)) l
     end
  && match q_type o with
     | None => true
     | Some l => existsb (BeadType_eqb (type b)) l
     end
  && match q_parent_id o with
     | None => true
     | Some p => option_string_is (parent_id b) p
     end
  && match q_assignee o with
     | None => true
     | Some a => option_string_is (assignee b) a
     end
  && (q_include_deleted o
      || match deleted_at b with None => true | Some _ => false end).

(** Modelled from the spec: [queryBeads] of beads/projections.ts, which
    is not among the sources.  Sections 4.4 and 4.7: the cells of the
    project that pass every given filter; soft-deleted cells are left out
    unless [include_deleted] is set. *)
Definition queryBeads (beads : list Bead) (projectKey : string)
           (o : QueryBeadsOptions) : list Bead :=
  let rows := filter (bead_matches projectKey o) beads in
  let rows := match q_offset o with Some n => skipn n rows | None => rows end in
  match q_limit o with Some n => firstn n rows | None => rows end.

(** [isEpicClosureEligible] of the adapter. *)
Definition isEpicClosureEligible (beads : list Bead) (projectKeyParam : string)
           (epicId : string) : bool :=
  let children :=
    queryBeads beads projectKeyParam
      (mkQueryBeadsOptions None None (Some epicId) None None None false) in
  forallb (fun child => BeadStatus_eqb (status child) closed) children.

End Beads.

(** ** Appending with projections, and replay *)

Module Replay.

Section Registry.

(** The projection tables, their truncated state, and the registry of
    apply functions, one deterministic [apply(event, tx)] per event type
    (section 4.4). *)
Variable Views : Type.
Variable no_views : Views.
Variable apply : Event -> Views -> Views.

Record Database : Type := mkDatabase {
  events : EventsTable;
  views : Views
}.

Definition empty_database : Database := mkDatabase [] no_views.

(** Modelled from the spec: [appendEvent] (store.ts is not among the
    sources).  Section 4.3: the row is inserted with its sequence and the
    projection update for the event runs in the same transaction. *)
Definition appendEvent (ne : NewEvent) (db : Database) : Event * Database :=
  let e := fst (insertEvent ne (events db)) in
  (e, mkDatabase (snd (insertEvent ne (events db))) (apply e (views db))).

(** Modelled from the spec: [appendEvents], in input order. *)
Fixpoint appendEvents (nes : list NewEvent) (db : Database)
  : list Event * Database :=
  match nes with
  | [] => ([], db)
  | ne :: rest =>
      let r := appendEvent ne db in
      let rs := appendEvents rest (snd r) in
      (fst r :: fst rs, snd rs)
  end.

Record ReplayOptions : Type := mkReplayOptions {
  projectKey : option string;
  fromSequence : option Z;
  clearViews : bool
}.

(** Modelled from the spec: [replayEvents] (section 4.9): truncate the
    projection tables when [clearViews], read the events in ascending
    sequence order and apply each through the registry.  The result is
    the number of events replayed (the measured duration is left out)
    and the database. *)
Definition replayEvents (o : ReplayOptions) (db : Database) : nat * Database :=
  let start := if clearViews o then no_views else views db in
  let evs :=
    readEvents
      (mkReadEventsOptions (projectKey o) None (fromSequence o) None None
                           None None)
      (events db) in
  (List.length evs,
   mkDatabase (events db) (fold_left (fun v e => apply e v) evs start)).

End Registry.

Arguments mkDatabase {Views} events views.
Arguments events {Views} _.
Arguments views {Views} _.
Arguments empty_database {Views} no_views.
Arguments appendEvent {Views} apply ne db.
Arguments appendEvents {Views} apply nes db.
Arguments replayEvents {Views} no_views apply o db.

End Replay.

(** ** The projections of swarm-mail: agents, messages, reservations *)

Module Projections.

Record Agent : Type := mkAgent {
  agent_project_key : string;
  name : string;
  program : string;
  model : string;
  task_description : string;
  registered_at : Z;
  last_active_at : Z
}.

Record Message : Type := mkMessage {
  message_id : Z;
  message_project_key : string;
  from_agent : string;
  subject : string;
  body : string;
  thread_id : option string;
  importance : string;
  sent_at : Z
}.

(** Read and ack state, one row per recipient. *)
Record Recipient : Type := mkRecipient {
  recipient_message_id : Z;
  recipient_agent : string;
  read_at : option Z;
  acked_at : option Z
}.

Record Reservation : Type := mkReservation {
  reservation_id : Z;
  reservation_project_key : string;
  agent_name : string;
  path_pattern : string;
  exclusive : bool;
  reason : option string;
  acquired_at : Z;
  expires_at : option Z;
  released_at : option Z
}.

Record Views : Type := mkViews {
  agents : list Agent;
  messages : list Message;
  recipients : list Recipient;
  reservations : list Reservation
}.

Definition no_views : Views := mkViews [] [] [] [].

(** Active iff [released_at IS NULL AND (expires_at IS NULL OR
    expires_at > now)]. *)
Definition active (now : Z) (r : Reservation) : bool :=
  match released_at r with
  | Some _ => false
  | None =>
      match expires_at r with
      | None => true
      | Some t => now <? t
      end
  end.

Definition is_agent (pk nm : string) (a : Agent) : bool :=
  String.eqb (agent_project_key a) pk && String.eqb (name a) nm.

(** [last_active_at] of the agent an event names. *)
Definition touch_agent (pk nm : string) (ts : Z) (l : list Agent) : list Agent :=
  map (fun a =>
         if is_agent pk nm a
         then mkAgent (agent_project_key a) (name a) (program a) (model a)
                      (task_description a) (registered_at a) ts
         else a) l.

Definition upsert_agent (pk nm prog mdl taskd : string) (ts : Z)
           (l : list Agent) : list Agent :=
  if existsb (is_agent pk nm) l
  then map (fun a =>
              if is_agent pk nm a
              then mkAgent pk nm prog mdl taskd (registered_at a) ts
              else a) l
  else l ++ [mkAgent pk nm prog mdl taskd ts ts].

Definition next_id {A : Type} (l : list A) : Z := Z.of_nat (List.length l) + 1.

Definition mark_read (mid : Z) (agent : string) (ts : Z) (l : list Recipient)
  : list Recipient :=
  map (fun r =>
         if (recipient_message_id r =? mid) && String.eqb (recipient_agent r) agent
         then mkRecipient (recipient_message_id r) (recipient_agent r)
                          (match read_at r with Some t => Some t | None => Some ts end)
                          (acked_at r)
         else r) l.

Definition mark_acked (mid : Z) (agent : string) (ts : Z) (l : list Recipient)
  : list Recipient :=
  map (fun r =>
         if (recipient_message_id r =? mid) && String.eqb (recipient_agent r) agent
         then mkRecipient (recipient_message_id r) (recipient_agent r)
                          (read_at r)
                          (match acked_at r with Some t => Some t | None => Some ts end)
         else r) l.

(** An equivalent reservation: same project, agent, path and exclusivity,
    still active. *)
Definition equivalent_active (now : Z) (pk agent path : string) (excl : bool)
           (r : Reservation) : bool :=
  active now r
  && String.eqb (reservation_project_key r) pk
  && String.eqb (agent_name r) agent
  && String.eqb (path_pattern r) path
  && Bool.eqb (exclusive r) excl.

Definition new_reservation (now : Z) (pk agent : string) (why : option string)
           (excl : bool) (expires : option Z)
           (l : list Reservation) (path : string) : Reservation :=
  mkReservation (next_id l) pk agent path excl why now expires None.

(** The row of one requested path: inserted unless an equivalent active
    reservation is there already. *)
Definition reserve_path (now : Z) (pk agent : string) (why : option string)
           (excl : bool) (expires : option Z)
           (l : list Reservation) (path : string) : list Reservation :=
  if existsb (equivalent_active now pk agent path excl) l then l
  else l ++ [new_reservation now pk agent why excl expires l path].

Definition release_paths (now : Z) (pk agent : string)
           (paths : option (list string)) (l : list Reservation)
  : list Reservation :=
  map (fun r =>
         if active now r
            && String.eqb (reservation_project_key r) pk
            && String.eqb (agent_name r) agent
            && match paths with
               | None => true
               | Some ps => existsb (String.eqb (path_pattern r)) ps
               end
         then mkReservation (reservation_id r) (reservation_project_key r)
                            (agent_name r) (path_pattern r) (exclusive r)
                            (reason r) (acquired_at r) (expires_at r) (Some now)
         else r) l.

(** Modelled from the spec: the registry of apply functions (section 4.4);
    projections.ts and store.ts are not among the sources.  Each rule
    reads the event and the current tables only; the time it uses is the
    event's timestamp. *)
Definition apply (e : Event) (v : Views) : Views :=
  let pk := Events.project_key e in
  let ts := timestamp e in
  match data e with
  | Events.agent_registered nm prog mdl taskd =>
      mkViews (upsert_agent pk nm prog mdl taskd ts (agents v))
              (messages v) (recipients v) (reservations v)
  | Events.agent_active nm =>
      mkViews (touch_agent pk nm ts (agents v))
              (messages v) (recipients v) (reservations v)
  | Events.message_sent from to subj bod thread imp =>
      let mid := next_id (messages v) in
      mkViews (touch_agent pk from ts (agents v))
              (messages v ++ [mkMessage mid pk from subj bod thread imp ts])
              (recipients v ++ map (fun a => mkRecipient mid a None None) to)
              (reservations v)
  | Events.message_read mid agent =>
      mkViews (touch_agent pk agent ts (agents v)) (messages v)
              (mark_read mid agent ts (recipients v)) (reservations v)
  | Events.message_acked mid agent =>
      mkViews (touch_agent pk agent ts (agents v)) (messages v)
              (mark_acked mid agent ts (recipients v)) (reservations v)
  | Events.file_reserved agent paths why excl expires =>
      mkViews (touch_agent pk agent ts (agents v)) (messages v) (recipients v)
              (fold_left (reserve_path ts pk agent why excl expires) paths
                         (reservations v))
  | Events.file_released agent paths =>
      mkViews (touch_agent pk agent ts (agents v)) (messages v) (recipients v)
              (release_paths ts pk agent paths (reservations v))
  | Events.other_event _ (Some agent) =>
      mkViews (touch_agent pk agent ts (agents v))
              (messages v) (recipients v) (reservations v)
  | Events.other_event _ None => v
  end.

Definition Database : Type := Replay.Database Views.

Definition appendEvent : NewEvent -> Database -> Event * Database :=
  Replay.appendEvent apply.

Definition replayEvents : Replay.ReplayOptions -> Database -> nat * Database :=
  Replay.replayEvents no_views apply.

End Projections.

(** ** Reservation arbiter *)

Module Reservations.

Import Projections.

Section Arbiter.

(** Glob overlap of two path patterns; the specification leaves the
    relation open (section 4.6). *)
Variable overlaps : string -> string -> bool.








End Arbiter.

End Reservations.

(** ** Memory store (memory/store.ts): store, get, delete, list, getStats *)

Module MemoryCrud.

Import MemoryStore.

Section Store.

(** As for the search, the parsed form of a metadata object is a
    parameter, with [JSON.parse], [JSON.stringify] and the empty object. *)
Variable Metadata : Type.
Variable JSON_parse : string -> Metadata.
Variable JSON_stringify : Metadata -> string.
Variable empty_metadata : Metadata.

(** The [Memory] a caller hands to [store]: its confidence may be absent. *)
Record MemoryArg : Type := mkMemoryArg {
  arg_id : string;
  arg_content : string;
  arg_metadata : Metadata;
  arg_collection : string;
  arg_createdAt : string;
  arg_confidence : option Q
}.

Definition has_id (i : string) (row : MemoryRow Metadata) : bool :=
  String.eqb (row_id row) i.

Definition embedding_of (i : string) (e : EmbeddingRow) : bool :=
  String.eqb (memory_id e) i.

(** [memory.confidence ?? 0.7] *)
Definition confidence_or_default (memory : MemoryArg) : Q :=
  match arg_confidence memory with Some c => c | None => (7 # 10)%Q end.

(** [INSERT INTO memories ... ON CONFLICT (id) DO UPDATE SET content,
    metadata, collection, confidence] and, when [set_embedding] is given
    (libSQL), [embedding]: the conflicting row keeps its [created_at]. *)
Definition upsert_memory (column : MetadataColumn Metadata)
           (set_embedding : option (list Q)) (memory : MemoryArg)
           (rows : list (MemoryRow Metadata)) : list (MemoryRow Metadata) :=
  if existsb (has_id (arg_id memory)) rows
  then map (fun row =>
              if has_id (arg_id memory) row
              then mkMemoryRow (row_id row) (arg_content memory) column
                               (Some (arg_collection memory))
                               (row_created_at row)
                               (Some (confidence_or_default memory))
                               (match set_embedding with
                                | Some e => Some e
                                | None => row_embedding row
                                end)
              else row) rows
  else rows ++ [mkMemoryRow (arg_id memory) (arg_content memory) column
                            (Some (arg_collection memory))
                            (arg_createdAt memory)
                            (Some (confidence_or_default memory))
                            set_embedding].

(** [INSERT INTO memory_embeddings ... ON CONFLICT (memory_id) DO UPDATE
    SET embedding] *)
Definition upsert_embedding (i : string) (e : list Q)
           (rows : list EmbeddingRow) : list EmbeddingRow :=
  if existsb (embedding_of i) rows
  then map (fun r => if embedding_of i r then mkEmbeddingRow (memory_id r) e
                     else r) rows
  else rows ++ [mkEmbeddingRow i e].

(** [store(memory, embedding)].  libSQL keeps the metadata as the JSON
    text; PGlite takes the same text into its JSONB column, from which it
    comes back as an object.  The statements are taken to succeed: when
    one fails, libSQL has run nothing and PGlite rolls back, so the store
    is left as it was and the error goes to the caller. *)
Definition store (memory : MemoryArg) (e : list Q) (db : Database Metadata)
  : Database Metadata :=
  match adapterType db with
  | libsql =>
      mkDatabase libsql
        (upsert_memory (metadata_text (JSON_stringify (arg_metadata memory)))
                       (Some e) memory (memories db))
        (memory_embeddings db)
  | pglite =>
      mkDatabase pglite
        (upsert_memory
           (metadata_object (JSON_parse (JSON_stringify (arg_metadata memory))))
           None memory (memories db))
        (upsert_embedding (arg_id memory) e (memory_embeddings db))
  end.

(** [get(id)]: the first row of [SELECT * FROM memories WHERE id = ?],
    or null. *)
Definition get (i : string) (db : Database Metadata) : option (Memory Metadata) :=
  match filter (has_id i) (memories db) with
  | [] => None
  | row :: _ => Some (parseMemoryRow JSON_parse empty_metadata row)
  end.

(** [delete(id)]; in PGlite the rows of [memory_embeddings] go with their
    memory (ON DELETE CASCADE). *)
Definition delete (i : string) (db : Database Metadata) : Database Metadata :=
  match adapterType db with
  | libsql =>
      mkDatabase libsql (filter (fun r => negb (has_id i r)) (memories db))
                 (memory_embeddings db)
  | pglite =>
      mkDatabase pglite (filter (fun r => negb (has_id i r)) (memories db))
                 (filter (fun e => negb (embedding_of i e)) (memory_embeddings db))
  end.

(** [ORDER BY created_at DESC]: a stable insertion sort, latest first. *)
Fixpoint insert_by_created_at (row : MemoryRow Metadata)
         (l : list (MemoryRow Metadata)) : list (MemoryRow Metadata) :=
  match l with
  | [] => [row]
  | x :: r =>
      if String.leb (row_created_at x) (row_created_at row)
      then row :: x :: r
      else x :: insert_by_created_at row r
  end.

Fixpoint order_by_created_at_desc (l : list (MemoryRow Metadata))
  : list (MemoryRow Metadata) :=
  match l with
  | [] => []
  | row :: r => insert_by_created_at row (order_by_created_at_desc r)
  end.

(** [list(collection)] *)
Definition list_memories (collection : option string) (db : Database Metadata)
  : list (Memory Metadata) :=
  let rows :=
    match collection_condition collection with
    | None => memories db
    | Some c => filter (collection_is c) (memories db)
    end in
  map (parseMemoryRow JSON_parse empty_metadata)
      (order_by_created_at_desc rows).

Record Stats : Type := mkStats {
  memories_count : nat;
  embeddings_count : nat
}.

(** [getStats()] *)
Definition getStats (db : Database Metadata) : Stats :=
  mkStats
    (List.length (memories db))
    (match adapterType db with
     | libsql =>
         List.length
           (filter (fun r => match row_embedding r with
                             | Some _ => true
                             | None => false
                             end) (memories db))
     | pglite => List.length (memory_embeddings db)
     end).

(** What the schema holds of a database: [id] is the primary key of
    [memories]; in libSQL there is no [memory_embeddings] table; in PGlite
    [memories] has no embedding column, [memory_id] is the primary key of
    [memory_embeddings] and refers to a memory. *)
Definition consistent (db : Database Metadata) : Prop :=
  NoDup (map row_id (memories db))
  /\ match adapterType db with
     | libsql => memory_embeddings db = []
     | pglite =>
         Forall (fun r => row_embedding r = None) (memories db)
         /\ NoDup (map memory_id (memory_embeddings db))
         /\ Forall (fun e => In (memory_id e) (map row_id (memories db)))
                   (memory_embeddings db)
     end.

End Store.

Arguments mkMemoryArg {Metadata} _ _ _ _ _ _.
Arguments arg_id {Metadata} _.
Arguments arg_content {Metadata} _.
Arguments arg_metadata {Metadata} _.
Arguments arg_collection {Metadata} _.
Arguments arg_createdAt {Metadata} _.
Arguments arg_confidence {Metadata} _.
Arguments has_id {Metadata} i row.
Arguments confidence_or_default {Metadata} memory.
Arguments upsert_memory {Metadata} column set_embedding memory rows.
Arguments store {Metadata} JSON_parse JSON_stringify memory e db.
Arguments get {Metadata} JSON_parse empty_metadata i db.
Arguments delete {Metadata} i db.
Arguments insert_by_created_at {Metadata} row l.
Arguments order_by_created_at_desc {Metadata} l.
Arguments list_memories {Metadata} JSON_parse empty_metadata collection db.
Arguments getStats {Metadata} db.
Arguments consistent {Metadata} db.

End MemoryCrud.

(** ** Transactions that only call [tx.exec] (libsql.ts) *)

Module LibSQLExecOnly.

Import LibSQL.

Section Programs.

Variable Row : Type.
Variable Arg : Type.
Variable T : Type.

(** [fn] makes no call of [tx.query]. *)
Fixpoint exec_only (fn : TxProg Row Arg T) : bool :=
  match fn with
  | Return _ => true
  | Throw _ => true
  | TxQuery _ _ _ => false
  | TxExec _ k => exec_only k
  end.

(** The statements [fn] hands to [tx.exec] before its first [tx.query],
    in call order. *)
Fixpoint exec_statements (fn : TxProg Row Arg T) : list (InStatement Arg) :=
  match fn with
  | TxExec s k => mkInStatement s None :: exec_statements k
  | _ => []
  end.

End Programs.

Arguments exec_only {Row Arg T} fn.
Arguments exec_statements {Row Arg T} fn.

Section Handle.

Variable Database : Type.
Variable Row : Type.
Variable Arg : Type.
Variable execute : InStatement Arg -> Database -> Thrown + (list Row * Database).

(** The statements [fn] hands to [tx.exec], in call order, as [fn] runs
    from [db] with its queries answered by the client: a query runs on
    the database at once, an [exec] does not touch it. *)
Fixpoint handed_to_exec {T : Type} (fn : TxProg Row Arg T) (db : Database)
  : list (InStatement Arg) :=
  match fn with
  | Return _ => []
  | Throw _ => []
  | TxQuery s params k =>
      match execute (mkInStatement s params) db with
      | inl err => handed_to_exec (k (inl err)) db
      | inr (rows, db') => handed_to_exec (k (inr rows)) db'
      end
  | TxExec s k => mkInStatement s None :: handed_to_exec k db
  end.

End Handle.

Arguments handed_to_exec {Database Row Arg} execute {T} fn db.

End LibSQLExecOnly.

(** ** Cell adapter (beads/adapter.ts): mutations, statistics, ids *)

Module BeadsAdapter.

Import Beads.

(** The values a change records ([unknown] in the source): a string, a
    number or null. *)
Inductive Value : Type :=
| value_string (s : string)
| value_number (n : Z)
| value_null.

Definition value_of_text (o : option string) : Value :=
  match o with
  | Some s => value_string s
  | None => value_null
  end.

Record Change : Type := mkChange { old : Value; new : Value }.

Record UpdateBeadOptions : Type := mkUpdateBeadOptions {
  u_title : option string;
  u_description : option string;
  u_priority : option Z;
  u_assignee : option string;
  u_updated_by : option string
}.

(** The events the mutations of a cell emit.  [changes] is the object of
    the changed fields, keys in insertion order. *)
Inductive BeadEvent : Type :=
| bead_updated (project_key bead_id : string) (timestamp : Z)
               (changes : list (string * Change)) (updated_by : option string)
| bead_status_changed (project_key bead_id : string) (timestamp : Z)
                      (from_status to_status : BeadStatus)
                      (reason changed_by : option string)
| bead_closed (project_key bead_id : string) (timestamp : Z) (reason : string)
              (closed_by : option string) (files_touched : option (list string))
              (duration_ms : option Z)
| bead_reopened (project_key bead_id : string) (timestamp : Z)
                (reason reopened_by : option string)
| bead_deleted (project_key bead_id : string) (timestamp : Z)
               (reason deleted_by : option string).

(** [x || null] on an optional string: absent and empty both give null. *)
Definition text_or_null (o : option string) : option string :=
  match o with
  | Some s => if String.eqb s EmptyString then None else Some s
  | None => None
  end.

(** [x || null] on an optional number: absent and 0 both give null. *)
Definition number_or_null (o : option Z) : option Z :=
  match o with
  | Some n => if n =? 0 then None else Some n
  | None => None
  end.

Definition option_string_eqb (a b : option string) : bool :=
  match a, b with
  | Some x, Some y => String.eqb x y
  | None, None => true
  | _, _ => false
  end.

(** The four tests of [updateBead] that fill [changes]. *)
Definition title_change (options : UpdateBeadOptions) (existingBead : Bead)
  : list (string * Change) :=
  match u_title options with
  | Some t =>
      if negb (String.eqb t EmptyString) && negb (String.eqb t (title existingBead))
      then [("title"%string,
             mkChange (value_string (title existingBead)) (value_string t))]
      else []
  | None => []
  end.

Definition description_change (options : UpdateBeadOptions) (existingBead : Bead)
  : list (string * Change) :=
  match u_description options with
  | Some d =>
      if negb (option_string_eqb (Some d) (description existingBead))
      then [("description"%string,
             mkChange (value_of_text (description existingBead)) (value_string d))]
      else []
  | None => []
  end.

Definition priority_change (options : UpdateBeadOptions) (existingBead : Bead)
  : list (string * Change) :=
  match u_priority options with
  | Some p =>
      if negb (p =? priority existingBead)
      then [("priority"%string,
             mkChange (value_number (priority existingBead)) (value_number p))]
      else []
  | None => []
  end.

Definition assignee_change (options : UpdateBeadOptions) (existingBead : Bead)
  : list (string * Change) :=
  match u_assignee options with
  | Some a =>
      if negb (option_string_eqb (Some a) (assignee existingBead))
      then [("assignee"%string,
             mkChange (value_of_text (assignee existingBead)) (value_string a))]
      else []
  | None => []
  end.

Definition changes_of (options : UpdateBeadOptions) (existingBead : Bead)
  : list (string * Change) :=
  title_change options existingBead
  ++ description_change options existingBead
  ++ priority_change options existingBead
  ++ assignee_change options existingBead.

Definition not_found (beadId : string) : string :=
  ("[BeadsAdapter] Bead not found: " ++ beadId)%string.

Section Adapter.

(** Not in the repository: the database behind the adapter, with
    [appendBeadEvent] of store.ts, which rejects with an error message or
    gives the database with the event appended and projected, and
    [getBead] of projections.ts. *)
Variable Db : Type.
Variable appendBeadEvent : BeadEvent -> Db -> string + Db.
Variable getBead : Db -> string -> string -> option Bead.

(** The tail shared by the mutations that return the cell: append, then
    read the cell back. *)
Definition append_and_reload (event : BeadEvent) (projectKeyParam beadId : string)
           (disappeared : string) (db : Db) : (string + Bead) * Db :=
  match appendBeadEvent event db with
  | inl err => (inl err, db)
  | inr db' =>
      match getBead db' projectKeyParam beadId with
      | None => (inl (disappeared ++ beadId)%string, db')
      | Some updated => (inr updated, db')
      end
  end.

(** [updateBead]; [now] is what [Date.now()] gives. *)
Definition updateBead (projectKeyParam beadId : string)
           (options : UpdateBeadOptions) (now : Z) (db : Db)
  : (string + Bead) * Db :=
  match getBead db projectKeyParam beadId with
  | None => (inl (not_found beadId), db)
  | Some existingBead =>
      match changes_of options existingBead with
      | [] => (inr existingBead, db)
      | changes =>
          append_and_reload
            (bead_updated projectKeyParam beadId now changes
                          (text_or_null (u_updated_by options)))
            projectKeyParam beadId
            "[BeadsAdapter] Bead disappeared after update: " db
      end
  end.

Definition changeBeadStatus (projectKeyParam beadId : string)
           (toStatus : BeadStatus) (reason changed_by : option string)
           (now : Z) (db : Db) : (string + Bead) * Db :=
  match getBead db projectKeyParam beadId with
  | None => (inl (not_found beadId), db)
  | Some existingBead =>
      append_and_reload
        (bead_status_changed projectKeyParam beadId now (status existingBead)
                             toStatus (text_or_null reason)
                             (text_or_null changed_by))
        projectKeyParam beadId
        "[BeadsAdapter] Bead disappeared after status change: " db
  end.

Definition closeBead (projectKeyParam beadId reason : string)
           (closed_by : option string) (files_touched : option (list string))
           (duration_ms : option Z) (now : Z) (db : Db)
  : (string + Bead) * Db :=
  match getBead db projectKeyParam beadId with
  | None => (inl (not_found beadId), db)
  | Some _ =>
      append_and_reload
        (bead_closed projectKeyParam beadId now reason (text_or_null closed_by)
                     files_touched (number_or_null duration_ms))
        projectKeyParam beadId
        "[BeadsAdapter] Bead disappeared after close: " db
  end.

Definition reopenBead (projectKeyParam beadId : string)
           (reason reopened_by : option string) (now : Z) (db : Db)
  : (string + Bead) * Db :=
  match getBead db projectKeyParam beadId with
  | None => (inl (not_found beadId), db)
  | Some _ =>
      append_and_reload
        (bead_reopened projectKeyParam beadId now (text_or_null reason)
                       (text_or_null reopened_by))
        projectKeyParam beadId
        "[BeadsAdapter] Bead disappeared after reopen: " db
  end.

Definition deleteBead (projectKeyParam beadId : string)
           (reason deleted_by : option string) (now : Z) (db : Db)
  : (string + unit) * Db :=
  match getBead db projectKeyParam beadId with
  | None => (inl (not_found beadId), db)
  | Some _ =>
      match appendBeadEvent
              (bead_deleted projectKeyParam beadId now (text_or_null reason)
                            (text_or_null deleted_by)) db with
      | inl err => (inl err, db)
      | inr db' => (inr tt, db')
      end
  end.

End Adapter.

(** *** getBeadsStats *)

Record BeadsStats : Type := mkBeadsStats {
  total_beads : nat;
  stats_open : nat;
  stats_in_progress : nat;
  stats_blocked : nat;
  stats_closed : nat;
  by_type : list (BeadType * nat)
}.

Definition BeadType_eq_dec (a b : BeadType) : {a = b} + {a <> b}.
Proof. decide equality. Defined.

(** [SELECT COUNT( * ) FROM beads WHERE project_key = $1 AND status = ...] *)
Definition count_status (projectKey : string) (st : BeadStatus)
           (beads : list Bead) : nat :=
  List.length
    (filter (fun b => String.eqb (project_key b) projectKey
                      && BeadStatus_eqb (status b) st) beads).

(** [SELECT type, COUNT( * ) ... WHERE project_key = $1 GROUP BY type]:
    one row for each type that occurs, in the order of first
    occurrence. *)
Definition count_by_type (projectKey : string) (beads : list Bead)
  : list (BeadType * nat) :=
  let rows := filter (fun b => String.eqb (project_key b) projectKey) beads in
  map (fun ty =>
         (ty, List.length (filter (fun b => BeadType_eqb (type b) ty) rows)))
      (nodup BeadType_eq_dec (map type rows)).

(** [getBeadsStats] over the [beads] table; [projectKey] is the one the
    adapter was created with.  The counts come back as decimal text and
    go through [parseInt]; they are kept as numbers here. *)
Definition getBeadsStats (projectKey : string) (beads : list Bead) : BeadsStats :=
  mkBeadsStats
    (List.length (filter (fun b => String.eqb (project_key b) projectKey) beads))
    (count_status projectKey open beads)
    (count_status projectKey in_progress beads)
    (count_status projectKey blocked beads)
    (count_status projectKey closed beads)
    (count_by_type projectKey beads).

(** *** generateBeadId: the hash of the project key *)

(** ToInt32, what [x | 0] and the operands of [<<] go through. *)
Definition to_int32 (x : Z) : Z := (x + 2 ^ 31) mod 2 ^ 32 - 2 ^ 31.

(** [acc << 5] on a 32-bit integer. *)
Definition shl5 (acc : Z) : Z := to_int32 (Z.shiftl (to_int32 acc) 5).

(** The callback of the [reduce]: [((acc << 5) - acc + code) | 0]. *)
Definition hash_step (acc code : Z) : Z := to_int32 (shl5 acc - acc + code).

(** The [reduce] over the UTF-16 code units of the project key. *)
Definition hash_code (units : list Z) : Z := fold_left hash_step units 0.

(** The value of a polynomial in 31 with the code units as coefficients,
    the first unit under the highest power. *)
Definition polynomial_31 (units : list Z) : Z :=
  fold_left (fun acc code => 31 * acc + code) units 0.

End BeadsAdapter.

(** ** Memory store (memory/store.ts): ftsSearch *)

Module MemoryFts.

Import MemoryStore.

(** A row of [memories_fts], the FTS5 table of libSQL. *)
Record FtsRow : Type := mkFtsRow {
  fts_id : string;
  fts_content : string
}.

(** [ORDER BY] as a stable insertion sort under a comparison. *)
Fixpoint insert_by {A : Type} (le : A -> A -> bool) (c : A) (l : list A)
  : list A :=
  match l with
  | [] => [c]
  | x :: r => if le c x then c :: x :: r else x :: insert_by le c r
  end.

Fixpoint order_by {A : Type} (le : A -> A -> bool) (l : list A) : list A :=
  match l with
  | [] => []
  | c :: r => insert_by le c (order_by le r)
  end.

Section Store.

(** Not in the repository, besides the metadata parser and the engine's
    reading of a limit that is no row count: the full-text engines.  For
    FTS5, whether a row of [memories_fts] matches a query and the [rank]
    it then has; for PostgreSQL, whether the text search vector of a
    content matches the plain query and its [ts_rank]. *)
Variable Metadata : Type.
Variable JSON_parse : string -> Metadata.
Variable empty_metadata : Metadata.
Variable limit_outside : AdapterType -> Q -> LimitReading.
Variable fts5_match : string -> FtsRow -> bool.
Variable fts5_rank : string -> FtsRow -> Q.
Variable ts_match : string -> string -> bool.
Variable ts_rank : string -> string -> Q.

(** A selected row: the memory columns and the [score] column. *)
Definition Scored : Type := (MemoryRow Metadata * Q)%type.

(** [if (collection)] and the condition it adds. *)
Definition in_collection (collection : option string) (m : MemoryRow Metadata)
  : bool :=
  match collection_condition collection with
  | None => true
  | Some c => collection_is c m
  end.

Definition fts_result (score_of_column : Q -> Q) (row : Scored)
  : SearchResult Metadata :=
  mkSearchResult (parseMemoryRow JSON_parse empty_metadata (fst row))
                 (num (score_of_column (snd row))) fts.

(** [FROM memories_fts fts JOIN memories m ON m.id = fts.id WHERE
    fts.content MATCH ?] and the collection, with [fts.rank as score]. *)
Definition fts5_rows (db : Database Metadata) (memories_fts : list FtsRow)
           (searchQuery : string) (collection : option string) : list Scored :=
  let joined :=
    flat_map
      (fun f =>
         map (fun m => (f, m))
             (filter (fun m => String.eqb (row_id m) (fts_id f))
                     (memories db)))
      memories_fts in
  let kept :=
    filter (fun fm => fts5_match searchQuery (fst fm)
                      && in_collection collection (snd fm)) joined in
  map (fun fm => (snd fm, fts5_rank searchQuery (fst fm))) kept.

(** [FROM memories m WHERE to_tsvector(...) @@ plainto_tsquery(...)] and
    the collection, with [ts_rank(...) as score]. *)
Definition ts_rows (db : Database Metadata) (searchQuery : string)
           (collection : option string) : list Scored :=
  let kept :=
    filter (fun m => ts_match searchQuery (row_content m)
                     && in_collection collection m) (memories db) in
  map (fun m => (m, ts_rank searchQuery (row_content m))) kept.

(** [ORDER BY fts.rank] and [ORDER BY score DESC]. *)
Definition by_rank (a b : Scored) : bool := Qle_bool (snd a) (snd b).

Definition by_score_desc (a b : Scored) : bool := Qle_bool (snd b) (snd a).

(** [ftsSearch(searchQuery, options)]; [memories_fts] is the FTS5 table
    beside the database of libSQL.  [None] when the engine rejects the
    query. *)
Definition ftsSearch (db : Database Metadata) (memories_fts : list FtsRow)
           (searchQuery : string) (options : SearchOptions)
  : option (list (SearchResult Metadata)) :=
  let limit := match opt_limit options with Some n => n | None => 10%Q end in
  let collection := opt_collection options in
  match adapterType db with
  | libsql =>
      option_map
        (map (fts_result Qabs))
        (limit_rows (read_limit limit_outside libsql limit)
           (order_by by_rank (fts5_rows db memories_fts searchQuery collection)))
  | pglite =>
      option_map
        (map (fts_result (fun score => score)))
        (limit_rows (read_limit limit_outside pglite limit)
           (order_by by_score_desc (ts_rows db searchQuery collection)))
  end.

End Store.

Arguments in_collection {Metadata} collection m.
Arguments fts_result {Metadata} JSON_parse empty_metadata score_of_column row.
Arguments fts5_rows {Metadata} fts5_match fts5_rank db memories_fts
  searchQuery collection.
Arguments ts_rows {Metadata} ts_match ts_rank db searchQuery collection.
Arguments by_rank {Metadata} a b.
Arguments by_score_desc {Metadata} a b.
Arguments ftsSearch {Metadata} JSON_parse empty_metadata limit_outside
  fts5_match fts5_rank ts_match ts_rank db memories_fts searchQuery options.

End MemoryFts.

(* ===================================================================== *)
(** * Part II: lemmas and theorems                                        *)
(* ===================================================================== *)

(** ** Lists *)

Module ListFacts.

Lemma last_cons {A : Type} (a d : A) (l : list A) :
  last (a :: l) d = last l a.
Proof.
  revert a d. induction l as [|b r IH]; intros a d; [reflexivity|].
  change (last (a :: b :: r) d) with (last (b :: r) d).
  now rewrite !IH.
Qed.

Lemma last_app_default {A : Type} (l1 l2 : list A) (d : A) :
  last (l1 ++ l2) d = last l2 (last l1 d).
Proof.
  revert d. induction l1 as [|a r IH]; intros d; [reflexivity|].
  simpl app. now rewrite !last_cons, IH.
Qed.

Lemma firstn_In {A : Type} (n : nat) (l : list A) (x : A) :
  In x (firstn n l) -> In x l.
Proof.
  intros H. rewrite <- (firstn_skipn n l). apply in_or_app. now left.
Qed.

Lemma last_default_or_in {A : Type} (l : list A) (d : A) :
  last l d = d \/ In (last l d) l.
Proof.
  revert d. induction l as [|a r IH]; intros d; [now left|].
  rewrite last_cons. destruct (IH a) as [H|H].
  - right. left. now rewrite H.
  - right. now right.
Qed.

Lemma filter_all_true {A : Type} (f : A -> bool) (l : list A) :
  (forall x, In x l -> f x = true) -> filter f l = l.
Proof.
  induction l as [|a r IH]; intros H; simpl; [reflexivity|].
  rewrite (H a) by now left. f_equal. apply IH. intros x Hx. apply H. now right.
Qed.

Lemma firstn_plus {A : Type} (k n : nat) (l : list A) :
  firstn (k + n) l = firstn k l ++ firstn n (skipn k l).
Proof.
  revert l. induction k as [|k IH]; intros l; [reflexivity|].
  destruct l as [|a r]; simpl; [now rewrite firstn_nil|].
  now rewrite IH.
Qed.

Lemma firstn_min {A : Type} (n : nat) (l : list A) :
  firstn (Nat.min n (List.length l)) l = firstn n l.
Proof.
  destruct (Nat.le_gt_cases n (List.length l)) as [H|H].
  - now rewrite Nat.min_l.
  - rewrite Nat.min_r by lia. rewrite firstn_all.
    symmetry. apply firstn_all2. lia.
Qed.

Lemma firstn_app_le {A : Type} (k : nat) (l1 l2 : list A) :
  (k <= List.length l1)%nat -> firstn k (l1 ++ l2) = firstn k l1.
Proof.
  intros H. rewrite firstn_app.
  replace (k - List.length l1)%nat with 0%nat by lia.
  now rewrite firstn_0, app_nil_r.
Qed.


Lemma StronglySorted_map {A B : Type} (R : A -> A -> Prop)
      (S : B -> B -> Prop) (f : A -> B) (l : list A) :
  (forall x y, R x y -> S (f x) (f y)) ->
  StronglySorted R l -> StronglySorted S (map f l).
Proof.
  intros Hf. induction 1 as [|x r Hr IH Hx]; simpl; constructor;
    [assumption|].
  rewrite Forall_forall in Hx. apply Forall_forall.
  intros y Hy. apply in_map_iff in Hy. destruct Hy as (z & <- & Hz).
  apply Hf. now apply Hx.
Qed.

End ListFacts.

Import ListFacts.

(** ** Event store *)

Module EventStoreFacts.

Lemma insert_by_sequence_perm (e : Event) (l : list Event) :
  Permutation (insert_by_sequence e l) (e :: l).
Proof.
  induction l as [|x r IH]; simpl.
  - apply Permutation_refl.
  - destruct (sequence e <=? sequence x).
    + apply Permutation_refl.
    + eapply perm_trans; [apply perm_skip, IH | apply perm_swap].
Qed.

Lemma order_by_sequence_perm (l : list Event) :
  Permutation (order_by_sequence l) l.
Proof.
  induction l as [|x r IH]; simpl.
  - constructor.
  - eapply perm_trans; [apply insert_by_sequence_perm | now apply perm_skip].
Qed.

Lemma insert_by_sequence_ascending (e : Event) (l : list Event) :
  ascending l -> ascending (insert_by_sequence e l).
Proof.
  unfold ascending.
  induction l as [|x r IH]; intros Hs; simpl.
  - repeat constructor.
  - inversion Hs as [|? ? Hr Hx]; subst.
    destruct (sequence e <=? sequence x) eqn:E.
    + apply Z.leb_le in E.
      constructor; [assumption|].
      constructor; [assumption|].
      rewrite Forall_forall in Hx |- *.
      intros y Hy. specialize (Hx y Hy). lia.
    + apply Z.leb_gt in E.
      constructor; [now apply IH|].
      rewrite Forall_forall in Hx |- *.
      intros y Hy.
      apply (Permutation_in _ (insert_by_sequence_perm e r)) in Hy.
      destruct Hy as [<-|Hy]; [lia | now apply Hx].
Qed.

Lemma order_by_sequence_ascending (l : list Event) :
  ascending (order_by_sequence l).
Proof.
  induction l as [|x r IH]; simpl.
  - constructor.
  - now apply insert_by_sequence_ascending.
Qed.

(** Ordering a table that is already in ascending order changes nothing:
    the table order is the answer order. *)
Lemma order_by_sequence_id (l : list Event) :
  ascending l -> order_by_sequence l = l.
Proof.
  unfold ascending.
  induction l as [|x r IH]; intros Hs; simpl; [reflexivity|].
  inversion Hs as [|? ? Hr Hx]; subst.
  rewrite (IH Hr).
  destruct r as [|y r']; simpl; [reflexivity|].
  inversion Hx as [|? ? Hxy _]; subst.
  apply Z.leb_le in Hxy. now rewrite Hxy.
Qed.

Lemma strictly_ascending_ascending (l : list Event) :
  strictly_ascending l -> ascending l.
Proof.
  unfold strictly_ascending, ascending.
  induction 1 as [|x r Hr IH Hx]; constructor; [assumption|].
  eapply Forall_impl; [|exact Hx]. simpl. intros; lia.
Qed.

Lemma filter_strictly_ascending (f : Event -> bool) (l : list Event) :
  strictly_ascending l -> strictly_ascending (filter f l).
Proof.
  unfold strictly_ascending.
  induction 1 as [|x r Hr IH Hx]; simpl; [constructor|].
  destruct (f x); [|assumption].
  constructor; [assumption|].
  rewrite Forall_forall in Hx |- *.
  intros y Hy. apply filter_In in Hy. now apply Hx.
Qed.

(** *** MAX(sequence) *)

Lemma fold_max_ge_init (l : list Z) (a : Z) : a <= fold_left Z.max l a.
Proof.
  revert a. induction l as [|x r IH]; intros a; simpl; [lia|].
  specialize (IH (Z.max a x)). lia.
Qed.

Lemma fold_max_ge_elem (l : list Z) (a x : Z) :
  In x l -> x <= fold_left Z.max l a.
Proof.
  revert a. induction l as [|y r IH]; intros a Hin; simpl in *; [contradiction|].
  destruct Hin as [->|Hin].
  - pose proof (fold_max_ge_init r (Z.max a x)). lia.
  - now apply IH.
Qed.

Lemma fold_max_attained (l : list Z) (a : Z) :
  fold_left Z.max l a = a \/ In (fold_left Z.max l a) l.
Proof.
  revert a. induction l as [|y r IH]; intros a; simpl; [now left|].
  destruct (IH (Z.max a y)) as [H|H]; [|now right; right].
  rewrite H. destruct (Z.max_spec a y) as [[_ ->]|[_ ->]]; auto.
Qed.

Lemma max_sequence_upper (l : list Event) (m : Z) :
  max_sequence l = Some m -> forall e, In e l -> sequence e <= m.
Proof.
  destruct l as [|x r]; simpl; [discriminate|].
  intros [= <-] e [<-|Hin].
  - apply fold_max_ge_init.
  - apply fold_max_ge_elem. now apply in_map.
Qed.

Lemma max_sequence_attained (l : list Event) (m : Z) :
  max_sequence l = Some m -> exists e, In e l /\ sequence e = m.
Proof.
  destruct l as [|x r]; simpl; [discriminate|].
  intros [= <-].
  destruct (fold_max_attained (map sequence r) (sequence x)) as [H|H].
  - exists x. auto.
  - apply in_map_iff in H. destruct H as (e & He & Hin).
    exists e. auto.
Qed.

Lemma max_sequence_none (l : list Event) :
  max_sequence l = None <-> l = [].
Proof. destruct l; simpl; split; congruence. Qed.

Lemma getLatestSequence_upper (pk : option string) (t : EventsTable) (e : Event) :
  In e t -> project_matches pk e = true ->
  sequence e <= getLatestSequence pk t.
Proof.
  intros Hin Hm. unfold getLatestSequence.
  destruct (max_sequence (filter (project_matches pk) t)) as [m|] eqn:E.
  - apply (max_sequence_upper _ _ E). apply filter_In. auto.
  - apply max_sequence_none in E.
    assert (H : In e (filter (project_matches pk) t)) by (apply filter_In; auto).
    rewrite E in H. contradiction.
Qed.

Lemma getLatestSequence_cases (pk : option string) (t : EventsTable) :
  (getLatestSequence pk t = 0
   /\ forall e, In e t -> project_matches pk e = false)
  \/ (exists e, In e t /\ project_matches pk e = true
               /\ sequence e = getLatestSequence pk t).
Proof.
  unfold getLatestSequence.
  destruct (max_sequence (filter (project_matches pk) t)) as [m|] eqn:E.
  - right. destruct (max_sequence_attained _ _ E) as (e & Hin & Hs).
    apply filter_In in Hin. exists e. tauto.
  - left. split; [reflexivity|].
    apply max_sequence_none in E. intros e Hin.
    destruct (project_matches pk e) eqn:Hm; [|reflexivity].
    assert (H : In e (filter (project_matches pk) t)) by (apply filter_In; auto).
    rewrite E in H. contradiction.
Qed.

Lemma getLatestSequence_is (pk : option string) (t : EventsTable) (e : Event) :
  In e t -> project_matches pk e = true ->
  (forall x, In x t -> project_matches pk x = true -> sequence x <= sequence e) ->
  getLatestSequence pk t = sequence e.
Proof.
  intros Hin Hm Hmax.
  pose proof (getLatestSequence_upper pk t e Hin Hm) as Hle.
  destruct (getLatestSequence_cases pk t) as [[_ Hno]|(x & Hx & Hxm & Hxs)].
  - rewrite (Hno e Hin) in Hm. discriminate.
  - specialize (Hmax x Hx Hxm). lia.
Qed.

(** *** Tables built by appends *)

Lemma insertEvents_app (a b : list NewEvent) (t : EventsTable) :
  insertEvents (a ++ b) t = insertEvents b (insertEvents a t).
Proof. unfold insertEvents. apply fold_left_app. Qed.

Lemma insertEvents_snoc (a : list NewEvent) (ne : NewEvent) (t : EventsTable) :
  insertEvents (a ++ [ne]) t = snd (insertEvent ne (insertEvents a t)).
Proof. now rewrite insertEvents_app. Qed.

Lemma strictly_ascending_snoc (l : list Event) (e : Event) :
  strictly_ascending l ->
  (forall x, In x l -> sequence x < sequence e) ->
  strictly_ascending (l ++ [e]).
Proof.
  unfold strictly_ascending.
  induction 1 as [|x r Hr IH Hx]; intros Hlt; simpl.
  - repeat constructor.
  - constructor.
    + apply IH. intros y Hy. apply Hlt. now right.
    + apply Forall_app. split; [assumption|].
      constructor; [|constructor]. apply Hlt. now left.
Qed.

Lemma next_sequence_above (t : EventsTable) (x : Event) :
  In x t -> sequence x < next_sequence t.
Proof.
  intros Hin. unfold next_sequence.
  pose proof (getLatestSequence_upper None t x Hin eq_refl). lia.
Qed.

Lemma insertEvent_strictly_ascending (ne : NewEvent) (t : EventsTable) :
  strictly_ascending t -> strictly_ascending (snd (insertEvent ne t)).
Proof.
  intros Ht. simpl. apply strictly_ascending_snoc; [assumption|].
  intros x Hx. simpl. now apply next_sequence_above.
Qed.

Lemma insertEvents_strictly_ascending (nes : list NewEvent) (t : EventsTable) :
  strictly_ascending t -> strictly_ascending (insertEvents nes t).
Proof.
  revert t. induction nes as [|ne r IH]; intros t Ht; simpl; [assumption|].
  apply IH. now apply insertEvent_strictly_ascending.
Qed.

Lemma empty_strictly_ascending : strictly_ascending [].
Proof. constructor. Qed.

Lemma insertEvents_keeps (nes : list NewEvent) (t : EventsTable) :
  exists added, insertEvents nes t = t ++ added
                /\ List.length added = List.length nes.
Proof.
  revert t. induction nes as [|ne r IH]; intros t; simpl.
  - exists []. now rewrite app_nil_r.
  - destruct (IH (t ++ [store_event ne t])) as (added & Heq & Hlen).
    exists (store_event ne t :: added). simpl. rewrite Heq, <- app_assoc.
    auto.
Qed.

(** Scenario S1: 0 on the empty table; after one append the project's
    read returns the event with sequence 1 and the latest sequence is 1. *)
Example append_read_latest :
  let t := insertEvents
             [mkNewEvent "p" 1000 (agent_registered "A1" "opencode" "test" "S1")] [] in
  getLatestSequence None [] = 0
  /\ map sequence
         (readEvents (mkReadEventsOptions (Some "p"%string) None None None None
                                          None None) t) = [1]
  /\ getLatestSequence None t = 1.
Proof. vm_compute. repeat split. Qed.

End EventStoreFacts.

(** ** Durable stream adapter: read and head *)

Module DurableStreamFacts.

Import DurableStreamAdapter EventStoreFacts.

Section ReadAndHead.

Variable JSON_stringify : Event -> string.
Variable projectKey : string.

Lemma stream_filter (offset : Z) (lim : option nat) (t : EventsTable) :
  filter
    (event_matches
       (mkReadEventsOptions (Some projectKey) None (Some offset) None None
                            lim None)) t
  = filter
      (fun e => String.eqb (project_key e) projectKey && (offset <? sequence e))
      t.
Proof.
  apply filter_ext. intros e. unfold event_matches. simpl.
  now rewrite !andb_true_r.
Qed.

Lemma stream_filter_pending (l : Z) (lim : option nat) (t : EventsTable) :
  filter
    (event_matches
       (mkReadEventsOptions (Some projectKey) None (Some l) None None
                            lim None)) t
  = pending projectKey l t.
Proof. apply stream_filter. Qed.

(** C3.  [read(offset, limit)] answers with the stored events of the
    adapter's project whose sequence is strictly greater than [offset]
    (a permutation of that selection), put in ascending sequence order and
    cut to the first [limit]; every StreamEvent carries the sequence of its
    event as [offset], the JSON encoding of the event as [data] and the
    event's timestamp. *)
Theorem read_exact (t : EventsTable) (offset : Z) (limit : nat) :
  exists full : list Event,
    Permutation full
      (filter
         (fun e => String.eqb (project_key e) projectKey
                   && (offset <? sequence e)) t)
    /\ ascending full
    /\ read JSON_stringify projectKey t offset limit
       = map (fun e => mkStreamEvent (sequence e) (JSON_stringify e)
                                     (timestamp e))
             (firstn limit full)
    /\ (List.length (read JSON_stringify projectKey t offset limit)
        <= limit)%nat.
Proof.
  exists (order_by_sequence
            (filter
               (fun e => String.eqb (project_key e) projectKey
                         && (offset <? sequence e)) t)).
  split; [apply order_by_sequence_perm|].
  split; [apply order_by_sequence_ascending|].
  unfold read, readEvents. simpl. rewrite stream_filter.
  split; [reflexivity|].
  rewrite length_map. apply firstn_le_length.
Qed.

(** On the empty database both answer 0. *)
Lemma latest_empty :
  getLatestSequence None [] = 0 /\ head projectKey [] = 0.
Proof. split; reflexivity. Qed.

(** C8, as the code has it.  On an empty database [getLatestSequence] and
    [head()] return 0.  After any run of successful appends,
    [getLatestSequence()] without a project key returns the sequence given
    to the most recently appended event, the maximum over all stored
    events; [head()] returns the maximum sequence over the stored events
    of the adapter's project (0 when it has none), which is the sequence
    of the most recent append when that append was for the adapter's
    project. *)
Theorem latest_after_appends (nes : list NewEvent) (ne : NewEvent) :
  let t0 := insertEvents nes [] in
  let e := fst (insertEvent ne t0) in
  let t := snd (insertEvent ne t0) in
  getLatestSequence None [] = 0
  /\ head projectKey [] = 0
  /\ getLatestSequence None t = sequence e
  /\ (forall x, In x t -> sequence x <= sequence e)
  /\ (forall x, In x t -> project_key x = projectKey ->
                sequence x <= head projectKey t)
  /\ ((head projectKey t = 0
       /\ forall x, In x t -> project_key x <> projectKey)
      \/ (exists x, In x t /\ project_key x = projectKey
                    /\ sequence x = head projectKey t))
  /\ (ne_project_key ne = projectKey -> head projectKey t = sequence e).
Proof.
  intros t0 e t. unfold insertEvent in e, t. cbn [fst snd] in e, t.
  assert (Hin : In e t) by (apply in_or_app; right; now left).
  assert (Hmax : forall x, In x t -> sequence x <= sequence e).
  { intros x Hx. apply in_app_or in Hx.
    destruct Hx as [Hx|[Hx|[]]]; [|rewrite <- Hx; unfold e; lia].
    pose proof (next_sequence_above t0 x Hx). subst e. simpl. lia. }
  split; [reflexivity|]. split; [reflexivity|].
  split.
  { apply getLatestSequence_is; auto. }
  split; [exact Hmax|].
  split.
  { intros x Hx Hp. apply getLatestSequence_upper; [assumption|].
    simpl. now apply String.eqb_eq. }
  split.
  { unfold head.
    destruct (getLatestSequence_cases (Some projectKey) t)
      as [[H0 Hno]|(x & Hx & Hm & Hs)].
    - left. split; [assumption|]. intros x Hx Hp.
      specialize (Hno x Hx). simpl in Hno.
      apply String.eqb_neq in Hno. contradiction.
    - right. exists x. simpl in Hm. apply String.eqb_eq in Hm. auto. }
  intros Hp. unfold head. apply getLatestSequence_is; auto.
  simpl. now apply String.eqb_eq.
Qed.

End ReadAndHead.

(** C8 as stated fails for [head()]: after an append for the adapter's
    project and a later one for another project, [head()] is 1 although the
    most recently appended event got sequence 2. *)
Lemma head_is_not_last_append :
  let t0 := insertEvents
              [mkNewEvent "/test/project" 1000
                          (agent_registered "TestAgent" "opencode" "test" "Testing")] [] in
  let ne := mkNewEvent "/other/project" 1001
                       (agent_registered "OtherAgent" "opencode" "test" "Testing") in
  let e := fst (insertEvent ne t0) in
  let t := snd (insertEvent ne t0) in
  sequence e = 2 /\ head "/test/project" t = 1
  /\ head "/test/project" t <> sequence e.
Proof. vm_compute. repeat split; discriminate. Qed.

(** [read] on a small log: two events of the project around one of
    another project; offset 0 and limit 1, then offset 1. *)
Example read_small_log :
  let t := insertEvents
             [mkNewEvent "/p" 1000 (agent_registered "A" "opencode" "m" "Testing");
              mkNewEvent "/q" 1001 (agent_active "B");
              mkNewEvent "/p" 1002 (agent_active "A")] [] in
  read type "/p" t 0 1 = [mkStreamEvent 1 "agent_registered" 1000]
  /\ read type "/p" t 1 100 = [mkStreamEvent 3 "agent_active" 1002]
  /\ read type "/p" t 3 100 = []
  /\ head "/p" t = 3 /\ head "/q" t = 2 /\ getLatestSequence None t = 3.
Proof. vm_compute. repeat split. Qed.

End DurableStreamFacts.

(** ** Durable stream adapter: subscribe *)

Module SubscribeFacts.

Import DurableStreamAdapter EventStoreFacts DurableStreamFacts.

Section Subscriber.

Variable JSON_stringify : Event -> string.
Variable projectKey : string.
Variable callback : StreamEvent -> CallbackOutcome.

Local Abbreviation deliver := (deliver JSON_stringify callback).
Local Abbreviation step := (step JSON_stringify projectKey callback).
Local Abbreviation run := (run JSON_stringify projectKey callback).

(** Once [isActive] is false the loop of a poll leaves at its first test. *)
Lemma deliver_inactive (events : list Event) (s : Subscription) :
  isActive s = false -> deliver events s = s.
Proof. intros H. destruct events; simpl; [reflexivity|]. now rewrite H. Qed.

Lemma step_inactive (w : World) (a : Action) :
  isActive (sub w) = false ->
  isActive (sub (step w a)) = false
  /\ received (sub (step w a)) = received (sub w)
  /\ (pollInterval (sub w) = false -> pollInterval (sub (step w a)) = false).
Proof.
  intros H. destruct a; simpl.
  - tauto.
  - unfold initResolves. destruct (pendingHead (sub w)); simpl; tauto.
  - unfold intervalFires.
    destruct (pollInterval (sub w)) eqn:E; simpl; rewrite ?H; simpl;
      repeat split; auto; discriminate.
  - unfold readResolves.
    destruct (nth_error (inFlight (sub w)) i); [|tauto].
    rewrite deliver_inactive by assumption. simpl. tauto.
  - tauto.
  - tauto.
Qed.

Lemma run_inactive (schedule : list Action) (w : World) :
  isActive (sub w) = false ->
  isActive (sub (run w schedule)) = false
  /\ received (sub (run w schedule)) = received (sub w)
  /\ (pollInterval (sub w) = false ->
      pollInterval (sub (run w schedule)) = false).
Proof.
  revert w. induction schedule as [|a r IH]; intros w H; simpl; [auto|].
  destruct (step_inactive w a H) as (H1 & H2 & H3).
  destruct (IH _ H1) as (H4 & H5 & H6).
  repeat split; [assumption|congruence|auto].
Qed.

(** C9.  Calling the unsubscribe function clears the polling interval, and
    from then on, whatever happens next (appends, interval ticks, reads of
    polls that were in flight resolving in any order), the callback is not
    called again: the record of its calls stays what it was. *)
Theorem unsubscribe_stops_callback (w : World) (schedule : list Action) :
  let w1 := step w Unsubscribe in
  pollInterval (sub w1) = false
  /\ received (sub w1) = received (sub w)
  /\ pollInterval (sub (run w1 schedule)) = false
  /\ received (sub (run w1 schedule)) = received (sub w).
Proof.
  intros w1.
  assert (H : isActive (sub w1) = false) by reflexivity.
  destruct (run_inactive schedule w1 H) as (_ & H2 & H3).
  repeat split; auto.
Qed.

(** The same when it is the callback that unsubscribes, in the middle of a
    batch: the rest of the batch is not delivered. *)
Lemma callback_unsubscribes_mid_batch
      (event : Event) (rest : list Event) (s : Subscription) :
  isActive s = true ->
  callback (toStreamEvent JSON_stringify event) = cb_unsubscribes ->
  let s1 := deliver (event :: rest) s in
  received s1 = received s ++ [toStreamEvent JSON_stringify event]
  /\ isActive s1 = false /\ pollInterval s1 = false.
Proof.
  intros Ha Hc. simpl. rewrite Ha, Hc. simpl.
  rewrite deliver_inactive by reflexivity. simpl. auto.
Qed.

End Subscriber.

(** *** Polls that do not overlap, with a callback that returns *)

Section SequentialPolls.

Variable JSON_stringify : Event -> string.
Variable projectKey : string.

Local Abbreviation callback := always_returns.

Local Abbreviation toStream := (toStreamEvent JSON_stringify).
Local Abbreviation deliver := (deliver JSON_stringify callback).
Local Abbreviation poll := (poll JSON_stringify projectKey callback).
Local Abbreviation seq_step := (seq_step JSON_stringify projectKey callback).
Local Abbreviation seq_run := (seq_run JSON_stringify projectKey callback).
Local Abbreviation pending := (pending projectKey).
Local Abbreviation subscribe := (subscribe projectKey).

Lemma deliver_returns (batch : list Event) (s : Subscription) :
  isActive s = true ->
  deliver batch s
  = mkSubscription (last (map sequence batch) (lastSequence s))
                   true (initialized s) (pollInterval s) (pendingHead s)
                   (inFlight s) (received s ++ map toStream batch).
Proof.
  revert s. induction batch as [|e r IH]; intros s Ha.
  - simpl. rewrite app_nil_r. destruct s; simpl in *. now subst.
  - simpl deliver. rewrite Ha. simpl negb. cbv iota.
    unfold callback at 1. rewrite IH by reflexivity.
    cbn [lastSequence initialized pollInterval pendingHead inFlight
         received map].
    rewrite last_cons, <- app_assoc. reflexivity.
Qed.

Lemma poll_idle (t : EventsTable) (s : Subscription) :
  idle s ->
  let batch := firstn 100 (order_by_sequence (pending (lastSequence s) t)) in
  poll (mkWorld t s)
  = mkWorld t
      (mkSubscription (last (map sequence batch) (lastSequence s))
                      true true true None []
                      (received s ++ map toStream batch)).
Proof.
  intros (Ha & Hi & Hp & Hh & Hf) batch.
  unfold DurableStreamAdapter.poll, step. simpl.
  unfold intervalFires. rewrite Hp, Ha, Hi, Hf. simpl.
  unfold readResolves. simpl.
  rewrite deliver_returns by reflexivity. simpl.
  unfold readEvents. simpl. rewrite stream_filter_pending.
  now rewrite Hh.
Qed.

(** In a strictly ascending list, the rows above the last row of the first
    [n] are the rows after the first [n]. *)
Lemma above_prefix (l : list Event) :
  strictly_ascending l ->
  forall (o : Z) (n : nat),
    (forall e, In e l -> o < sequence e) ->
    filter (fun e => last (map sequence (firstn n l)) o <? sequence e) l
    = skipn n l.
Proof.
  unfold strictly_ascending.
  induction 1 as [|x r Hr IH Hx]; intros o n Ho.
  - now destruct n.
  - destruct n as [|m].
    + simpl firstn. simpl map. simpl last. simpl skipn.
      apply filter_all_true. intros e He. apply Z.ltb_lt. now apply Ho.
    + simpl firstn. simpl map. rewrite last_cons. simpl skipn.
      rewrite Forall_forall in Hx.
      simpl filter.
      assert (Hge : sequence x <= last (map sequence (firstn m r)) (sequence x)).
      { destruct (last_default_or_in (map sequence (firstn m r)) (sequence x))
          as [->|Hin]; [lia|].
        apply in_map_iff in Hin. destruct Hin as (y & Hy & Hin).
        apply firstn_In in Hin. specialize (Hx y Hin). lia. }
      apply Z.ltb_ge in Hge. rewrite Hge.
      apply IH. intros e He. now apply Hx.
Qed.

Lemma pending_above (o : Z) (t : EventsTable) (e : Event) :
  In e (pending o t) -> o < sequence e.
Proof.
  intros H. apply filter_In in H. destruct H as [_ H].
  apply andb_true_iff in H. destruct H as [_ H]. now apply Z.ltb_lt.
Qed.

Lemma pending_strictly_ascending (o : Z) (t : EventsTable) :
  strictly_ascending t -> strictly_ascending (pending o t).
Proof. apply filter_strictly_ascending. Qed.

Lemma pending_narrow (o l : Z) (t : EventsTable) :
  o <= l ->
  pending l t = filter (fun e => l <? sequence e) (pending o t).
Proof.
  intros Hle. unfold DurableStreamAdapter.pending.
  induction t as [|x r IH]; simpl; [reflexivity|].
  destruct (String.eqb (project_key x) projectKey); simpl.
  - destruct (l <? sequence x) eqn:E1.
    + apply Z.ltb_lt in E1.
      assert (E2 : (o <? sequence x) = true) by (apply Z.ltb_lt; lia).
      rewrite E2. simpl. rewrite (proj2 (Z.ltb_lt _ _) E1). now f_equal.
    + destruct (o <? sequence x); simpl; rewrite ?E1; assumption.
  - assumption.
Qed.

Lemma prefix_last_above (o : Z) (k : nat) (t : EventsTable) :
  o <= last (map sequence (firstn k (pending o t))) o.
Proof.
  destruct (last_default_or_in (map sequence (firstn k (pending o t))) o)
    as [->|Hin]; [lia|].
  apply in_map_iff in Hin. destruct Hin as (y & Hy & Hin).
  apply firstn_In in Hin. apply pending_above in Hin. lia.
Qed.

(** What a subscriber that received the first [k] events has still to
    receive is everything after the first [k]. *)
Lemma pending_after_prefix (o : Z) (k : nat) (t : EventsTable) :
  strictly_ascending t ->
  pending (last (map sequence (firstn k (pending o t))) o) t
  = skipn k (pending o t).
Proof.
  intros Ht.
  rewrite (pending_narrow o) by apply prefix_last_above.
  apply above_prefix.
  - now apply pending_strictly_ascending.
  - intros e. apply pending_above.
Qed.

Lemma pending_app (o : Z) (t1 t2 : EventsTable) :
  pending o (t1 ++ t2) = pending o t1 ++ pending o t2.
Proof. apply filter_app. Qed.

Lemma subscribe_idle (o : Z) (t : EventsTable) : idle (subscribe (Some o) t).
Proof. repeat split. Qed.

Lemma subscribe_prefix (o : Z) (t : EventsTable) :
  received_prefix JSON_stringify projectKey o 0 t (subscribe (Some o) t).
Proof. repeat split. simpl. lia. Qed.

(** One step keeps the subscriber in step with the table: what it has
    received is a prefix, longer or equal, of the events above its start
    offset, in table order. *)
Lemma seq_step_prefix (o : Z) (k : nat) (w : World) (a : SeqAction) :
  idle (sub w) -> strictly_ascending (table w) ->
  received_prefix JSON_stringify projectKey o k (table w) (sub w) ->
  exists k',
    idle (sub (seq_step w a))
    /\ strictly_ascending (table (seq_step w a))
    /\ received_prefix JSON_stringify projectKey o k'
                       (table (seq_step w a)) (sub (seq_step w a)).
Proof.
  intros Hidle Ht (Hk & Hr & Hl). destruct w as [t s]. simpl in *.
  destruct a as [ne|].
  - exists k. simpl. split; [assumption|].
    split; [now apply insertEvent_strictly_ascending|].
    unfold received_prefix.
    rewrite pending_app, firstn_app_le, length_app by assumption.
    repeat split; [lia|assumption|assumption].
  - exists (Nat.min (k + 100) (List.length (pending o t))).
    unfold seq_step. rewrite poll_idle by assumption. cbn [sub table].
    split; [repeat split|]. split; [assumption|].
    rewrite order_by_sequence_id
      by (apply strictly_ascending_ascending; now apply pending_strictly_ascending).
    rewrite Hl, pending_after_prefix by assumption.
    unfold received_prefix. cbn [received lastSequence].
    rewrite firstn_min, firstn_plus, map_app, map_app, last_app_default, Hr.
    repeat split. apply Nat.le_min_r.
Qed.

Lemma seq_run_prefix (schedule : list SeqAction) (o : Z) (k : nat) (w : World) :
  idle (sub w) -> strictly_ascending (table w) ->
  received_prefix JSON_stringify projectKey o k (table w) (sub w) ->
  exists k',
    idle (sub (seq_run w schedule))
    /\ strictly_ascending (table (seq_run w schedule))
    /\ received_prefix JSON_stringify projectKey o k'
                       (table (seq_run w schedule)) (sub (seq_run w schedule)).
Proof.
  revert k w. induction schedule as [|a r IH]; intros k w Hi Ht Hp; simpl.
  - exists k. auto.
  - destruct (seq_step_prefix o k w a Hi Ht Hp) as (k1 & Hi1 & Ht1 & Hp1).
    apply (IH k1); assumption.
Qed.

(** Two idle subscriptions at the same [lastSequence] over the same table
    go through the same steps; what the first had received before stays in
    front. *)
Lemma seq_step_shift (pre : list StreamEvent) (t : EventsTable)
      (s s' : Subscription) (a : SeqAction) :
  idle s -> idle s' -> lastSequence s = lastSequence s' ->
  received s = pre ++ received s' ->
  let w1 := seq_step (mkWorld t s) a in
  let w1' := seq_step (mkWorld t s') a in
  table w1 = table w1' /\ idle (sub w1) /\ idle (sub w1')
  /\ lastSequence (sub w1) = lastSequence (sub w1')
  /\ received (sub w1) = pre ++ received (sub w1').
Proof.
  intros Hi Hi' Hl Hr. destruct a as [ne|].
  - simpl. auto.
  - cbv zeta. unfold seq_step. rewrite !poll_idle by assumption. simpl.
    rewrite Hl, Hr, app_assoc. repeat split.
Qed.

Lemma seq_run_shift (schedule : list SeqAction) (pre : list StreamEvent)
      (t : EventsTable) (s s' : Subscription) :
  idle s -> idle s' -> lastSequence s = lastSequence s' ->
  received s = pre ++ received s' ->
  let w1 := seq_run (mkWorld t s) schedule in
  let w1' := seq_run (mkWorld t s') schedule in
  table w1 = table w1'
  /\ received (sub w1) = pre ++ received (sub w1').
Proof.
  revert t s s'. induction schedule as [|a r IH]; intros t s s' Hi Hi' Hl Hr.
  - simpl. auto.
  - simpl.
    destruct (seq_step_shift pre t s s' a Hi Hi' Hl Hr)
      as (Ht & Hi1 & Hi1' & Hl1 & Hr1).
    destruct (seq_step (mkWorld t s) a) as [t1 s1] eqn:E1.
    destruct (seq_step (mkWorld t s') a) as [t1' s1'] eqn:E1'.
    simpl in *. subst t1'. now apply IH.
Qed.

(** X24.  With a callback that returns, a poll with fewer than a batch of
    events left catches up: the subscriber has then received every event
    above its start offset. *)
Lemma poll_catches_up (o : Z) (k : nat) (t : EventsTable) (s : Subscription) :
  idle s -> strictly_ascending t ->
  received_prefix JSON_stringify projectKey o k t s ->
  (List.length (pending o t) <= k + 100)%nat ->
  received (sub (poll (mkWorld t s))) = map toStream (pending o t).
Proof.
  intros Hi Ht (Hk & Hr & Hl) Hlen.
  rewrite poll_idle by assumption. cbn [sub received].
  rewrite order_by_sequence_id
    by (apply strictly_ascending_ascending; now apply pending_strictly_ascending).
  rewrite Hl, pending_after_prefix, Hr, <- map_app by assumption.
  rewrite <- (firstn_plus k 100), firstn_all2 by assumption.
  reflexivity.
Qed.

(** X16.  Offset resumption when the polls of a subscription never overlap.
    A reader subscribed from offset 0 receives, over any run of appends and
    polls, a prefix of the project's events in ascending sequence order; if
    it then re-subscribes at the offset of the last event it received, what
    it receives from there on is a prefix of the events above that offset,
    and the two parts together are what one subscription from offset 0
    receives over the whole run. *)
Lemma sequential_resumption (t0 : EventsTable) (s1 s2 : list SeqAction) :
  strictly_ascending t0 ->
  let w0 := mkWorld t0 (subscribe (Some 0) t0) in
  let w1 := seq_run w0 s1 in
  let lastOffset := last (map se_offset (received (sub w1))) 0 in
  let w2 :=
    seq_run (mkWorld (table w1) (subscribe (Some lastOffset) (table w1))) s2 in
  let w := seq_run w0 (s1 ++ s2) in
  table w = table w2
  /\ received (sub w) = received (sub w1) ++ received (sub w2)
  /\ (exists k, received (sub w2)
                = map toStream (firstn k (pending lastOffset (table w2))))
  /\ (exists k, received (sub w)
                = map toStream (firstn k (pending 0 (table w)))).
Proof.
  intros Ht0 w0 w1 lastOffset w2 w.
  destruct (seq_run_prefix s1 0 0 w0 (subscribe_idle 0 t0) Ht0
                           (subscribe_prefix 0 t0))
    as (k1 & Hi1 & Ht1 & Hp1).
  fold w1 in Hi1, Ht1, Hp1.
  assert (Hlast : lastSequence (sub w1) = lastOffset).
  { destruct Hp1 as (_ & Hr & Hl). subst lastOffset.
    rewrite Hr, map_map. simpl. exact Hl. }
  assert (Hw : w = seq_run w1 s2).
  { subst w w1. unfold seq_run, DurableStreamAdapter.seq_run.
    apply fold_left_app. }
  destruct (seq_run_shift s2 (received (sub w1)) (table w1) (sub w1)
              (subscribe (Some lastOffset) (table w1)))
    as (Htab & Hrec); try assumption.
  { apply subscribe_idle. }
  { simpl. now rewrite app_nil_r. }
  replace (mkWorld (table w1) (sub w1)) with w1 in Htab, Hrec
    by now destruct w1.
  fold w2 in Htab, Hrec. rewrite <- Hw in Htab, Hrec.
  split; [assumption|]. split; [assumption|]. split.
  - destruct (seq_run_prefix s2 lastOffset 0
                (mkWorld (table w1) (subscribe (Some lastOffset) (table w1)))
                (subscribe_idle _ _) Ht1 (subscribe_prefix _ _))
      as (k2 & _ & _ & _ & Hr2 & _).
    exists k2. exact Hr2.
  - destruct (seq_run_prefix (s1 ++ s2) 0 0 w0 (subscribe_idle 0 t0) Ht0
                             (subscribe_prefix 0 t0))
      as (k & _ & _ & _ & Hr & _).
    exists k. exact Hr.
Qed.

End SequentialPolls.

(** A poll is in flight with an event already read when the reader
    unsubscribes: the event is not delivered. *)
Example unsubscribe_with_poll_in_flight (JSON_stringify : Event -> string) :
  let t := insertEvents [mkNewEvent "/p" 1000 (agent_active "A")] [] in
  let w := run JSON_stringify "/p" always_returns
               (mkWorld t (subscribe "/p" (Some 0) t))
               [IntervalFires] in
  let w' := run JSON_stringify "/p" always_returns w
                [Unsubscribe; ReadResolves 0; IntervalFires; ReadResolves 0] in
  map (map sequence) (inFlight (sub w)) = [[1]]
  /\ received (sub w') = [].
Proof. intros. vm_compute. split; reflexivity. Qed.

(** Three events, polls that do not overlap, a reconnect after the first
    event: 1, then 2 and 3. *)
Example reconnect_small_log (JSON_stringify : Event -> string) :
  let seq_run := seq_run JSON_stringify "/p" always_returns in
  let a := fun n => SeqAppend (mkNewEvent "/p" n (agent_active "A")) in
  let w1 := seq_run (mkWorld [] (subscribe "/p" (Some 0) []))
                    [a 1000; SeqPoll] in
  let lastOffset := last (map se_offset (received (sub w1))) 0 in
  let w2 := seq_run (mkWorld (table w1) (subscribe "/p" (Some lastOffset)
                                                   (table w1)))
                    [a 1001; a 1002; SeqPoll; SeqPoll] in
  map se_offset (received (sub w1)) = [1]
  /\ map se_offset (received (sub w2)) = [2; 3].
Proof. intros. vm_compute. split; reflexivity. Qed.

(** C4 on the code.  A reader receives event 1, records its offset and
    re-subscribes there; event 2 is appended; the interval of the new
    subscription fires twice before the read of the first poll resolves,
    so both polls read after sequence 1; when their reads resolve the
    callback is called with event 2 twice. *)
Theorem overlapping_polls_deliver_twice (JSON_stringify : Event -> string) :
  let projectKey := "/http/test"%string in
  let run := run JSON_stringify projectKey always_returns in
  let t1 := insertEvents
              [mkNewEvent projectKey 1000 (agent_active "Agent0")] [] in
  let w1 := run (mkWorld t1 (subscribe projectKey (Some 0) t1))
                [IntervalFires; ReadResolves 0; Unsubscribe] in
  let lastOffset := last (map se_offset (received (sub w1))) 0 in
  let w2 := run (mkWorld (table w1)
                         (subscribe projectKey (Some lastOffset) (table w1)))
                [Append (mkNewEvent projectKey 1001 (agent_active "Agent1"));
                 IntervalFires; IntervalFires;
                 ReadResolves 0; ReadResolves 0] in
  map se_offset (received (sub w1)) = [1]
  /\ lastOffset = 1
  /\ map se_offset (received (sub w2)) = [2; 2]
  /\ map se_offset
       (read JSON_stringify projectKey (table w2) 0 100) = [1; 2].
Proof. intros. vm_compute. repeat split. Qed.

End SubscribeFacts.

(** ** libSQL storage adapter: transaction *)

Module LibSQLFacts.

Import LibSQL.

Section Client.

Variable Database : Type.
Variable Row : Type.
Variable Arg : Type.
Variable execute : InStatement Arg -> Database -> Thrown + (list Row * Database).

Local Abbreviation run_fn := (run_fn execute).
Local Abbreviation transaction := (transaction execute).

(** What [fn] gets back from its queries, what they do to the database and
    the database state each of them runs on do not depend on the
    statements [fn] hands to [tx.exec]. *)
Lemma run_fn_without_exec {T : Type} (fn : TxProg Row Arg T) :
  forall db collected seen,
    outcome (run_fn fn db collected seen)
    = outcome (run_fn (without_exec fn) db [] seen)
    /\ db_after (run_fn fn db collected seen)
       = db_after (run_fn (without_exec fn) db [] seen)
    /\ observed (run_fn fn db collected seen)
       = observed (run_fn (without_exec fn) db [] seen).
Proof.
  induction fn as [v|x|s params k IH|s k IH]; intros db collected seen; simpl.
  - auto.
  - auto.
  - destruct (execute (mkInStatement s params) db) as [err|[rows db']];
      apply IH.
  - apply IH.
Qed.

Lemma run_fn_collects_nothing {T : Type} (fn : TxProg Row Arg T) :
  forall db collected seen,
    txStatements (run_fn (without_exec fn) db collected seen) = collected.
Proof.
  induction fn as [v|x|s params k IH|s k IH]; intros db collected seen; simpl.
  - reflexivity.
  - reflexivity.
  - destruct (execute (mkInStatement s params) db) as [err|[rows db']];
      apply IH.
  - apply IH.
Qed.

(** Every collected statement is one handed to [tx.exec]: it has no
    arguments. *)
Lemma run_fn_collects_exec_only {T : Type} (fn : TxProg Row Arg T) :
  forall db collected seen,
    Forall (fun st => args st = None) collected ->
    Forall (fun st => args st = None)
           (txStatements (run_fn fn db collected seen)).
Proof.
  induction fn as [v|x|s params k IH|s k IH]; intros db collected seen H;
    simpl.
  - assumption.
  - assumption.
  - destruct (execute (mkInStatement s params) db) as [err|[rows db']];
      now apply IH.
  - apply IH. apply Forall_app. split; [assumption|]. now repeat constructor.
Qed.

(** The statements collected when [fn] settles are those collected
    before followed by the ones [fn] handed to [tx.exec], in call
    order. *)
Lemma run_fn_collects_handed {T : Type} (fn : TxProg Row Arg T) :
  forall db collected seen,
    txStatements (run_fn fn db collected seen)
    = collected ++ LibSQLExecOnly.handed_to_exec execute fn db.
Proof.
  induction fn as [v|x|s params k IH|s k IH]; intros db collected seen; simpl.
  - now rewrite app_nil_r.
  - now rewrite app_nil_r.
  - destruct (execute (mkInStatement s params) db) as [err|[rows db']];
      apply IH.
  - rewrite IH, <- app_assoc. reflexivity.
Qed.

(** C10.  Inside [transaction(fn)] the statements given to the handle's
    [exec] are only collected: when [fn] settles the collected statements
    are exactly those [fn] handed to [exec], in call order.  The queries
    run at once, each on the database state that the earlier queries
    alone have produced, so no query sees what an earlier [exec] of the
    same transaction asked for.  When [fn] has returned, the statements
    handed to [exec] go to the database as one batch, on the state the
    queries left; when [fn] throws they do not go at all. *)
Theorem exec_deferred_query_immediate {T : Type} (fn : TxProg Row Arg T)
        (db : Database) :
  let r := run_fn fn db [] [] in
  let q := run_fn (without_exec fn) db [] [] in
  let handed := LibSQLExecOnly.handed_to_exec execute fn db in
  observed r = observed q
  /\ outcome r = outcome q
  /\ db_after r = db_after q
  /\ txStatements q = []
  /\ txStatements r = handed
  /\ Forall (fun st => args st = None) handed
  /\ transaction fn db
     = match outcome q with
       | inl result =>
           match handed with
           | [] => (inl result, db_after q)
           | _ :: _ =>
               match batch execute handed (db_after q) with
               | inl err => (inr (capture err), db_after q)
               | inr db' => (inl result, db')
               end
           end
       | inr x => (inr (capture x), db_after q)
       end.
Proof.
  intros r q handed.
  destruct (run_fn_without_exec fn db [] []) as (Ho & Hd & Hs).
  fold r q in Ho, Hd, Hs.
  assert (Hh : txStatements r = handed) by apply (run_fn_collects_handed fn db [] []).
  repeat split; try assumption.
  - apply run_fn_collects_nothing.
  - rewrite <- Hh. apply run_fn_collects_exec_only. constructor.
  - unfold LibSQL.transaction. fold r. now rewrite Ho, Hd, Hh.
Qed.

End Client.

(** A query after an [exec] in the same transaction does not see the row
    the [exec] inserts; the row is there once the transaction is done. *)
Example query_does_not_read_own_exec :
  transaction mini_execute
    (TxExec "INSERT INTO t VALUES (1)"
       (TxQuery "SELECT v FROM t" None (fun rows => Return rows)))
    [] = (inl (inr []), [1]).
Proof. reflexivity. Qed.

(** C1 on the code.  [fn] inserts a row through the handle's [query] and
    then throws: the caller gets the error [fn] threw, and the row is in
    the database. *)
Theorem query_write_survives_throw :
  transaction (T := unit) mini_execute
    (TxQuery "INSERT INTO t VALUES (?)" (Some [7])
       (fun _ => Throw (ThrownError "boom")))
    [] = (inr (mkJsError "boom"), [7]).
Proof. reflexivity. Qed.

(** What does hold when [fn] throws: nothing given to [exec] reaches the
    database. *)
Example exec_dropped_on_throw :
  transaction (T := unit) mini_execute
    (TxExec "INSERT INTO t VALUES (1)" (Throw (ThrownValue "stop")))
    [5] = (inr (mkJsError "stop"), [5]).
Proof. reflexivity. Qed.

End LibSQLFacts.

(** ** Memory store: vector search *)

Module MemoryStoreFacts.

Import MemoryStore.

Lemma distance_le_total (a b : Num) :
  distance_le a b = false -> distance_le b a = true.
Proof.
  destruct a as [x|], b as [y|]; simpl; try discriminate; try reflexivity.
  intros H. apply Qle_bool_iff, Qlt_le_weak, Qnot_le_lt.
  intros Hle. apply Qle_bool_iff in Hle. congruence.
Qed.

Lemma distance_le_trans (a b c : Num) :
  distance_le a b = true -> distance_le b c = true -> distance_le a c = true.
Proof.
  destruct a as [x|], b as [y|], c as [z|]; simpl; try discriminate;
    try reflexivity.
  rewrite !Qle_bool_iff. apply Qle_trans.
Qed.

Lemma Qred_integer (z : Z) : Qred (inject_Z z) = inject_Z z.
Proof.
  pose proof (Qred_correct (inject_Z z)) as He.
  pose proof (gcd_Qred (inject_Z z)) as Hg.
  destruct (Qred (inject_Z z)) as [n d]. unfold Qeq, inject_Z in *. simpl in *.
  assert (Hn : n = (z * Zpos d)%Z) by lia.
  rewrite Hn, Z.gcd_comm, Z.mul_comm, Z.gcd_mul_diag_l in Hg by lia.
  injection Hg as ->. f_equal. lia.
Qed.

Lemma as_count_natural (n : nat) : as_count (inject_Z (Z.of_nat n)) = Some n.
Proof.
  unfold as_count. rewrite Qred_integer. simpl.
  assert (H : (0 <=? Z.of_nat n)%Z = true) by (apply Z.leb_le; lia).
  rewrite H. now rewrite Nat2Z.id.
Qed.

Lemma limit_rows_prefix {A : Type} (reading : LimitReading) (l rows : list A) :
  limit_rows reading l = Some rows ->
  (exists n, reading = first_rows n /\ rows = firstn n l)
  \/ (reading = unlimited /\ rows = l).
Proof.
  destruct reading as [n| |]; simpl; intros H; [| |discriminate];
    injection H as <-.
  - left. now exists n.
  - now right.
Qed.

Lemma limit_rows_In {A : Type} (reading : LimitReading) (l rows : list A)
      (x : A) :
  limit_rows reading l = Some rows -> In x rows -> In x l.
Proof.
  intros H Hx. destruct (limit_rows_prefix reading l rows H)
    as [(n & _ & ->)|(_ & ->)]; [now apply firstn_In in Hx|exact Hx].
Qed.


Section Store.

Variable Metadata : Type.
Variable JSON_parse : string -> Metadata.
Variable empty_metadata : Metadata.
Variable vector_distance_cos : list Q -> list Q -> Num.
Variable limit_outside : AdapterType -> Q -> LimitReading.

Local Abbreviation Candidate := (Candidate Metadata).
Local Abbreviation distance_of := (distance_of vector_distance_cos).
Local Abbreviation score_of := (score_of vector_distance_cos).
Local Abbreviation order_by_distance := (order_by_distance vector_distance_cos).
Local Abbreviation insert_by_distance := (insert_by_distance vector_distance_cos).
Local Abbreviation where_clause := (where_clause vector_distance_cos).
Local Abbreviation nearest_first := (nearest_first vector_distance_cos).
Local Abbreviation read_limit := (read_limit limit_outside).
Local Abbreviation to_result :=
  (to_result JSON_parse empty_metadata vector_distance_cos).
Local Abbreviation search :=
  (search JSON_parse empty_metadata vector_distance_cos limit_outside).

Lemma insert_by_distance_perm (q : list Q) (c : Candidate) (l : list Candidate) :
  Permutation (insert_by_distance q c l) (c :: l).
Proof.
  induction l as [|x r IH]; simpl.
  - apply Permutation_refl.
  - destruct (distance_le _ _).
    + apply Permutation_refl.
    + eapply perm_trans; [apply perm_skip, IH | apply perm_swap].
Qed.

Lemma order_by_distance_perm (q : list Q) (l : list Candidate) :
  Permutation (order_by_distance q l) l.
Proof.
  induction l as [|x r IH]; simpl.
  - constructor.
  - eapply perm_trans; [apply insert_by_distance_perm | now apply perm_skip].
Qed.

Lemma insert_by_distance_sorted (q : list Q) (c : Candidate)
      (l : list Candidate) :
  nearest_first q l -> nearest_first q (insert_by_distance q c l).
Proof.
  unfold MemoryStore.nearest_first.
  induction l as [|x r IH]; intros Hs; simpl.
  - repeat constructor.
  - inversion Hs as [|? ? Hr Hx]; subst.
    destruct (distance_le (distance_of q c) (distance_of q x)) eqn:E.
    + constructor; [assumption|].
      constructor; [assumption|].
      rewrite Forall_forall in Hx |- *.
      intros y Hy. eapply distance_le_trans; [exact E | now apply Hx].
    + constructor; [now apply IH|].
      rewrite Forall_forall in Hx |- *.
      intros y Hy.
      apply (Permutation_in _ (insert_by_distance_perm q c r)) in Hy.
      destruct Hy as [<-|Hy]; [now apply distance_le_total | now apply Hx].
Qed.

Lemma order_by_distance_sorted (q : list Q) (l : list Candidate) :
  nearest_first q (order_by_distance q l).
Proof.
  induction l as [|x r IH]; simpl.
  - constructor.
  - now apply insert_by_distance_sorted.
Qed.

(** The nearer of two rows has the score that is at least the other's. *)
Lemma score_antitone (q : list Q) (a b : Candidate) :
  distance_le (distance_of q a) (distance_of q b) = true ->
  score_at_least (score_of q a) (score_of q b).
Proof.
  unfold MemoryStore.score_of.
  destruct (distance_of q a) as [x|], (distance_of q b) as [y|]; simpl;
    try discriminate; try trivial.
  intros H. apply Qle_bool_iff in H. unfold Qminus.
  apply Qplus_le_r. now apply Qopp_le_compat.
Qed.

(** The rows the query of [search] returns, before they are turned into
    results. *)
Lemma search_rows (db : Database Metadata) (q : list Q)
      (options : SearchOptions) :
  search db q options
  = option_map
      (map (to_result q))
      (limit_rows
         (read_limit (adapterType db)
            (match opt_limit options with Some n => n | None => 10%Q end))
         (order_by_distance q
            (filter
               (where_clause (adapterType db) q (opt_collection options)
                  (match opt_threshold options with
                   | Some t => t
                   | None => (3 # 10)%Q
                   end))
               (stored db)))).
Proof.
  unfold MemoryStore.search, stored. now destruct (adapterType db).
Qed.

(** What a search that resolves returns: the rows the limit keeps of the
    rows that pass the conditions, nearest first. *)
Lemma search_selected (db : Database Metadata) (q : list Q)
      (options : SearchOptions) (results : list (SearchResult Metadata)) :
  search db q options = Some results ->
  exists rows,
    results = map (to_result q) rows
    /\ limit_rows
         (read_limit (adapterType db)
            (match opt_limit options with Some n => n | None => 10%Q end))
         (order_by_distance q
            (filter
               (where_clause (adapterType db) q (opt_collection options)
                  (match opt_threshold options with
                   | Some t => t
                   | None => (3 # 10)%Q
                   end))
               (stored db)))
       = Some rows.
Proof.
  rewrite search_rows.
  destruct (limit_rows _ _) as [rows|]; simpl; [|discriminate].
  intros H. injection H as <-. now exists rows.
Qed.


End Store.


(** A stored embedding without direction, for which the cosine distance
    has no value, at the default options: PGlite returns the memory, last
    and with a score that is no number; libSQL leaves it out. *)
Example search_zero_vector :
  let row := fun i : string =>
    mkMemoryRow (Metadata := unit) i i metadata_null (Some "default"%string)
                "2025-01-01T00:00:00.000Z" None in
  let in_pglite :=
    mkDatabase pglite [row "flat" None; row "near" None]%string
               [mkEmbeddingRow "flat" [0%Q; 0%Q]; mkEmbeddingRow "near" [1%Q; 0%Q]] in
  let in_libsql :=
    mkDatabase libsql [row "flat" (Some [0%Q; 0%Q]); row "near" (Some [1%Q; 0%Q])]%string
               [] in
  let run := fun db =>
    option_map (map (fun r => (MemoryStore.id (memory r), score r)))
               (search (fun _ => tt) tt direction_distance limit_rejects db
                       [1%Q; 0%Q] (mkSearchOptions None None None)) in
  run in_pglite
  = Some [("near"%string, num (1 - Qabs (1 - 1))); ("flat"%string, not_a_number)]
  /\ run in_libsql = Some [("near"%string, num (1 - Qabs (1 - 1)))].
Proof. split; reflexivity. Qed.

(** Limits that are no row count: the engine's reading decides.  With an
    engine that rejects them the search rejects; with one that takes them
    for no bound every match is returned. *)
Example search_limit_outside :
  let row := fun (i : string) (x : Q) =>
    mkMemoryRow (Metadata := unit) i i metadata_null (Some "default"%string)
                "2025-01-01T00:00:00.000Z" None (Some [x]) in
  let db := mkDatabase libsql [row "a" (1 # 2); row "b" (1 # 10)]%string%Q [] in
  let run := fun outside limit =>
    option_map (map (fun r => MemoryStore.id (memory r)))
               (search (fun _ => tt) tt first_coordinate_distance outside db
                       [0%Q] (mkSearchOptions (Some limit) None None)) in
  run limit_rejects (-1)%Q = None
  /\ run limit_rejects (3 # 2)%Q = None
  /\ run limit_unbounded (-1)%Q = Some ["b"; "a"]%string
  /\ run limit_rejects 1%Q = Some ["b"%string]
  /\ run limit_rejects (4 # 2)%Q = Some ["b"; "a"]%string.
Proof. repeat split; reflexivity. Qed.

(** A search over three memories: the nearest comes first, the one below
    the threshold is left out, the collection is honoured, and the limit
    cuts the answer. *)
Example search_small_store :
  let row := fun (i c : string) (x : Q) =>
    mkMemoryRow (Metadata := unit) i i metadata_null (Some c) "2025-01-01" None
                (Some [x]) in
  let db := mkDatabase libsql
              [row "far" "default" (1 # 2)%Q; row "near" "default" (1 # 10)%Q;
               row "off" "default" 1%Q; row "other" "notes" 0%Q]%string [] in
  let run := search (fun _ => tt) tt first_coordinate_distance limit_rejects
                    db [0%Q] in
  option_map (map (fun r => (MemoryStore.id (memory r), score r)))
      (run (mkSearchOptions None None None))
  = Some [("other", num (1 - Qabs (0 - 0))); ("near", num (1 - Qabs ((1 # 10) - 0)));
          ("far", num (1 - Qabs ((1 # 2) - 0)))]%string%Q
  /\ option_map (map (fun r => MemoryStore.id (memory r)))
         (run (mkSearchOptions (Some 1%Q) None (Some "default"%string)))
     = Some ["near"%string].
Proof. split; reflexivity. Qed.

End MemoryStoreFacts.

(** ** Cell adapter: epic closure *)

Module BeadsFacts.

Import Beads.

Lemma BeadStatus_eqb_eq (a b : BeadStatus) :
  BeadStatus_eqb a b = true <-> a = b.
Proof. destruct a, b; simpl; split; congruence. Qed.

Lemma epic_children (beads : list Bead) (p epicId : string) (b : Bead) :
  In b (queryBeads beads p
          (mkQueryBeadsOptions None None (Some epicId) None None None false))
  <-> In b beads /\ project_key b = p /\ parent_id b = Some epicId
      /\ deleted_at b = None.
Proof.
  unfold queryBeads. simpl. rewrite filter_In. unfold bead_matches. simpl.
  rewrite !andb_true_r, !andb_true_iff, String.eqb_eq.
  unfold option_string_is.
  split.
  - intros (Hin & (Hp & Hpar) & Hdel). repeat split; try assumption.
    + destruct (parent_id b) as [x|]; [|discriminate].
      apply String.eqb_eq in Hpar. now subst.
    + now destruct (deleted_at b).
  - intros (Hin & Hp & Hpar & Hdel). rewrite Hpar, Hdel.
    repeat split; try assumption. apply String.eqb_refl.
Qed.

(** C6, as the code has it.  [isEpicClosureEligible] is true exactly when
    every cell of the project that is not soft-deleted and whose parent is
    the epic has status [closed]. *)
Theorem epic_eligible_iff_children_closed
        (beads : list Bead) (p epicId : string) :
  isEpicClosureEligible beads p epicId = true
  <-> (forall b, In b beads -> project_key b = p ->
                 parent_id b = Some epicId -> deleted_at b = None ->
                 status b = closed).
Proof.
  unfold isEpicClosureEligible. rewrite forallb_forall. split.
  - intros H b Hin Hp Hpar Hdel. apply BeadStatus_eqb_eq. apply H.
    apply epic_children. auto.
  - intros H b Hb. apply epic_children in Hb.
    destruct Hb as (Hin & Hp & Hpar & Hdel).
    apply BeadStatus_eqb_eq. auto.
Qed.

(** C6 as stated fails: an epic whose only child is in status [tombstone]
    is not eligible, although all its children are closed or tombstone. *)
Lemma tombstone_child_blocks_closure :
  let epic1 := mkBead "bd-1" "/p" epic open "Epic" None 2 None None
                      1000 1000 None None None None None None in
  let child := mkBead "bd-2" "/p" task tombstone "Child" None 2 (Some "bd-1"%string)
                      None 1001 1002 None None None None None None in
  let beads := [epic1; child] in
  isEpicClosureEligible beads "/p" "bd-1" = false
  /\ (forall b, In b beads -> parent_id b = Some "bd-1"%string ->
                status b = closed \/ status b = tombstone).
Proof.
  split; [reflexivity|].
  intros b [<-|[<-|[]]]; simpl; intros H; [discriminate | now right].
Qed.

(** An epic with a closed child, an open child that was soft-deleted and
    a closed child of another project is eligible. *)
Example closed_children_eligible :
  let child := fun (i pk : string) (st : BeadStatus) (del : option Z) =>
    mkBead i pk task st "Child" None 2 (Some "bd-1"%string) None
           1001 1002 None None del None None None in
  isEpicClosureEligible
    [mkBead "bd-1" "/p" epic open "Epic" None 2 None None
            1000 1000 None None None None None None;
     child "bd-2" "/p" closed None;
     child "bd-3" "/p" open (Some 1003);
     child "bd-4" "/q" open None]%string
    "/p" "bd-1" = true.
Proof. reflexivity. Qed.

End BeadsFacts.

(** ** Replay *)

Module ReplayFacts.

Import Replay EventStoreFacts.

Section Registry.

Variable Views : Type.
Variable no_views : Views.
Variable apply : Event -> Views -> Views.

Local Abbreviation appendEvent := (appendEvent apply).
Local Abbreviation appendEvents := (appendEvents apply).
Local Abbreviation replayEvents := (replayEvents no_views apply).
Local Abbreviation apply_all :=
  (fold_left (fun (v : Views) (e : Event) => apply e v)).

Lemma read_all (t : EventsTable) :
  strictly_ascending t ->
  readEvents (mkReadEventsOptions None None None None None None None) t = t.
Proof.
  intros Ht. unfold readEvents. simpl.
  rewrite (filter_all_true _ t) by reflexivity.
  apply order_by_sequence_id. now apply strictly_ascending_ascending.
Qed.

(** A run of appends adds its events at the end of the table, in input
    order, and moves the projections by applying them in that order. *)
Lemma appendEvents_log (nes : list NewEvent) (db : Database Views) :
  events (snd (appendEvents nes db))
  = events db ++ fst (appendEvents nes db)
  /\ events (snd (appendEvents nes db)) = insertEvents nes (events db)
  /\ views (snd (appendEvents nes db))
     = apply_all (fst (appendEvents nes db)) (views db)
  /\ List.length (fst (appendEvents nes db)) = List.length nes.
Proof.
  revert db. induction nes as [|ne rest IH]; intros db.
  - simpl. now rewrite app_nil_r.
  - assert (Heq : appendEvents (ne :: rest) db
                  = (fst (appendEvent ne db)
                       :: fst (appendEvents rest (snd (appendEvent ne db))),
                     snd (appendEvents rest (snd (appendEvent ne db)))))
      by reflexivity.
    rewrite Heq. cbn [fst snd].
    destruct (IH (snd (appendEvent ne db))) as (H1 & H2 & H3 & H4).
    assert (He : events (snd (appendEvent ne db))
                 = events db ++ [fst (appendEvent ne db)]) by reflexivity.
    assert (Hv : views (snd (appendEvent ne db))
                 = apply (fst (appendEvent ne db)) (views db)) by reflexivity.
    repeat split.
    + rewrite H1, He, <- app_assoc. reflexivity.
    + rewrite H2. reflexivity.
    + rewrite H3, Hv. reflexivity.
    + cbn [List.length]. now rewrite H4.
Qed.

(** C7.  Replay with [clearViews] does not look at the projection tables
    it starts from: two runs over the same event log with the same
    options end with the same tables and the same count.  And replaying
    the whole log after the tables were cleared or overwritten gives back
    exactly the tables that the original appends had produced. *)
Theorem replay_deterministic_and_restoring :
  (forall (pk : option string) (from : option Z) (log : EventsTable)
          (v1 v2 : Views),
      replayEvents (mkReplayOptions pk from true) (mkDatabase log v1)
      = replayEvents (mkReplayOptions pk from true) (mkDatabase log v2))
  /\ (forall (nes : list NewEvent) (overwritten : Views),
        let db := snd (appendEvents nes (empty_database no_views)) in
        replayEvents (mkReplayOptions None None true)
                     (mkDatabase (events db) overwritten)
        = (List.length nes, db)).
Proof.
  split.
  - reflexivity.
  - intros nes overwritten db.
    destruct (appendEvents_log nes (empty_database no_views))
      as (H1 & H2 & H3 & H4).
    fold db in H1, H2, H3. simpl in H1, H2, H3.
    assert (Hasc : strictly_ascending (events db)).
    { rewrite H2. apply insertEvents_strictly_ascending. constructor. }
    unfold Replay.replayEvents. simpl.
    rewrite (read_all _ Hasc), H1, H4, <- H3, <- H1.
    now destruct db.
Qed.

End Registry.

(** Scenario S2 on the swarm-mail projections: an agent is registered,
    its row is overwritten, and replay gives the row back. *)
Example replay_restores_agent_row :
  let db := snd (Projections.appendEvent
                   (mkNewEvent "test-project" 1000
                      (agent_registered "Agent1" "opencode" "test" "Original"))
                   (empty_database Projections.no_views)) in
  let corrupted :=
    Projections.mkViews
      [Projections.mkAgent "test-project" "Agent1" "opencode" "test" "Corrupted" 1000 1000]
      [] [] [] in
  let r := Projections.replayEvents (mkReplayOptions None None true)
                                    (mkDatabase (events db) corrupted) in
  fst r = 1%nat
  /\ map Projections.task_description (Projections.agents (views (snd r)))
     = ["Original"%string].
Proof. vm_compute. split; reflexivity. Qed.

End ReplayFacts.

(** ** Reservation arbiter: retry *)

Module ReservationFacts.

Import Projections Reservations.



Section Retry.

Variables (now1 now2 : Z) (pk agent : string) (why : option string)
          (excl : bool) (expires : option Z).

Hypothesis later : now1 <= now2.

(** The rows the first call inserts are still active at the retry. *)
Hypothesis still_active :
  match expires with None => True | Some t => now2 < t end.

Local Abbreviation ins := (reserve_path now1 pk agent why excl expires).
Local Abbreviation has1 :=
  (fun path l => existsb (equivalent_active now1 pk agent path excl) l).
Local Abbreviation has2 :=
  (fun path l => existsb (equivalent_active now2 pk agent path excl) l).

Local Abbreviation new_row := (new_reservation now1 pk agent why excl expires).














End Retry.






End ReservationFacts.

(** ** Memory store: store, get, delete, list, getStats *)

Module MoreListFacts.

Lemma filter_map_commute {A : Type} (p : A -> bool) (f : A -> A) (l : list A) :
  (forall x, p (f x) = p x) ->
  filter p (map f l) = map f (filter p l).
Proof.
  intros H. induction l as [|x r IH]; simpl; [reflexivity|].
  rewrite H. destruct (p x); simpl; now rewrite IH.
Qed.

Lemma existsb_false_filter {A : Type} (p : A -> bool) (l : list A) :
  existsb p l = false -> filter p l = [].
Proof.
  induction l as [|x r IH]; simpl; [reflexivity|].
  destruct (p x); simpl; [discriminate|exact IH].
Qed.

Lemma existsb_true_filter {A : Type} (p : A -> bool) (l : list A) :
  existsb p l = true -> exists x r, filter p l = x :: r /\ p x = true.
Proof.
  induction l as [|x r IH]; simpl; [discriminate|].
  destruct (p x) eqn:E; simpl.
  - intros _. now exists x, (filter p r).
  - exact IH.
Qed.

Lemma map_fixed {A : Type} (f : A -> A) (l : list A) :
  (forall x, In x l -> f x = x) -> map f l = l.
Proof.
  intros H. induction l as [|x r IH]; simpl; [reflexivity|].
  rewrite H by now left. rewrite IH; [reflexivity|].
  intros y Hy. apply H. now right.
Qed.

Lemma filter_none {A : Type} (p : A -> bool) (l : list A) :
  (forall x, In x l -> p x = false) -> filter p l = [].
Proof.
  intros H. induction l as [|x r IH]; simpl; [reflexivity|].
  rewrite H by now left. apply IH. intros y Hy. apply H. now right.
Qed.

Lemma NoDup_map_filter {A B : Type} (k : A -> B) (p : A -> bool) (l : list A) :
  NoDup (map k l) -> NoDup (map k (filter p l)).
Proof.
  induction l as [|x r IH]; simpl; intros H; [constructor|].
  inversion H as [|? ? Hx Hr]; subst.
  destruct (p x); simpl; [|now apply IH].
  constructor; [|now apply IH].
  intros Hin. apply Hx. apply in_map_iff in Hin.
  destruct Hin as (y & Hy & Hin). apply filter_In in Hin.
  apply in_map_iff. exists y. tauto.
Qed.

(** With keys that do not repeat, the rows of one key are one row. *)
Lemma filter_unique_key {A : Type} (k : A -> string) (i : string) (l : list A) :
  NoDup (map k l) -> In i (map k l) ->
  exists x, In x l /\ k x = i /\ filter (fun y => String.eqb (k y) i) l = [x].
Proof.
  induction l as [|x r IH]; simpl; intros Hnd Hin; [contradiction|].
  inversion Hnd as [|? ? Hx Hr]; subst.
  destruct (String.eqb (k x) i) eqn:E.
  - apply String.eqb_eq in E. exists x. split; [now left|]. split; [exact E|].
    f_equal. apply filter_none. intros y Hy.
    apply String.eqb_neq. intros Hk. apply Hx. rewrite E, <- Hk.
    now apply in_map.
  - apply String.eqb_neq in E. destruct Hin as [Hin|Hin]; [contradiction|].
    destruct (IH Hr Hin) as (y & Hy & Hk & Hf).
    exists y. split; [now right|]. split; assumption.
Qed.

Lemma filter_filter_and {A : Type} (p q : A -> bool) (l : list A) :
  filter p (filter q l) = filter (fun x => p x && q x) l.
Proof.
  induction l as [|x r IH]; simpl; [reflexivity|].
  destruct (q x); simpl.
  - rewrite andb_true_r. destruct (p x); now rewrite IH.
  - now rewrite andb_false_r.
Qed.

Lemma filter_flat_map {A B : Type} (p : B -> bool) (f : A -> list B) (l : list A) :
  filter p (flat_map f l) = flat_map (fun x => filter p (f x)) l.
Proof.
  induction l as [|x r IH]; simpl; [reflexivity|].
  now rewrite filter_app, IH.
Qed.

Lemma flat_map_nil {A B : Type} (f : A -> list B) (l : list A) :
  (forall x, In x l -> f x = []) -> flat_map f l = [].
Proof.
  intros H. induction l as [|x r IH]; simpl; [reflexivity|].
  rewrite H by now left. apply IH. intros y Hy. apply H. now right.
Qed.

(** In a sorted list cut after [n] elements, an element left out comes
    after all those kept, and [n] elements were kept. *)
Lemma firstn_sorted_complete {A : Type} (R : A -> A -> Prop) (n : nat)
      (l : list A) (x : A) :
  StronglySorted R l -> In x l ->
  In x (firstn n l)
  \/ (List.length (firstn n l) = n /\ forall y, In y (firstn n l) -> R y x).
Proof.
  revert n. induction l as [|a r IH]; intros n Hs Hin; [contradiction|].
  destruct n as [|n]; simpl.
  - right. split; [reflexivity|]. intros y [].
  - inversion Hs as [|? ? Hr Ha]; subst.
    destruct Hin as [->|Hin]; [left; now left|].
    destruct (IH n Hr Hin) as [H|[Hlen H]].
    + left. now right.
    + right. split; [now rewrite Hlen|].
      intros y [<-|Hy]; [|now apply H].
      rewrite Forall_forall in Ha. now apply Ha.
Qed.

Lemma existsb_false_not_in {A : Type} (k : A -> string) (i : string) (l : list A) :
  existsb (fun x => String.eqb (k x) i) l = false -> ~ In i (map k l).
Proof.
  induction l as [|x r IH]; simpl; intros H; [tauto|].
  apply orb_false_iff in H. destruct H as [Hx Hr].
  apply String.eqb_neq in Hx. intros [Hin|Hin]; [contradiction|now apply IH].
Qed.

Lemma existsb_true_in {A : Type} (k : A -> string) (i : string) (l : list A) :
  existsb (fun x => String.eqb (k x) i) l = true -> In i (map k l).
Proof.
  intros H. apply existsb_exists in H. destruct H as (x & Hx & E).
  apply String.eqb_eq in E. subst i. now apply in_map.
Qed.

Lemma NoDup_snoc {A : Type} (l : list A) (x : A) :
  NoDup l -> ~ In x l -> NoDup (l ++ [x]).
Proof.
  intros Hl Hx.
  apply (Permutation_NoDup (Permutation_cons_append l x)).
  now constructor.
Qed.

Lemma NoDup_key_inj {A B : Type} (k : A -> B) (l : list A) (x y : A) :
  NoDup (map k l) -> In x l -> In y l -> k x = k y -> x = y.
Proof.
  induction l as [|a r IH]; simpl; intros Hnd Hx Hy E; [contradiction|].
  inversion Hnd as [|? ? Ha Hr]; subst.
  destruct Hx as [->|Hx], Hy as [->|Hy]; auto.
  - exfalso. apply Ha. rewrite E. now apply in_map.
  - exfalso. apply Ha. rewrite <- E. now apply in_map.
Qed.

Lemma leb_trans (a b c : string) :
  String.leb a b = true -> String.leb b c = true -> String.leb a c = true.
Proof.
  assert (Hle : forall x y, String.leb x y = true <->
                            x = y \/ OrderedTypeEx.String_as_OT.lt x y).
  { intros x y. unfold String.leb.
    rewrite <- OrderedTypeEx.String_as_OT.cmp_eq,
            <- OrderedTypeEx.String_as_OT.cmp_lt.
    unfold OrderedTypeEx.String_as_OT.cmp.
    destruct (String.compare x y); split; intros H; auto;
      try discriminate; destruct H; discriminate. }
  rewrite !Hle. intros [->|Hab] [->|Hbc]; auto.
  right. eapply OrderedTypeEx.String_as_OT.lt_trans; eassumption.
Qed.

End MoreListFacts.

Import MoreListFacts.

Module MemoryCrudFacts.

Import MemoryStore MemoryCrud.

Section Store.

Variable Metadata : Type.
Variable JSON_parse : string -> Metadata.
Variable JSON_stringify : Metadata -> string.
Variable empty_metadata : Metadata.
Variable vector_distance_cos : list Q -> list Q -> Num.
Variable limit_outside : AdapterType -> Q -> LimitReading.

Local Abbreviation store := (store JSON_parse JSON_stringify).
Local Abbreviation get := (get JSON_parse empty_metadata).
Local Abbreviation list_memories := (list_memories JSON_parse empty_metadata).
Local Abbreviation parseMemoryRow := (parseMemoryRow JSON_parse empty_metadata).
Local Abbreviation search :=
  (search JSON_parse empty_metadata vector_distance_cos limit_outside).
Local Abbreviation Row := (MemoryRow Metadata).
Local Abbreviation Database := (Database Metadata).
Local Abbreviation MemoryArg := (MemoryArg Metadata).

Lemma has_id_eq (i : string) (row : Row) : has_id i row = true <-> row_id row = i.
Proof. apply String.eqb_eq. Qed.

Lemma has_id_neq (i : string) (row : Row) : has_id i row = false <-> row_id row <> i.
Proof. apply String.eqb_neq. Qed.

(** The rows of [memories] after an upsert, read by the id stored. *)
Lemma upsert_memory_same (column : MetadataColumn Metadata)
      (set_embedding : option (list Q)) (memory : MemoryArg) (rows : list Row) :
  exists row,
    hd_error (filter (has_id (arg_id memory))
                     (upsert_memory column set_embedding memory rows)) = Some row
    /\ row_id row = arg_id memory
    /\ row_content row = arg_content memory
    /\ row_metadata row = column
    /\ row_collection row = Some (arg_collection memory)
    /\ row_confidence row = Some (confidence_or_default memory)
    /\ row_created_at row
       = match filter (has_id (arg_id memory)) rows with
         | old :: _ => row_created_at old
         | [] => arg_createdAt memory
         end.
Proof.
  unfold upsert_memory.
  destruct (existsb (has_id (arg_id memory)) rows) eqn:E.
  - rewrite filter_map_commute.
    2:{ intros x. unfold has_id.
        destruct (String.eqb (row_id x) (arg_id memory)) eqn:Ex; simpl; auto. }
    destruct (existsb_true_filter _ _ E) as (x & r & -> & Hx).
    simpl. rewrite Hx. eexists. split; [reflexivity|]. simpl.
    apply has_id_eq in Hx. repeat split; try reflexivity. exact Hx.
  - rewrite filter_app, (existsb_false_filter _ _ E). simpl.
    unfold has_id at 1. simpl. rewrite String.eqb_refl. simpl.
    eexists. split; [reflexivity|]. simpl. repeat split; reflexivity.
Qed.

Lemma upsert_memory_other (column : MetadataColumn Metadata)
      (set_embedding : option (list Q)) (memory : MemoryArg) (rows : list Row)
      (i : string) :
  i <> arg_id memory ->
  filter (has_id i) (upsert_memory column set_embedding memory rows)
  = filter (has_id i) rows.
Proof.
  intros Hne. unfold upsert_memory.
  destruct (existsb (has_id (arg_id memory)) rows).
  - rewrite filter_map_commute.
    2:{ intros x. unfold has_id.
        destruct (String.eqb (row_id x) (arg_id memory)) eqn:Ex; simpl; auto. }
    apply map_fixed. intros x Hx. apply filter_In in Hx. destruct Hx as [_ Hx].
    apply has_id_eq in Hx.
    assert (H : has_id (arg_id memory) x = false) by (apply has_id_neq; congruence).
    now rewrite H.
  - rewrite filter_app. simpl. unfold has_id at 2. simpl.
    assert (H : String.eqb (arg_id memory) i = false)
      by (apply String.eqb_neq; congruence).
    rewrite H. apply app_nil_r.
Qed.

Lemma upsert_memory_ids (column : MetadataColumn Metadata)
      (set_embedding : option (list Q)) (memory : MemoryArg) (rows : list Row) :
  map row_id (upsert_memory column set_embedding memory rows)
  = if existsb (has_id (arg_id memory)) rows
    then map row_id rows
    else map row_id rows ++ [arg_id memory].
Proof.
  unfold upsert_memory.
  destruct (existsb (has_id (arg_id memory)) rows).
  - rewrite map_map. apply map_ext. intros x. now destruct (has_id _ x).
  - now rewrite map_app.
Qed.

(** X1.  get after store: the memory stored comes back, with the metadata
    as [JSON.parse] reads back its JSON text, the confidence given or 0.7,
    and the creation time of the memory that had the id before, when there
    was one. *)
Theorem get_after_store (memory : MemoryArg) (e : list Q) (db : Database) :
  get (arg_id memory) (store memory e db)
  = Some (mkMemory (arg_id memory) (arg_content memory)
            (JSON_parse (JSON_stringify (arg_metadata memory)))
            (arg_collection memory)
            (match get (arg_id memory) db with
             | Some old => createdAt old
             | None => arg_createdAt memory
             end)
            (match arg_confidence memory with
             | Some c => c
             | None => (7 # 10)%Q
             end)).
Proof.
  unfold MemoryCrud.get, MemoryCrud.store.
  destruct (adapterType db); simpl.
  - destruct (upsert_memory_same
                (metadata_object (JSON_parse (JSON_stringify (arg_metadata memory))))
                None memory (memories db))
      as (row & Hhd & Hid & Hc & Hm & Hcol & Hconf & Hat).
    destruct (filter _ (upsert_memory _ _ _ _)) as [|row' rest]; [discriminate|].
    injection Hhd as ->.
    unfold MemoryStore.parseMemoryRow.
    rewrite Hid, Hc, Hm, Hcol, Hconf, Hat.
    destruct (filter (has_id (arg_id memory)) (memories db)); reflexivity.
  - destruct (upsert_memory_same
                (metadata_text (JSON_stringify (arg_metadata memory)))
                (Some e) memory (memories db))
      as (row & Hhd & Hid & Hc & Hm & Hcol & Hconf & Hat).
    destruct (filter _ (upsert_memory _ _ _ _)) as [|row' rest]; [discriminate|].
    injection Hhd as ->.
    unfold MemoryStore.parseMemoryRow.
    rewrite Hid, Hc, Hm, Hcol, Hconf, Hat.
    destruct (filter (has_id (arg_id memory)) (memories db)); reflexivity.
Qed.

(** X2.  store leaves the memories of every other id as get saw them. *)
Theorem store_keeps_other_ids (memory : MemoryArg) (e : list Q) (db : Database)
        (i : string) :
  i <> arg_id memory ->
  get i (store memory e db) = get i db.
Proof.
  intros Hne. unfold MemoryCrud.get, MemoryCrud.store.
  destruct (adapterType db); simpl; now rewrite upsert_memory_other.
Qed.

Lemma memories_delete (i : string) (db : Database) :
  memories (delete i db) = filter (fun r => negb (has_id i r)) (memories db).
Proof. unfold delete. now destruct (adapterType db). Qed.

Lemma stored_in_memories (db : Database) (c : Candidate Metadata) :
  In c (stored db) -> In (fst c) (memories db).
Proof.
  unfold stored, from_memories, from_embeddings_join.
  destruct (adapterType db); intros H; apply in_flat_map in H.
  - destruct H as (er & _ & H). apply in_map_iff in H.
    destruct H as (m & <- & H). apply filter_In in H. now destruct H.
  - destruct H as (m & Hm & H).
    destruct (row_embedding m); [|contradiction].
    destruct H as [<-|[]]. exact Hm.
Qed.

(** X3.  delete: the memory deleted is gone for get and for the vector search,
    and the memories of every other id are as get saw them. *)
Theorem delete_removes_only_that_id (i : string) (db : Database) :
  get i (delete i db) = None
  /\ (forall q options results r,
        search (delete i db) q options = Some results ->
        In r results -> id (memory r) <> i)
  /\ (forall j, j <> i -> get j (delete i db) = get j db).
Proof.
  split; [|split].
  - unfold MemoryCrud.get. rewrite memories_delete.
    rewrite filter_none; [reflexivity|].
    intros x Hx. apply filter_In in Hx. destruct Hx as [_ Hx].
    now destruct (has_id i x).
  - intros q options results r Hres Hr.
    destruct (MemoryStoreFacts.search_selected _ _ _ _ _ _ _ _ _ Hres)
      as (rows & -> & Hrows).
    apply in_map_iff in Hr. destruct Hr as (c & <- & Hc).
    apply (MemoryStoreFacts.limit_rows_In _ _ _ _ Hrows) in Hc.
    apply (Permutation_in _ (MemoryStoreFacts.order_by_distance_perm _ _ _ _)) in Hc.
    apply filter_In in Hc. destruct Hc as [Hc _].
    apply stored_in_memories in Hc. rewrite memories_delete in Hc.
    apply filter_In in Hc. destruct Hc as [_ Hc]. simpl.
    apply has_id_neq. now destruct (has_id i (fst c)).
  - intros j Hne. unfold MemoryCrud.get. rewrite memories_delete.
    rewrite filter_filter_and.
    rewrite (filter_ext _ (has_id j)); [reflexivity|].
    intros x. unfold has_id.
    destruct (String.eqb (row_id x) j) eqn:Ej; [|reflexivity].
    apply String.eqb_eq in Ej.
    assert (H : String.eqb (row_id x) i = false)
      by (apply String.eqb_neq; congruence).
    now rewrite H.
Qed.

Lemma upsert_embedding_ids (i : string) (e : list Q) (rows : list EmbeddingRow) :
  map memory_id (upsert_embedding i e rows)
  = if existsb (embedding_of i) rows
    then map memory_id rows
    else map memory_id rows ++ [i].
Proof.
  unfold upsert_embedding.
  destruct (existsb (embedding_of i) rows).
  - rewrite map_map. apply map_ext. intros x. now destruct (embedding_of i x).
  - now rewrite map_app.
Qed.

Lemma upsert_embedding_value (i : string) (e : list Q) (rows : list EmbeddingRow)
      (er : EmbeddingRow) :
  In er (upsert_embedding i e rows) -> memory_id er = i -> embedding er = e.
Proof.
  unfold upsert_embedding.
  destruct (existsb (embedding_of i) rows) eqn:E; intros Hin Hid.
  - apply in_map_iff in Hin. destruct Hin as (x & <- & Hx).
    destruct (embedding_of i x) eqn:Ex; [reflexivity|].
    apply String.eqb_neq in Ex. contradiction.
  - apply in_app_iff in Hin. destruct Hin as [Hin|[<-|[]]]; [|reflexivity].
    exfalso. apply (existsb_false_not_in memory_id i rows E).
    rewrite <- Hid. now apply in_map.
Qed.

Lemma upsert_ids_NoDup {A : Type} (k : A -> string) (i : string) (l : list A) :
  NoDup (map k l) ->
  NoDup (if existsb (fun x => String.eqb (k x) i) l
         then map k l else map k l ++ [i]).
Proof.
  intros H. destruct (existsb _ l) eqn:E; [exact H|].
  apply NoDup_snoc; [exact H|]. now apply existsb_false_not_in.
Qed.

Lemma upsert_ids_In {A : Type} (k : A -> string) (i j : string) (l : list A) :
  j = i \/ In j (map k l) ->
  In j (if existsb (fun x => String.eqb (k x) i) l
        then map k l else map k l ++ [i]).
Proof.
  destruct (existsb _ l) eqn:E.
  - intros [->|H]; [now apply existsb_true_in|exact H].
  - intros [->|H]; apply in_app_iff; [right; now left|now left].
Qed.

Lemma upsert_memory_no_embedding (column : MetadataColumn Metadata)
      (memory : MemoryArg) (rows : list Row) :
  Forall (fun r => row_embedding r = None) rows ->
  Forall (fun r => row_embedding r = None) (upsert_memory column None memory rows).
Proof.
  intros H. unfold upsert_memory.
  destruct (existsb (has_id (arg_id memory)) rows).
  - rewrite Forall_forall in H |- *. intros r Hr.
    apply in_map_iff in Hr. destruct Hr as (x & <- & Hx).
    destruct (has_id (arg_id memory) x); simpl; now apply H.
  - apply Forall_app. split; [exact H|]. now constructor.
Qed.

Lemma store_consistent (memory : MemoryArg) (e : list Q) (db : Database) :
  consistent db -> consistent (store memory e db).
Proof.
  unfold consistent, MemoryCrud.store.
  destruct (adapterType db); simpl; intros [Hnd H].
  - destruct H as (Hnone & Hend & Hfk).
    rewrite upsert_memory_ids, upsert_embedding_ids.
    split; [now apply (upsert_ids_NoDup row_id)|].
    split; [now apply upsert_memory_no_embedding|].
    split; [now apply (upsert_ids_NoDup memory_id)|].
    rewrite Forall_forall in Hfk |- *. intros er Her.
    apply (upsert_ids_In row_id).
    assert (Hin : In (memory_id er) (map memory_id
                        (upsert_embedding (arg_id memory) e (memory_embeddings db))))
      by now apply in_map.
    rewrite upsert_embedding_ids in Hin.
    destruct (existsb _ (memory_embeddings db)).
    + right. apply in_map_iff in Hin. destruct Hin as (x & <- & Hx). now apply Hfk.
    + apply in_app_iff in Hin. destruct Hin as [Hin|[<-|[]]]; [right|now left].
      apply in_map_iff in Hin. destruct Hin as (x & <- & Hx). now apply Hfk.
  - rewrite upsert_memory_ids.
    split; [now apply (upsert_ids_NoDup row_id)|exact H].
Qed.

Lemma delete_consistent (i : string) (db : Database) :
  consistent db -> consistent (delete i db).
Proof.
  unfold consistent, MemoryCrud.delete.
  destruct (adapterType db); simpl; intros [Hnd H].
  - destruct H as (Hnone & Hend & Hfk).
    split; [now apply NoDup_map_filter|].
    split.
    { rewrite Forall_forall in Hnone |- *. intros r Hr.
      apply filter_In in Hr. now apply Hnone. }
    split; [now apply NoDup_map_filter|].
    rewrite Forall_forall in Hfk |- *. intros er Her.
    apply filter_In in Her. destruct Her as [Her Hne].
    specialize (Hfk _ Her). apply in_map_iff in Hfk.
    destruct Hfk as (r & Hr & Hin).
    apply in_map_iff. exists r. split; [exact Hr|].
    apply filter_In. split; [exact Hin|].
    unfold has_id, embedding_of in *. now rewrite Hr.
  - split; [now apply NoDup_map_filter|exact H].
Qed.

(** X4.  The schema's constraints hold of the empty store, and store and
    delete keep them. *)
Theorem store_and_delete_keep_consistent (db : Database) :
  consistent db ->
  (forall memory e, consistent (store memory e db))
  /\ (forall i, consistent (delete i db)).
Proof.
  intros H. split; intros.
  - now apply store_consistent.
  - now apply delete_consistent.
Qed.

Lemma joined_row (db : Database) (er : EmbeddingRow) :
  adapterType db = pglite -> consistent db -> In er (memory_embeddings db) ->
  exists row, In row (memories db) /\ row_id row = memory_id er
    /\ filter (fun m => String.eqb (row_id m) (memory_id er)) (memories db) = [row].
Proof.
  unfold consistent. intros -> (Hnd & _ & _ & Hfk) Her.
  rewrite Forall_forall in Hfk.
  exact (filter_unique_key row_id (memory_id er) (memories db) Hnd (Hfk _ Her)).
Qed.

(** X5.  getStats on a consistent store: [embeddings] is the number of
    memories the vector search ranges over. *)
Theorem stats_count_searchable (db : Database) :
  consistent db ->
  embeddings_count (getStats db) = List.length (stored db).
Proof.
  intros Hc. unfold getStats, stored. simpl.
  destruct (adapterType db) eqn:Et.
  - unfold from_embeddings_join.
    assert (H : forall er, In er (memory_embeddings db) ->
              List.length
                (map (fun m : Row => (m, embedding er))
                     (filter (fun m => String.eqb (row_id m) (memory_id er))
                             (memories db))) = 1%nat).
    { intros er Her. destruct (joined_row db er Et Hc Her) as (row & _ & _ & ->).
      reflexivity. }
    revert H. generalize (memories db). intros rows.
    induction (memory_embeddings db) as [|er r IH]; intros H; simpl; [reflexivity|].
    rewrite length_app, H by now left.
    rewrite IH; [reflexivity|]. intros x Hx. apply H. now right.
  - unfold from_memories.
    induction (memories db) as [|m r IH]; simpl; [reflexivity|].
    rewrite length_app.
    destruct (row_embedding m); simpl; now rewrite IH.
Qed.

(** X6.  store never makes a second memory of an id: the number of memories
    grows by one when the id is new and stays when it is not. *)
Theorem store_counts_memories (memory : MemoryArg) (e : list Q) (db : Database) :
  memories_count (getStats (store memory e db))
  = (memories_count (getStats db)
     + match get (arg_id memory) db with Some _ => 0 | None => 1 end)%nat.
Proof.
  assert (H : forall column set_embedding,
            List.length (upsert_memory column set_embedding memory (memories db))
            = (List.length (memories db)
               + match get (arg_id memory) db with Some _ => 0 | None => 1 end)%nat).
  { intros column set_embedding. unfold upsert_memory, MemoryCrud.get.
    destruct (existsb (has_id (arg_id memory)) (memories db)) eqn:E.
    - destruct (existsb_true_filter _ _ E) as (x & r & -> & _).
      rewrite length_map. lia.
    - rewrite (existsb_false_filter _ _ E), length_app. reflexivity. }
  unfold getStats, MemoryCrud.store. simpl.
  destruct (adapterType db); simpl; apply H.
Qed.

Lemma get_of_row (db : Database) (row : Row) :
  consistent db -> In row (memories db) ->
  get (row_id row) db = Some (parseMemoryRow row).
Proof.
  intros [Hnd _] Hin. unfold MemoryCrud.get.
  destruct (filter_unique_key row_id (row_id row) (memories db) Hnd
              (in_map row_id _ _ Hin)) as (x & Hx & Hk & Hf).
  unfold has_id. rewrite Hf.
  now rewrite (NoDup_key_inj row_id (memories db) x row Hnd Hx Hin Hk).
Qed.

Lemma upsert_memory_embedding (column : MetadataColumn Metadata) (e : list Q)
      (memory : MemoryArg) (rows : list Row) (m : Row) :
  In m (upsert_memory column (Some e) memory rows) ->
  row_id m = arg_id memory -> row_embedding m = Some e.
Proof.
  unfold upsert_memory.
  destruct (existsb (has_id (arg_id memory)) rows) eqn:E; intros Hin Hid.
  - apply in_map_iff in Hin. destruct Hin as (x & <- & Hx).
    destruct (has_id (arg_id memory) x) eqn:Ex; [reflexivity|].
    apply has_id_neq in Ex. contradiction.
  - apply in_app_iff in Hin. destruct Hin as [Hin|[<-|[]]]; [|reflexivity].
    exfalso. apply (existsb_false_not_in row_id (arg_id memory) rows E).
    rewrite <- Hid. now apply in_map.
Qed.

Lemma upsert_memory_has_row (column : MetadataColumn Metadata)
      (set_embedding : option (list Q)) (memory : MemoryArg) (rows : list Row) :
  exists row, In row (upsert_memory column set_embedding memory rows)
              /\ row_id row = arg_id memory.
Proof.
  assert (H : In (arg_id memory)
                 (map row_id (upsert_memory column set_embedding memory rows))).
  { rewrite upsert_memory_ids. apply (upsert_ids_In row_id). now left. }
  apply in_map_iff in H. destruct H as (row & Hid & Hin). now exists row.
Qed.

Lemma stored_has_candidate (memory : MemoryArg) (e : list Q) (db : Database) :
  exists c, In c (stored (store memory e db)) /\ row_id (fst c) = arg_id memory.
Proof.
  unfold stored, MemoryCrud.store.
  destruct (adapterType db); simpl.
  - destruct (upsert_memory_has_row
                (metadata_object (JSON_parse (JSON_stringify (arg_metadata memory))))
                None memory (memories db)) as (row & Hrow & Hid).
    assert (H : In (arg_id memory)
                   (map memory_id (upsert_embedding (arg_id memory) e
                                                    (memory_embeddings db)))).
    { rewrite upsert_embedding_ids. apply (upsert_ids_In memory_id). now left. }
    apply in_map_iff in H. destruct H as (er & Her & Hin).
    exists (row, embedding er). split; [|exact Hid].
    unfold from_embeddings_join. apply in_flat_map. exists er.
    split; [exact Hin|]. simpl.
    apply (in_map (fun m : Row => (m, embedding er))).
    apply filter_In. split; [exact Hrow|].
    apply String.eqb_eq. congruence.
  - destruct (upsert_memory_has_row
                (metadata_text (JSON_stringify (arg_metadata memory)))
                (Some e) memory (memories db)) as (row & Hrow & Hid).
    exists (row, e). split; [|exact Hid].
    unfold from_memories. apply in_flat_map. exists row.
    split; [exact Hrow|]. simpl.
    rewrite (upsert_memory_embedding _ _ _ _ _ Hrow Hid). now left.
Qed.

Lemma stored_candidate_embedding (memory : MemoryArg) (e : list Q)
      (db : Database) (c : Candidate Metadata) :
  In c (stored (store memory e db)) -> row_id (fst c) = arg_id memory ->
  snd c = e.
Proof.
  unfold stored, MemoryCrud.store.
  destruct (adapterType db); simpl; intros Hin Hid.
  - unfold from_embeddings_join in Hin. apply in_flat_map in Hin.
    destruct Hin as (er & Her & Hin). simpl in Hin.
    apply in_map_iff in Hin. destruct Hin as (m & <- & Hm).
    apply filter_In in Hm. destruct Hm as [_ Hm].
    apply String.eqb_eq in Hm. simpl in *.
    apply (upsert_embedding_value _ _ _ _ Her). congruence.
  - unfold from_memories in Hin. apply in_flat_map in Hin.
    destruct Hin as (m & Hm & Hin). simpl in Hm.
    destruct (row_embedding m) as [e'|] eqn:Em; [|contradiction].
    destruct Hin as [<-|[]]. simpl in *.
    rewrite (upsert_memory_embedding _ _ _ _ _ Hm Hid) in Em. congruence.
Qed.

Lemma upsert_memory_collection (column : MetadataColumn Metadata)
      (set_embedding : option (list Q)) (memory : MemoryArg) (rows : list Row)
      (m : Row) :
  In m (upsert_memory column set_embedding memory rows) ->
  row_id m = arg_id memory -> row_collection m = Some (arg_collection memory).
Proof.
  unfold upsert_memory.
  destruct (existsb (has_id (arg_id memory)) rows) eqn:E; intros Hin Hid.
  - apply in_map_iff in Hin. destruct Hin as (x & <- & Hx).
    destruct (has_id (arg_id memory) x) eqn:Ex; [reflexivity|].
    apply has_id_neq in Ex. contradiction.
  - apply in_app_iff in Hin. destruct Hin as [Hin|[<-|[]]]; [|reflexivity].
    exfalso. apply (existsb_false_not_in row_id (arg_id memory) rows E).
    rewrite <- Hid. now apply in_map.
Qed.

Lemma stored_candidate_collection (memory : MemoryArg) (e : list Q)
      (db : Database) (c : Candidate Metadata) :
  In c (stored (store memory e db)) -> row_id (fst c) = arg_id memory ->
  row_collection (fst c) = Some (arg_collection memory).
Proof.
  intros Hin Hid. apply stored_in_memories in Hin. revert Hin.
  unfold MemoryCrud.store. destruct (adapterType db); simpl; intros Hin;
    eapply upsert_memory_collection; eassumption.
Qed.

(** X7.  After store, the vector search ranges over the memory stored, under
    the embedding stored with it and no other. *)
Theorem store_replaces_embedding (memory : MemoryArg) (e : list Q) (db : Database) :
  consistent db ->
  (exists c, In c (stored (store memory e db)) /\ row_id (fst c) = arg_id memory)
  /\ (forall c, In c (stored (store memory e db)) ->
        row_id (fst c) = arg_id memory ->
        snd c = e
        /\ get (arg_id memory) (store memory e db) = Some (parseMemoryRow (fst c))).
Proof.
  intros Hc. pose proof (store_consistent memory e db Hc) as Hc'.
  split; [apply stored_has_candidate|].
  intros c Hin Hid. split.
  - now apply (stored_candidate_embedding memory e db c).
  - apply stored_in_memories in Hin.
    rewrite <- Hid. now apply get_of_row.
Qed.

(** X8.  The limit of a search drops the farthest matches only: when a
    search resolves, a stored memory that passes the collection and the
    threshold is among the results, or the results are as many as the
    row count the limit was read as and each scores at least as high as
    it. *)
Theorem search_keeps_the_nearest (db : Database) (q : list Q)
        (options : SearchOptions) (c : Candidate Metadata)
        (results : list (SearchResult Metadata)) :
  In c (stored db) ->
  where_clause vector_distance_cos (adapterType db) q (opt_collection options)
    (match opt_threshold options with Some t => t | None => (3 # 10)%Q end) c
  = true ->
  search db q options = Some results ->
  In (to_result JSON_parse empty_metadata vector_distance_cos q c) results
  \/ (read_limit limit_outside (adapterType db)
        (match opt_limit options with Some n => n | None => 10%Q end)
      = first_rows (List.length results)
      /\ forall r, In r results ->
           score_at_least (score r) (score_of vector_distance_cos q c)).
Proof.
  intros Hin Hw Hres.
  destruct (MemoryStoreFacts.search_selected _ _ _ _ _ _ _ _ _ Hres)
    as (rows & -> & Hrows).
  set (kept := filter _ (stored db)) in Hrows.
  assert (Hk : In c (order_by_distance vector_distance_cos q kept)).
  { apply (Permutation_in _
             (Permutation_sym
                (MemoryStoreFacts.order_by_distance_perm _ vector_distance_cos q kept))).
    apply filter_In. now split. }
  destruct (MemoryStoreFacts.limit_rows_prefix _ _ _ Hrows)
    as [(n & Hn & ->)|(_ & ->)].
  - destruct (firstn_sorted_complete _ n _ c
                (MemoryStoreFacts.order_by_distance_sorted _ vector_distance_cos q kept) Hk)
      as [H|[Hlen H]].
    + left. now apply in_map.
    + right. split; [now rewrite length_map, Hlen|].
      intros r Hr. apply in_map_iff in Hr. destruct Hr as (y & <- & Hy).
      simpl. apply MemoryStoreFacts.score_antitone. now apply H.
  - left. now apply in_map.
Qed.

Lemma adapterType_store (memory : MemoryArg) (e : list Q) (db : Database) :
  adapterType (store memory e db) = adapterType db.
Proof. unfold MemoryCrud.store. now destruct (adapterType db). Qed.

(** X11.  Store, then search with the embedding stored: when the distance of
    an embedding to itself is 0, the threshold is at most 1, the
    collection asked for, if any, is the memory's, and the search
    resolves, the memory is found with score 1, or the results are as
    many as the row count the limit was read as and all score at least
    1. *)
Theorem stored_memory_is_found (memory : MemoryArg) (e : list Q) (db : Database)
        (options : SearchOptions) (d : Q)
        (results : list (SearchResult Metadata)) :
  consistent db ->
  vector_distance_cos e e = num d ->
  (d == 0)%Q ->
  (match opt_threshold options with Some t => t | None => (3 # 10)%Q end <= 1)%Q ->
  (forall col, opt_collection options = Some col -> col = arg_collection memory) ->
  search (store memory e db) e options = Some results ->
  (exists r s, In r results
               /\ get (arg_id memory) (store memory e db)
                  = Some (MemoryStore.memory r)
               /\ score r = num s /\ (s == 1)%Q)
  \/ (read_limit limit_outside (adapterType db)
        (match opt_limit options with Some n => n | None => 10%Q end)
      = first_rows (List.length results)
      /\ forall r, In r results -> score_at_least (score r) (num 1)).
Proof.
  intros Hc Hdist Hzero Hth Hcol Hres.
  pose proof (store_consistent memory e db Hc) as Hc'.
  destruct (stored_has_candidate memory e db) as (c & Hin & Hid).
  pose proof (stored_candidate_embedding memory e db c Hin Hid) as He.
  pose proof (stored_candidate_collection memory e db c Hin Hid) as Hrc.
  assert (Hscore : score_of vector_distance_cos e c = num (1 - d)).
  { unfold score_of, distance_of. now rewrite He, Hdist. }
  assert (Hone : (1 - d == 1)%Q) by (rewrite Hzero; reflexivity).
  destruct (MemoryStoreFacts.search_selected _ _ _ _ _ _ _ _ _ Hres)
    as (rows & -> & Hrows).
  rewrite adapterType_store in Hrows.
  set (threshold := match opt_threshold options with
                    | Some t => t
                    | None => (3 # 10)%Q
                    end) in *.
  set (kept := filter _ (stored (store memory e db))) in Hrows.
  assert (Hw : where_clause vector_distance_cos (adapterType db) e
                            (opt_collection options) threshold c = true).
  { unfold where_clause. apply andb_true_iff. split.
    - destruct (opt_collection options) as [col|] eqn:Eo; [|reflexivity].
      simpl. destruct (String.eqb col EmptyString); [reflexivity|].
      unfold collection_is. rewrite Hrc, (Hcol col eq_refl).
      apply String.eqb_refl.
    - rewrite Hscore. simpl. apply Qle_bool_iff. now rewrite Hone. }
  assert (Hk : In c (order_by_distance vector_distance_cos e kept)).
  { apply (Permutation_in _
             (Permutation_sym
                (MemoryStoreFacts.order_by_distance_perm _ vector_distance_cos e kept))).
    apply filter_In. now split. }
  assert (Hfound : In c rows ->
            exists r s, In r (map (to_result JSON_parse empty_metadata
                                             vector_distance_cos e) rows)
                        /\ get (arg_id memory) (store memory e db)
                           = Some (MemoryStore.memory r)
                        /\ score r = num s /\ (s == 1)%Q).
  { intros H.
    exists (to_result JSON_parse empty_metadata vector_distance_cos e c), (1 - d)%Q.
    split; [now apply in_map|]. split; [|split; [exact Hscore|exact Hone]].
    simpl. rewrite <- Hid. apply get_of_row; [exact Hc'|].
    now apply stored_in_memories. }
  destruct (MemoryStoreFacts.limit_rows_prefix _ _ _ Hrows)
    as [(n & Hn & Hfirst)|(_ & Hall)].
  - rewrite Hfirst in *.
    destruct (firstn_sorted_complete _ n _ c
                (MemoryStoreFacts.order_by_distance_sorted _ vector_distance_cos e kept) Hk)
      as [H|[Hlen H]].
    + left. now apply Hfound.
    + right. split; [now rewrite length_map, Hlen|].
      intros r Hr. apply in_map_iff in Hr. destruct Hr as (y & <- & Hy).
      pose proof (MemoryStoreFacts.score_antitone _ vector_distance_cos e y c
                    (H y Hy)) as Hge.
      simpl. rewrite Hscore in Hge.
      destruct (score_of vector_distance_cos e y) as [s|]; simpl in *;
        [|contradiction].
      now rewrite <- Hone.
  - left. apply Hfound. now rewrite Hall.
Qed.

Lemma insert_by_created_at_perm (row : Row) (l : list Row) :
  Permutation (insert_by_created_at row l) (row :: l).
Proof.
  induction l as [|x r IH]; simpl.
  - apply Permutation_refl.
  - destruct (String.leb _ _).
    + apply Permutation_refl.
    + eapply perm_trans; [apply perm_skip, IH | apply perm_swap].
Qed.

Lemma order_by_created_at_desc_perm (l : list Row) :
  Permutation (order_by_created_at_desc l) l.
Proof.
  induction l as [|x r IH]; simpl.
  - constructor.
  - eapply perm_trans; [apply insert_by_created_at_perm | now apply perm_skip].
Qed.

Lemma order_by_created_at_desc_sorted (l : list Row) :
  StronglySorted
    (fun a b => String.leb (row_created_at b) (row_created_at a) = true)
    (order_by_created_at_desc l).
Proof.
  induction l as [|row l IH]; simpl; [constructor|].
  revert IH. generalize (order_by_created_at_desc l). clear l.
  intros l. induction l as [|x r IH]; intros Hs; simpl.
  - repeat constructor.
  - inversion Hs as [|? ? Hr Hx]; subst.
    destruct (String.leb (row_created_at x) (row_created_at row)) eqn:E.
    + constructor; [assumption|].
      constructor; [assumption|].
      rewrite Forall_forall in Hx |- *.
      intros y Hy. eapply leb_trans; [now apply Hx | exact E].
    + constructor; [now apply IH|].
      rewrite Forall_forall in Hx |- *.
      intros y Hy.
      apply (Permutation_in _ (insert_by_created_at_perm row r)) in Hy.
      destruct Hy as [<-|Hy]; [|now apply Hx].
      destruct (String.leb_total (row_created_at x) (row_created_at row));
        congruence.
Qed.

(** X9.  list: the memories come latest first; they are the rows of the
    table, or those of the collection given when it is not the empty
    string. *)
Theorem list_latest_first_by_collection (collection : option string)
        (db : Database) :
  StronglySorted
    (fun a b => String.leb (createdAt b) (createdAt a) = true)
    (list_memories collection db)
  /\ (forall m, In m (list_memories collection db) <->
        exists row, In row (memories db) /\ m = parseMemoryRow row
          /\ match collection with
             | Some c => c = EmptyString \/ row_collection row = Some c
             | None => True
             end).
Proof.
  unfold MemoryCrud.list_memories. split.
  - eapply StronglySorted_map; [|apply order_by_created_at_desc_sorted].
    intros a b H. exact H.
  - intros m. rewrite in_map_iff. split.
    + intros (row & <- & Hin).
      apply (Permutation_in _ (order_by_created_at_desc_perm _)) in Hin.
      exists row. destruct collection as [c|]; simpl in *; [|tauto].
      destruct (String.eqb c EmptyString) eqn:E.
      * apply String.eqb_eq in E. tauto.
      * apply filter_In in Hin. destruct Hin as [Hin Hc].
        split; [exact Hin|]. split; [reflexivity|]. right.
        unfold collection_is in Hc.
        destruct (row_collection row); [|discriminate].
        apply String.eqb_eq in Hc. now subst.
    + intros (row & Hin & -> & Hc). exists row. split; [reflexivity|].
      apply (Permutation_in _ (Permutation_sym (order_by_created_at_desc_perm _))).
      destruct collection as [c|]; simpl; [|exact Hin].
      destruct (String.eqb c EmptyString) eqn:E; [exact Hin|].
      apply String.eqb_neq in E. destruct Hc as [Hc|Hc]; [contradiction|].
      apply filter_In. split; [exact Hin|].
      unfold collection_is. rewrite Hc. apply String.eqb_refl.
Qed.

(** X10.  On a consistent store list without a collection and get agree: a
    memory is listed exactly when get returns it for some id. *)
Theorem list_agrees_with_get (db : Database) (m : Memory Metadata) :
  consistent db ->
  (In m (list_memories None db) <-> exists i, get i db = Some m).
Proof.
  intros Hc. unfold MemoryCrud.list_memories. simpl. rewrite in_map_iff. split.
  - intros (row & <- & Hin).
    apply (Permutation_in _ (order_by_created_at_desc_perm _)) in Hin.
    exists (row_id row). now apply get_of_row.
  - intros (i & Hget). unfold MemoryCrud.get in Hget.
    destruct (filter (has_id i) (memories db)) as [|row rest] eqn:E; [discriminate|].
    injection Hget as <-. exists row. split; [reflexivity|].
    apply (Permutation_in _ (Permutation_sym (order_by_created_at_desc_perm _))).
    assert (H : In row (filter (has_id i) (memories db))) by (rewrite E; now left).
    apply filter_In in H. now destruct H.
Qed.

End Store.

Ltac consistent_by_computation :=
  unfold consistent; simpl;
  repeat first [ easy | split | intros [] | now left | now (right; left)
               | now (intros [H|[]]; discriminate H)
               | now (intros [H|[H|[]]]; discriminate H)
               | constructor ].

(** A second memory stored beside the first: get of the first is as
    before. *)
Lemma store_keeps_other_ids_witness :
  let note := fun i c =>
    mkMemoryArg (Metadata := unit) i "OAuth tokens need a refresh buffer" tt c
                "2025-01-01T00:00:00.000Z" None in
  let put := store (fun _ => tt) (fun _ => "{}"%string) in
  let db := put (note "mem_1" "default")%string [1%Q] (mkDatabase pglite [] []) in
  "mem_1"%string <> arg_id (note "mem_2" "notes")%string
  /\ get (fun _ => tt) tt "mem_1" (put (note "mem_2" "notes")%string [0%Q] db)
     = get (fun _ => tt) tt "mem_1" db.
Proof.
  intros note put db.
  assert (H : "mem_1"%string <> arg_id (note "mem_2" "notes")%string)
    by (simpl; discriminate).
  split; [exact H|]. now apply store_keeps_other_ids.
Defined.

(** One memory stored into the empty PGlite store: the store is
    consistent, and stays so under store and delete. *)
Lemma store_and_delete_keep_consistent_witness :
  let note :=
    mkMemoryArg (Metadata := unit) "mem_1" "OAuth tokens need a refresh buffer"
                tt "default" "2025-01-01T00:00:00.000Z" None in
  let db := store (fun _ => tt) (fun _ => "{}"%string) note [1%Q]
                  (mkDatabase pglite [] []) in
  consistent db
  /\ (forall memory e,
        consistent (store (fun _ => tt) (fun _ => "{}"%string) memory e db))
  /\ (forall i, consistent (delete i db)).
Proof.
  intros note db.
  assert (H : consistent db) by consistent_by_computation.
  split; [exact H|]. now apply store_and_delete_keep_consistent.
Defined.

(** Two memories in a libSQL store, one of them without an embedding:
    one embedding is counted and one memory is searched. *)
Lemma stats_count_searchable_witness :
  let row := fun i e =>
    mkMemoryRow (Metadata := unit) i "a note" metadata_null (Some "default"%string)
                "2025-01-01T00:00:00.000Z" None e in
  let db := mkDatabase libsql [row "mem_1" (Some [1%Q]); row "mem_2" None]%string [] in
  consistent db
  /\ embeddings_count (getStats db) = List.length (stored db).
Proof.
  intros row db.
  assert (H : consistent db) by consistent_by_computation.
  split; [exact H|]. now apply stats_count_searchable.
Defined.

(** A memory stored again under another embedding. *)
Lemma store_replaces_embedding_witness :
  let note :=
    mkMemoryArg (Metadata := unit) "mem_1" "OAuth tokens need a refresh buffer"
                tt "default" "2025-01-01T00:00:00.000Z" None in
  let put := store (fun _ => tt) (fun _ => "{}"%string) in
  let db := put note [1%Q] (mkDatabase pglite [] []) in
  consistent db
  /\ (exists c, In c (stored (put note [0%Q] db)) /\ row_id (fst c) = arg_id note)
  /\ (forall c, In c (stored (put note [0%Q] db)) ->
        row_id (fst c) = arg_id note ->
        snd c = [0%Q]
        /\ get (fun _ => tt) tt (arg_id note) (put note [0%Q] db)
           = Some (parseMemoryRow (fun _ => tt) tt (fst c))).
Proof.
  intros note put db.
  assert (H : consistent db) by consistent_by_computation.
  split; [exact H|]. now apply store_replaces_embedding.
Defined.

(** Four memories in PGlite, one of them without direction, and a limit
    of two: the farthest match is left out, behind two results that score
    at least as high. *)
Lemma search_keeps_the_nearest_witness :
  let row := fun i : string =>
    mkMemoryRow (Metadata := unit) i "a note" metadata_null (Some "default"%string)
                "2025-01-01T00:00:00.000Z" None None in
  let db := mkDatabase pglite
              [row "far"; row "flat"; row "near"; row "nearest"]%string
              [mkEmbeddingRow "far" [(1 # 2)%Q; 1%Q];
               mkEmbeddingRow "flat" [0%Q; 0%Q];
               mkEmbeddingRow "near" [(1 # 10)%Q; 1%Q];
               mkEmbeddingRow "nearest" [0%Q; 1%Q]] in
  let q := [0%Q; 1%Q] in
  let options := mkSearchOptions (Some 2%Q) None None in
  let c := (row "far"%string, [(1 # 2)%Q; 1%Q]) in
  let outcome := search (fun _ => tt) tt direction_distance limit_rejects
                        db q options in
  let results := match outcome with Some l => l | None => [] end in
  In c (stored db)
  /\ where_clause direction_distance pglite q None (3 # 10)%Q c = true
  /\ outcome = Some results
  /\ (In (to_result (fun _ => tt) tt direction_distance q c) results
      \/ (read_limit limit_rejects pglite 2%Q = first_rows (List.length results)
          /\ forall r, In r results ->
               score_at_least (score r) (score_of direction_distance q c))).
Proof.
  intros row db q options c outcome results.
  assert (Hin : In c (stored db)) by (simpl; now left).
  assert (Hw : where_clause direction_distance pglite q None (3 # 10)%Q c = true)
    by reflexivity.
  assert (Hres : outcome = Some results) by reflexivity.
  split; [exact Hin|]. split; [exact Hw|]. split; [exact Hres|].
  exact (search_keeps_the_nearest unit (fun _ => tt) tt direction_distance
           limit_rejects db q options c results Hin Hw Hres).
Defined.

(** The one memory of a store is listed and is what get returns. *)
Lemma list_agrees_with_get_witness :
  let note :=
    mkMemoryArg (Metadata := unit) "mem_1" "OAuth tokens need a refresh buffer"
                tt "default" "2025-01-01T00:00:00.000Z" None in
  let db := store (fun _ => tt) (fun _ => "{}"%string) note [1%Q]
                  (mkDatabase libsql [] []) in
  let m := mkMemory (Metadata := unit) "mem_1" "OAuth tokens need a refresh buffer"
                    tt "default" "2025-01-01T00:00:00.000Z" (7 # 10)%Q in
  consistent db
  /\ (In m (list_memories (fun _ => tt) tt None db)
      <-> exists i, get (fun _ => tt) tt i db = Some m).
Proof.
  intros note db m.
  assert (H : consistent db) by consistent_by_computation.
  split; [exact H|]. now apply list_agrees_with_get.
Defined.

(** A note stored and searched for with its own embedding. *)
Lemma stored_memory_is_found_witness :
  let note :=
    mkMemoryArg (Metadata := unit) "mem_1" "OAuth tokens need a refresh buffer"
                tt "default" "2025-01-01T00:00:00.000Z" None in
  let put := store (fun _ => tt) (fun _ => "{}"%string) in
  let db := mkDatabase (Metadata := unit) libsql [] [] in
  let options := mkSearchOptions None None (Some "default"%string) in
  let outcome := search (fun _ => tt) tt direction_distance limit_rejects
                        (put note [1%Q] db) [1%Q] options in
  let results := match outcome with Some l => l | None => [] end in
  consistent db
  /\ direction_distance [1%Q] [1%Q] = num (Qabs (1 - 1))
  /\ (Qabs (1 - 1) == 0)%Q
  /\ ((3 # 10) <= 1)%Q
  /\ (forall col, opt_collection options = Some col -> col = arg_collection note)
  /\ outcome = Some results
  /\ ((exists r s, In r results
                   /\ get (fun _ => tt) tt (arg_id note) (put note [1%Q] db)
                      = Some (memory r)
                   /\ score r = num s /\ (s == 1)%Q)
      \/ (read_limit limit_rejects libsql 10%Q = first_rows (List.length results)
          /\ forall r, In r results -> score_at_least (score r) (num 1))).
Proof.
  intros note put db options outcome results.
  assert (H1 : consistent db) by consistent_by_computation.
  assert (H2 : direction_distance [1%Q] [1%Q] = num (Qabs (1 - 1))) by reflexivity.
  assert (H3 : (Qabs (1 - 1) == 0)%Q) by reflexivity.
  assert (H4 : ((3 # 10) <= 1)%Q) by (unfold Qle; simpl; lia).
  assert (H5 : forall col, opt_collection options = Some col ->
                           col = arg_collection note).
  { intros col H. injection H as <-. reflexivity. }
  assert (H6 : outcome = Some results) by reflexivity.
  split; [exact H1|]. split; [exact H2|]. split; [exact H3|]. split; [exact H4|].
  split; [exact H5|]. split; [exact H6|].
  exact (stored_memory_is_found unit (fun _ => tt) (fun _ => "{}"%string) tt
           direction_distance limit_rejects note [1%Q] db options
           (Qabs (1 - 1)) results H1 H2 H3 H4 H5 H6).
Defined.

End MemoryCrudFacts.

(** ** Durable stream adapter: pages of [read], the head, and what a
    subscription delivers *)

Module DurableReaderFacts.

Import DurableStreamAdapter EventStoreFacts DurableStreamFacts SubscribeFacts.

Section Reader.

Variable JSON_stringify : Event -> string.
Variable projectKey : string.

Local Abbreviation read := (read JSON_stringify projectKey).
Local Abbreviation head := (head projectKey).
Local Abbreviation toStream := (toStreamEvent JSON_stringify).
Local Abbreviation pending := (pending projectKey).

Lemma read_pending (t : EventsTable) (o : Z) (n : nat) :
  read t o n = map toStream (firstn n (order_by_sequence (pending o t))).
Proof.
  unfold DurableStreamAdapter.read, readEvents. cbn [limit offset apply_offset apply_limit].
  now rewrite stream_filter_pending.
Qed.

Lemma batch_in_pending (t : EventsTable) (o : Z) (n : nat) (e : Event) :
  In e (firstn n (order_by_sequence (pending o t))) ->
  In e t /\ project_key e = projectKey /\ o < sequence e.
Proof.
  intros H. apply firstn_In in H.
  apply (Permutation_in _ (order_by_sequence_perm _)) in H.
  apply filter_In in H. destruct H as [Hin H].
  apply andb_true_iff in H. destruct H as [Hp Ho].
  apply String.eqb_eq in Hp. apply Z.ltb_lt in Ho. auto.
Qed.

(** X12.  Every offset that read(offset, limit) returns lies above the offset
    asked for and at most at head(); so a read from the head on, or from
    beyond it, is empty. *)
Theorem read_between_offset_and_head (t : EventsTable) (o : Z) (n : nat) :
  Forall (fun se => o < se_offset se <= head t) (read t o n)
  /\ (head t <= o -> read t o n = []).
Proof.
  assert (H : Forall (fun se => o < se_offset se <= head t) (read t o n)).
  { rewrite read_pending. apply Forall_forall. intros se Hse.
    apply in_map_iff in Hse. destruct Hse as (e & <- & He).
    apply batch_in_pending in He. destruct He as (Hin & Hp & Ho).
    simpl. split; [exact Ho|].
    apply getLatestSequence_upper; [exact Hin|].
    simpl. now apply String.eqb_eq. }
  split; [exact H|].
  intros Hle. destruct (read t o n) as [|se r]; [reflexivity|].
  inversion H as [|? ? Hse _]; subst. lia.
Qed.

(** X13.  Paging with read: on a table of strictly ascending sequences, a page
    of [n] from an offset followed by a page of [m] from the last offset
    of the first page is the page of [n + m] from the first offset. *)
Theorem read_pages_compose (t : EventsTable) (o : Z) (n m : nat) :
  strictly_ascending t ->
  read t o n ++ read t (last (map se_offset (read t o n)) o) m
  = read t o (n + m).
Proof.
  intros Hs.
  assert (Hid : forall l, order_by_sequence (pending l t) = pending l t).
  { intros l. apply order_by_sequence_id, strictly_ascending_ascending.
    now apply pending_strictly_ascending. }
  rewrite !read_pending, !Hid.
  rewrite map_map. cbn [se_offset toStreamEvent].
  change (map (fun x : Event => sequence x)) with (map sequence).
  rewrite (pending_after_prefix projectKey o n t Hs).
  now rewrite <- map_app, <- firstn_plus.
Qed.

End Reader.

Section Subscriber.

Variable JSON_stringify : Event -> string.
Variable projectKey : string.
Variable callback : StreamEvent -> CallbackOutcome.

Local Abbreviation head := (head projectKey).
Local Abbreviation toStream := (toStreamEvent JSON_stringify).
Local Abbreviation pending := (pending projectKey).
Local Abbreviation deliver := (deliver JSON_stringify callback).
Local Abbreviation step := (step JSON_stringify projectKey callback).
Local Abbreviation run := (run JSON_stringify projectKey callback).
Local Abbreviation poll := (poll JSON_stringify projectKey callback).
Local Abbreviation seq_run := (seq_run JSON_stringify projectKey callback).

(** A subscription that waits for its head read: nothing polled, nothing
    delivered. *)
Local Abbreviation waiting h s :=
  (initialized s = false /\ pendingHead s = Some h
   /\ inFlight s = [] /\ received s = []).

(** An event of the project stored in [t] above [h]. *)
Local Abbreviation stored_above h t :=
  (fun e : Event => In e t /\ project_key e = projectKey /\ h < sequence e).

(** A subscription that started at or above [h]: all it has read or
    delivered is stored in [t] for the project, above [h]. *)
Local Abbreviation started h t s :=
  (initialized s = true /\ pendingHead s = None /\ h <= lastSequence s
   /\ Forall (Forall (stored_above h t)) (inFlight s)
   /\ Forall (fun se => exists e, stored_above h t e /\ se = toStream e)
             (received s)).

Lemma deliver_started (h : Z) (t : EventsTable) (events : list Event)
      (s : Subscription) :
  started h t s -> Forall (stored_above h t) events ->
  started h t (deliver events s).
Proof.
  revert s. induction events as [|e r IH]; intros s Hs He; [exact Hs|].
  inversion He as [|? ? He1 He2]; subst.
  destruct Hs as (Hi & Hp & Hl & Hf & Hr).
  assert (Hgot : Forall (fun se => exists e, stored_above h t e /\ se = toStream e)
                        (received s ++ [toStream e])).
  { apply Forall_app. split; [exact Hr|].
    constructor; [now exists e|constructor]. }
  simpl. destruct (isActive s); simpl; [|now repeat split].
  destruct (callback (toStream e)).
  - apply IH; [|exact He2]. simpl. repeat split; auto. lia.
  - apply IH; [|exact He2]. simpl. repeat split; auto. lia.
  - simpl. repeat split; auto.
Qed.

Lemma remove_nth_Forall {A : Type} (P : A -> Prop) (i : nat) (l : list A) :
  Forall P l -> Forall P (remove_nth i l).
Proof.
  revert i. induction l as [|x r IH]; intros i H; destruct i; simpl; auto.
  - now inversion H.
  - inversion H; subst. constructor; auto.
Qed.

Lemma started_grows (h : Z) (t t' : EventsTable) (s : Subscription) :
  (forall e, In e t -> In e t') -> started h t s -> started h t' s.
Proof.
  intros Hsub (Hi & Hp & Hl & Hf & Hr). repeat split; auto.
  - eapply Forall_impl; [|exact Hf]. intros batch Hb.
    eapply Forall_impl; [|exact Hb]. intros e (H1 & H2 & H3). auto.
  - eapply Forall_impl; [|exact Hr].
    intros se (e & (H1 & H2 & H3) & He). exists e. auto.
Qed.

Lemma step_waiting (h : Z) (w : World) (a : Action) :
  waiting h (sub w) -> a <> InitResolves -> waiting h (sub (step w a)).
Proof.
  intros (Hi & Hp & Hf & Hr) Ha. destruct a; simpl; [tauto|congruence| | | |tauto].
  - unfold intervalFires. rewrite Hi.
    destruct (pollInterval (sub w)); simpl; [|tauto].
    rewrite orb_true_r. tauto.
  - unfold readResolves. rewrite Hf.
    destruct i; simpl; tauto.
  - simpl. rewrite Hf. destruct i; simpl; tauto.
Qed.

Lemma step_keeps_started (h : Z) (w : World) (a : Action) :
  started h (table w) (sub w) ->
  started h (table (step w a)) (sub (step w a)).
Proof.
  intros Hs. destruct a.
  - apply (started_grows h (table w)); [|exact Hs].
    intros e He. simpl. apply in_or_app. now left.
  - destruct Hs as (Hi & Hp & Hl & Hf & Hr). simpl.
    unfold initResolves. rewrite Hp. tauto.
  - destruct Hs as (Hi & Hp & Hl & Hf & Hr). simpl.
    unfold intervalFires.
    destruct (pollInterval (sub w)); simpl; [|tauto].
    destruct (negb (isActive (sub w)) || negb (initialized (sub w)));
      [tauto|].
    cbn [initialized pendingHead lastSequence inFlight received].
    repeat split; auto.
    apply Forall_app. split; [exact Hf|]. constructor; [|constructor].
    apply Forall_forall. intros e He.
    unfold readEvents in He.
    cbn [limit offset apply_offset apply_limit] in He.
    rewrite stream_filter_pending in He.
    apply DurableReaderFacts.batch_in_pending in He.
    destruct He as (H1 & H2 & H3). repeat split; auto. lia.
  - destruct Hs as (Hi & Hp & Hl & Hf & Hr). simpl.
    unfold readResolves.
    destruct (nth_error (inFlight (sub w)) i) as [events|] eqn:E; [|tauto].
    apply deliver_started.
    + simpl. repeat split; auto. now apply remove_nth_Forall.
    + rewrite Forall_forall in Hf. apply Hf. eapply nth_error_In, E.
  - destruct Hs as (Hi & Hp & Hl & Hf & Hr). simpl.
    repeat split; auto. now apply remove_nth_Forall.
  - destruct Hs as (Hi & Hp & Hl & Hf & Hr). simpl. tauto.
Qed.

Lemma run_keeps_started (h : Z) (schedule : list Action) (w : World) :
  started h (table w) (sub w) ->
  started h (table (run w schedule)) (sub (run w schedule)).
Proof.
  revert w. induction schedule as [|a r IH]; intros w H; [exact H|].
  simpl. apply IH. now apply step_keeps_started.
Qed.

Lemma step_started (h : Z) (w : World) (a : Action) :
  waiting h (sub w) \/ started h (table w) (sub w) ->
  waiting h (sub (step w a)) \/ started h (table (step w a)) (sub (step w a)).
Proof.
  intros [Hw|Hs]; [|right; now apply step_keeps_started].
  destruct a; try (left; apply step_waiting; [exact Hw|discriminate]).
  right. destruct Hw as (Hi & Hp & Hf & Hr). simpl.
  unfold initResolves. rewrite Hp. simpl. rewrite Hf, Hr.
  repeat split; auto. lia.
Qed.

Lemma run_started (h : Z) (schedule : list Action) (w : World) :
  waiting h (sub w) \/ started h (table w) (sub w) ->
  waiting h (sub (run w schedule))
  \/ started h (table (run w schedule)) (sub (run w schedule)).
Proof.
  revert w. induction schedule as [|a r IH]; intros w H; [exact H|].
  simpl. apply IH. now apply step_started.
Qed.

Lemma run_waiting (h : Z) (schedule : list Action) (w : World) :
  waiting h (sub w) -> ~ In InitResolves schedule ->
  waiting h (sub (run w schedule)).
Proof.
  revert w. induction schedule as [|a r IH]; intros w H Hno; [exact H|].
  simpl. apply IH.
  - apply step_waiting; [exact H|]. intros ->. apply Hno. now left.
  - intros Hin. apply Hno. now right.
Qed.

(** X22.  Whatever the schedule of appends, ticks, reads that resolve (in any
    order, polls overlapping or not) or reject, and unsubscribe, every
    call of the callback of a subscription from a start offset carries an
    event that is stored for the adapter's project, with a sequence above
    the start offset. *)
Theorem subscribe_delivers_stored_events (o : Z) (t : EventsTable)
        (schedule : list Action) :
  let w := run (mkWorld t (subscribe projectKey (Some o) t)) schedule in
  Forall (fun se => exists e, In e (table w) /\ project_key e = projectKey
                              /\ o < sequence e /\ se = toStream e)
         (received (sub w)).
Proof.
  intros w. subst w.
  assert (H0 : started o t (subscribe projectKey (Some o) t)).
  { simpl. repeat split; auto. lia. }
  destruct (run_keeps_started o schedule
              (mkWorld t (subscribe projectKey (Some o) t)) H0)
    as (_ & _ & _ & _ & Hr).
  eapply Forall_impl; [|exact Hr].
  intros se (e & (H1 & H2 & H3) & He). exists e. auto.
Qed.

(** X14.  subscribe without a start offset: whatever the schedule of appends,
    ticks and reads, the callback only gets events above the head read
    when subscribing, so none of the project's events stored before; and
    it gets nothing as long as that head read has not resolved. *)
Theorem subscribe_skips_history (t : EventsTable) (schedule : list Action) :
  let w := run (mkWorld t (subscribe projectKey None t)) schedule in
  Forall (fun se => head t < se_offset se) (received (sub w))
  /\ (forall x, In x t -> project_key x = projectKey ->
                ~ In (toStream x) (received (sub w)))
  /\ (~ In InitResolves schedule -> received (sub w) = []).
Proof.
  intros w. subst w.
  assert (H0 : waiting (head t) (sub (mkWorld t (subscribe projectKey None t))))
    by (simpl; tauto).
  assert (H : Forall (fun se => head t < se_offset se)
                     (received (sub (run (mkWorld t (subscribe projectKey None t))
                                         schedule)))).
  { destruct (run_started (head t) schedule _ (or_introl H0))
      as [(_ & _ & _ & ->)|(_ & _ & _ & _ & Hr)]; [constructor|].
    eapply Forall_impl; [|exact Hr].
    intros se (e & (H1 & H2 & H3) & ->). exact H3. }
  split; [exact H|]. split.
  - intros x Hx Hp Hin. rewrite Forall_forall in H.
    specialize (H _ Hin). simpl in H.
    assert (sequence x <= head t).
    { apply getLatestSequence_upper; [exact Hx|]. simpl. now apply String.eqb_eq. }
    lia.
  - intros Hno. now destruct (run_waiting (head t) schedule _ H0 Hno) as (_ & _ & _ & ->).
Qed.

(** One poll of an idle subscription whose callback throws on the first
    event of the batch. *)
Lemma poll_throws (t : EventsTable) (s : Subscription) (e : Event)
      (rest : list Event) :
  idle s ->
  firstn 100 (order_by_sequence (pending (lastSequence s) t)) = e :: rest ->
  callback (toStream e) = cb_throws ->
  poll (mkWorld t s)
  = mkWorld t (mkSubscription (lastSequence s) true true true None []
                              (received s ++ [toStream e])).
Proof.
  intros (Ha & Hi & Hp & Hh & Hf) Hb Hc.
  unfold DurableStreamAdapter.poll, DurableStreamAdapter.step.
  cbn [sub table].
  unfold intervalFires. rewrite Hp, Ha, Hi, Hf.
  cbn [negb orb sub app List.length].
  unfold readResolves.
  cbn [inFlight nth_error remove_nth lastSequence isActive initialized
       pollInterval pendingHead received].
  unfold readEvents. cbn [limit offset apply_offset apply_limit].
  rewrite stream_filter_pending, Hb.
  cbn [DurableStreamAdapter.deliver isActive negb].
  rewrite Hc. cbn [lastSequence isActive initialized pollInterval pendingHead
                   inFlight received].
  now rewrite Hh.
Qed.

(** X15.  A callback that throws on an event keeps the subscription on that
    event: [lastSequence] is not advanced, so every further poll calls
    the callback with the same event again and with nothing after it. *)
Theorem throwing_callback_redelivers (t : EventsTable) (s : Subscription)
        (e : Event) (rest : list Event) (n : nat) :
  idle s ->
  firstn 100 (order_by_sequence (pending (lastSequence s) t)) = e :: rest ->
  callback (toStream e) = cb_throws ->
  let w := seq_run (mkWorld t s) (repeat SeqPoll n) in
  table w = t
  /\ lastSequence (sub w) = lastSequence s
  /\ received (sub w) = received s ++ repeat (toStream e) n.
Proof.
  intros Hidle Hb Hc. revert s Hidle Hb.
  induction n as [|n IH]; intros s Hidle Hb w.
  - subst w. simpl. now rewrite app_nil_r.
  - subst w.
    change (seq_run (mkWorld t s) (repeat SeqPoll (S n)))
      with (seq_run (poll (mkWorld t s)) (repeat SeqPoll n)).
    rewrite (poll_throws t s e rest Hidle Hb Hc).
    set (s1 := mkSubscription (lastSequence s) true true true None []
                              (received s ++ [toStream e])).
    assert (H1 : idle s1) by (repeat split).
    destruct (IH s1 H1 Hb) as (Ht & Hl & Hr).
    split; [exact Ht|]. split; [exact Hl|].
    rewrite Hr. simpl. now rewrite <- app_assoc.
Qed.

End Subscriber.

(** Three events of the project and pages of one and two. *)
Lemma read_pages_compose_witness :
  let t := insertEvents
             [mkNewEvent "/p" 1000 (agent_registered "A" "opencode" "m" "Testing");
              mkNewEvent "/q" 1001 (agent_active "B");
              mkNewEvent "/p" 1002 (agent_active "A");
              mkNewEvent "/p" 1003 (agent_active "A")] [] in
  let read := read type "/p" in
  strictly_ascending t
  /\ read t 0 1%nat ++ read t (last (map se_offset (read t 0 1%nat)) 0) 2%nat
     = read t 0 (1 + 2)%nat.
Proof.
  intros t read.
  assert (H : strictly_ascending t)
    by (apply insertEvents_strictly_ascending, empty_strictly_ascending).
  split; [exact H|]. now apply read_pages_compose.
Defined.

(** A callback that always throws, one stored event, three polls. *)
Lemma throwing_callback_redelivers_witness :
  let t := insertEvents [mkNewEvent "/p" 1000 (agent_active "A")] [] in
  let s := subscribe "/p" (Some 0) t in
  let e := mkEvent 1 1 "/p" 1000 (agent_active "A") in
  let throws := fun _ : StreamEvent => cb_throws in
  let w := seq_run type "/p" throws (mkWorld t s) (repeat SeqPoll 3) in
  idle s
  /\ firstn 100 (order_by_sequence (pending "/p" (lastSequence s) t)) = [e]
  /\ throws (toStreamEvent type e) = cb_throws
  /\ table w = t
  /\ lastSequence (sub w) = lastSequence s
  /\ received (sub w) = received s ++ repeat (toStreamEvent type e) 3.
Proof.
  intros t s e throws w.
  assert (H1 : idle s) by (repeat split).
  assert (H2 : firstn 100 (order_by_sequence (pending "/p" (lastSequence s) t)) = [e])
    by reflexivity.
  assert (H3 : throws (toStreamEvent type e) = cb_throws) by reflexivity.
  split; [exact H1|]. split; [exact H2|]. split; [exact H3|].
  exact (throwing_callback_redelivers type "/p" throws t s e [] 3 H1 H2 H3).
Defined.

End DurableReaderFacts.

Module SequentialReaderFacts.

Import DurableStreamAdapter EventStoreFacts.

(** A reader over an empty table: an append and a poll, a reconnect at
    the last offset, then two appends and two polls. *)
Lemma sequential_resumption_witness :
  let seq_run := seq_run type "/p" always_returns in
  let a := fun n => SeqAppend (mkNewEvent "/p" n (agent_active "A")) in
  let s1 := [a 1000; SeqPoll] in
  let s2 := [a 1001; a 1002; SeqPoll; SeqPoll] in
  let w0 := mkWorld [] (subscribe "/p" (Some 0) []) in
  let w1 := seq_run w0 s1 in
  let lastOffset := last (map se_offset (received (sub w1))) 0 in
  let w2 :=
    seq_run (mkWorld (table w1) (subscribe "/p" (Some lastOffset) (table w1))) s2 in
  let w := seq_run w0 (s1 ++ s2) in
  strictly_ascending []
  /\ table w = table w2
  /\ received (sub w) = received (sub w1) ++ received (sub w2)
  /\ (exists k, received (sub w2)
                = map (toStreamEvent type)
                      (firstn k (pending "/p" lastOffset (table w2))))
  /\ (exists k, received (sub w)
                = map (toStreamEvent type) (firstn k (pending "/p" 0 (table w)))).
Proof.
  intros seq_run a s1 s2 w0 w1 lastOffset w2 w.
  assert (H : strictly_ascending []) by constructor.
  split; [exact H|].
  exact (SubscribeFacts.sequential_resumption type "/p" [] s1 s2 H).
Defined.

(** Two stored events and a fresh subscription from offset 0: one poll
    delivers both. *)
Lemma poll_catches_up_witness :
  let t := insertEvents
             [mkNewEvent "/p" 1000 (agent_active "A");
              mkNewEvent "/p" 1001 (agent_active "B")] [] in
  let s := subscribe "/p" (Some 0) t in
  idle s
  /\ strictly_ascending t
  /\ received_prefix type "/p" 0 0 t s
  /\ (List.length (pending "/p" 0 t) <= 0 + 100)%nat
  /\ received (sub (poll type "/p" always_returns (mkWorld t s)))
     = map (toStreamEvent type) (pending "/p" 0 t).
Proof.
  intros t s.
  assert (H1 : idle s) by (repeat split).
  assert (H2 : strictly_ascending t)
    by (apply insertEvents_strictly_ascending, empty_strictly_ascending).
  assert (H3 : received_prefix type "/p" 0 0 t s)
    by (repeat split; simpl; lia).
  assert (H4 : (List.length (pending "/p" 0 t) <= 0 + 100)%nat)
    by (simpl; lia).
  split; [exact H1|]. split; [exact H2|]. split; [exact H3|]. split; [exact H4|].
  exact (SubscribeFacts.poll_catches_up type "/p" 0 0%nat t s H1 H2 H3 H4).
Defined.

End SequentialReaderFacts.

(** ** Transactions that only call [tx.exec] *)

Module LibSQLExecOnlyFacts.

Import LibSQL LibSQLExecOnly.

Section Client.

Variable Database : Type.
Variable Row : Type.
Variable Arg : Type.
Variable execute : InStatement Arg -> Database -> Thrown + (list Row * Database).

Lemma run_fn_exec_only {T : Type} (fn : TxProg Row Arg T) :
  exec_only fn = true ->
  forall db collected seen,
    db_after (run_fn execute fn db collected seen) = db
    /\ txStatements (run_fn execute fn db collected seen)
       = collected ++ exec_statements fn
    /\ (forall v, outcome (run_fn execute fn db collected seen) = inl v ->
                  exec_statements fn = [] -> collected = [] ->
                  txStatements (run_fn execute fn db collected seen) = []).
Proof.
  induction fn as [v|x|s params k IH|s k IH]; simpl; intros H db collected seen.
  - rewrite app_nil_r. auto.
  - rewrite app_nil_r. auto.
  - discriminate.
  - destruct (IH H db (collected ++ [mkInStatement s None]) seen) as (Hd & Hs & _).
    split; [exact Hd|]. split; [now rewrite Hs, <- app_assoc|].
    intros v _ Hnil. discriminate.
Qed.

(** X17.  A transaction whose function only calls [tx.exec] is all or nothing:
    either it resolves and the database is the one the batch of all its
    statements, in call order, produces, or it rejects and the database
    is as it was. *)
Theorem exec_only_all_or_nothing {T : Type} (fn : TxProg Row Arg T)
        (db : Database) :
  exec_only fn = true ->
  (exists v, fst (transaction execute fn db) = inl v
             /\ batch execute (exec_statements fn) db
                = inr (snd (transaction execute fn db)))
  \/ (exists err, fst (transaction execute fn db) = inr err
                  /\ snd (transaction execute fn db) = db).
Proof.
  intros H. destruct (run_fn_exec_only fn H db [] []) as (Hd & Hs & _).
  simpl in Hs. unfold transaction. rewrite Hd, Hs.
  destruct (outcome (run_fn execute fn db [] [])) as [v|x].
  - destruct (exec_statements fn) as [|st rest] eqn:E.
    + left. exists v. split; reflexivity.
    + destruct (batch execute (st :: rest) db) as [err|db'] eqn:Eb.
      * right. eexists. split; reflexivity.
      * left. exists v. split; reflexivity.
  - right. eexists. split; reflexivity.
Qed.

End Client.

(** Two inserts, the second with a statement the database rejects:
    nothing is inserted. *)
Lemma exec_only_all_or_nothing_witness :
  let fn := TxExec (Row := Z) (Arg := Z) "INSERT INTO t VALUES (1)"
              (TxExec "INSERT INTO u VALUES (1)" (Return tt)) in
  exec_only fn = true
  /\ ((exists v, fst (transaction mini_execute fn [5]) = inl v
                 /\ batch mini_execute (exec_statements fn) [5]
                    = inr (snd (transaction mini_execute fn [5])))
      \/ (exists err, fst (transaction mini_execute fn [5]) = inr err
                      /\ snd (transaction mini_execute fn [5]) = [5])).
Proof.
  intros fn.
  assert (H : exec_only fn = true) by reflexivity.
  split; [exact H|]. exact (exec_only_all_or_nothing _ _ _ mini_execute fn [5] H).
Defined.

End LibSQLExecOnlyFacts.

(** ** Cell adapter *)

Module BeadsAdapterFacts.

Import Beads BeadsAdapter.

Section Adapter.

Variable Db : Type.
Variable appendBeadEvent : BeadEvent -> Db -> string + Db.
Variable getBead : Db -> string -> string -> option Bead.

Local Abbreviation updateBead := (updateBead Db appendBeadEvent getBead).

Lemma option_string_eqb_eq (a b : option string) :
  option_string_eqb a b = true <-> a = b.
Proof.
  destruct a as [x|], b as [y|]; simpl; try (split; [discriminate|discriminate]);
    try tauto.
  rewrite String.eqb_eq. split; congruence.
Qed.

Lemma title_change_spec (o : UpdateBeadOptions) (b : Bead) :
  (title_change o b = [] <->
   u_title o = None \/ u_title o = Some EmptyString \/ u_title o = Some (title b))
  /\ (forall k c, In (k, c) (title_change o b) ->
        k = "title"%string /\ old c <> new c
        /\ old c = value_string (title b)
        /\ exists t, u_title o = Some t /\ new c = value_string t).
Proof.
  unfold title_change. destruct (u_title o) as [t|]; [|split; [tauto|intros ? ? []]].
  destruct (String.eqb t EmptyString) eqn:E1; simpl.
  - apply String.eqb_eq in E1. subst. split; [tauto|intros ? ? []].
  - destruct (String.eqb t (title b)) eqn:E2; simpl.
    + apply String.eqb_eq in E2. subst. split; [tauto|intros ? ? []].
    + apply String.eqb_neq in E1, E2. split.
      * split; [discriminate|]. intros [H|[H|H]]; congruence.
      * intros k c [H|[]]. injection H as <- <-. simpl.
        repeat split; [congruence|]. now exists t.
Qed.

Lemma description_change_spec (o : UpdateBeadOptions) (b : Bead) :
  (description_change o b = [] <->
   u_description o = None \/ u_description o = description b)
  /\ (forall k c, In (k, c) (description_change o b) ->
        k = "description"%string /\ old c <> new c
        /\ old c = value_of_text (description b)
        /\ exists d, u_description o = Some d /\ new c = value_string d).
Proof.
  unfold description_change. destruct (u_description o) as [d|];
    [|split; [tauto|intros ? ? []]].
  destruct (option_string_eqb (Some d) (description b)) eqn:E; simpl.
  - apply option_string_eqb_eq in E. split; [tauto|intros ? ? []].
  - assert (Hne : Some d <> description b).
    { intros H. apply option_string_eqb_eq in H. congruence. }
    split.
    + split; [discriminate|]. intros [H|H]; congruence.
    + intros k c [H|[]]. injection H as <- <-. simpl.
      repeat split; [|now exists d].
      destruct (description b); simpl; congruence.
Qed.

Lemma priority_change_spec (o : UpdateBeadOptions) (b : Bead) :
  (priority_change o b = [] <->
   u_priority o = None \/ u_priority o = Some (priority b))
  /\ (forall k c, In (k, c) (priority_change o b) ->
        k = "priority"%string /\ old c <> new c
        /\ old c = value_number (priority b)
        /\ exists p, u_priority o = Some p /\ new c = value_number p).
Proof.
  unfold priority_change. destruct (u_priority o) as [p|];
    [|split; [tauto|intros ? ? []]].
  destruct (p =? priority b) eqn:E; simpl.
  - apply Z.eqb_eq in E. subst. split; [tauto|intros ? ? []].
  - apply Z.eqb_neq in E. split.
    + split; [discriminate|]. intros [H|H]; congruence.
    + intros k c [H|[]]. injection H as <- <-. simpl.
      repeat split; [congruence|]. now exists p.
Qed.

Lemma assignee_change_spec (o : UpdateBeadOptions) (b : Bead) :
  (assignee_change o b = [] <->
   u_assignee o = None \/ u_assignee o = assignee b)
  /\ (forall k c, In (k, c) (assignee_change o b) ->
        k = "assignee"%string /\ old c <> new c
        /\ old c = value_of_text (assignee b)
        /\ exists a, u_assignee o = Some a /\ new c = value_string a).
Proof.
  unfold assignee_change. destruct (u_assignee o) as [a|];
    [|split; [tauto|intros ? ? []]].
  destruct (option_string_eqb (Some a) (assignee b)) eqn:E; simpl.
  - apply option_string_eqb_eq in E. split; [tauto|intros ? ? []].
  - assert (Hne : Some a <> assignee b).
    { intros H. apply option_string_eqb_eq in H. congruence. }
    split.
    + split; [discriminate|]. intros [H|H]; congruence.
    + intros k c [H|[]]. injection H as <- <-. simpl.
      repeat split; [|now exists a].
      destruct (assignee b); simpl; congruence.
Qed.

(** X19.  updateBead on a cell that is there: every change it records is a
    real one (old and new differ, old is the cell's value); it records
    none exactly when each field given equals the cell's value, an empty
    title counting as not given, and then it returns the cell as it is
    and leaves the database alone; otherwise it appends one bead_updated
    event with these changes and reads the cell back. *)
Theorem updateBead_records_real_changes (projectKeyParam beadId : string)
        (options : UpdateBeadOptions) (now : Z) (db : Db) (existingBead : Bead) :
  getBead db projectKeyParam beadId = Some existingBead ->
  (forall k c, In (k, c) (changes_of options existingBead) -> old c <> new c)
  /\ (changes_of options existingBead = [] <->
      (u_title options = None \/ u_title options = Some EmptyString
       \/ u_title options = Some (title existingBead))
      /\ (u_description options = None
          \/ u_description options = description existingBead)
      /\ (u_priority options = None
          \/ u_priority options = Some (priority existingBead))
      /\ (u_assignee options = None
          \/ u_assignee options = assignee existingBead))
  /\ (changes_of options existingBead = [] ->
      updateBead projectKeyParam beadId options now db = (inr existingBead, db))
  /\ (changes_of options existingBead <> [] ->
      updateBead projectKeyParam beadId options now db
      = append_and_reload Db appendBeadEvent getBead
          (bead_updated projectKeyParam beadId now
                        (changes_of options existingBead)
                        (text_or_null (u_updated_by options)))
          projectKeyParam beadId
          "[BeadsAdapter] Bead disappeared after update: " db).
Proof.
  intros Hget.
  destruct (title_change_spec options existingBead) as [Ht1 Ht2].
  destruct (description_change_spec options existingBead) as [Hd1 Hd2].
  destruct (priority_change_spec options existingBead) as [Hp1 Hp2].
  destruct (assignee_change_spec options existingBead) as [Ha1 Ha2].
  split; [|split; [|split]].
  - intros k c Hin. unfold changes_of in Hin.
    repeat (apply in_app_or in Hin; destruct Hin as [Hin|Hin]).
    + now apply Ht2 in Hin.
    + now apply Hd2 in Hin.
    + now apply Hp2 in Hin.
    + now apply Ha2 in Hin.
  - unfold changes_of. rewrite <- Ht1, <- Hd1, <- Hp1, <- Ha1. split.
    + intros H. apply app_eq_nil in H. destruct H as [H1 H].
      apply app_eq_nil in H. destruct H as [H2 H].
      apply app_eq_nil in H. tauto.
    + intros (-> & -> & -> & ->). reflexivity.
  - intros H. unfold BeadsAdapter.updateBead. now rewrite Hget, H.
  - intros H. unfold BeadsAdapter.updateBead. rewrite Hget.
    destruct (changes_of options existingBead); [contradiction|reflexivity].
Qed.

End Adapter.

(** *** getBeadsStats *)

Lemma BeadType_eqb_eq (a b : BeadType) : BeadType_eqb a b = true <-> a = b.
Proof. destruct a, b; simpl; split; congruence. Qed.

Lemma count_partition (rows : list Bead) :
  List.length rows
  = (List.length (filter (fun b => BeadStatus_eqb (status b) open) rows)
     + List.length (filter (fun b => BeadStatus_eqb (status b) in_progress) rows)
     + List.length (filter (fun b => BeadStatus_eqb (status b) blocked) rows)
     + List.length (filter (fun b => BeadStatus_eqb (status b) closed) rows)
     + List.length (filter (fun b => BeadStatus_eqb (status b) tombstone) rows))%nat.
Proof.
  induction rows as [|b r IH]; simpl; [reflexivity|].
  destruct (status b); simpl; lia.
Qed.

Lemma filter_and {A : Type} (p q : A -> bool) (l : list A) :
  filter (fun x => p x && q x) l = filter q (filter p l).
Proof.
  induction l as [|x r IH]; simpl; [reflexivity|].
  destruct (p x); simpl; [destruct (q x)|]; now rewrite IH.
Qed.

Lemma list_sum_indicator (x : BeadType) (ks : list BeadType) :
  NoDup ks -> In x ks ->
  list_sum (map (fun ty => if BeadType_eqb x ty then 1%nat else 0%nat) ks) = 1%nat.
Proof.
  induction ks as [|k r IH]; intros Hnd Hin; [contradiction|].
  inversion Hnd as [|? ? Hk Hr]; subst. simpl.
  destruct (BeadType_eqb x k) eqn:E.
  - apply BeadType_eqb_eq in E. subst k.
    assert (H0 : list_sum (map (fun ty => if BeadType_eqb x ty then 1%nat else 0%nat) r)
                 = 0%nat).
    { clear IH Hnd Hr Hin. induction r as [|y r IH]; [reflexivity|]. simpl.
      destruct (BeadType_eqb x y) eqn:Ey.
      - apply BeadType_eqb_eq in Ey. subst. exfalso. apply Hk. now left.
      - apply IH. intros H. apply Hk. now right. }
    now rewrite H0.
  - destruct Hin as [->|Hin].
    + assert (H : BeadType_eqb x x = true) by now apply BeadType_eqb_eq.
      congruence.
    + now rewrite IH.
Qed.

Lemma list_sum_map_add {A : Type} (f g : A -> nat) (l : list A) :
  list_sum (map (fun x => (f x + g x)%nat) l)
  = (list_sum (map f l) + list_sum (map g l))%nat.
Proof. induction l as [|x r IH]; simpl; lia. Qed.

Lemma list_sum_groups (rows : list Bead) (ks : list BeadType) :
  NoDup ks -> (forall b, In b rows -> In (type b) ks) ->
  list_sum
    (map (fun ty => List.length (filter (fun b => BeadType_eqb (type b) ty) rows)) ks)
  = List.length rows.
Proof.
  intros Hnd. induction rows as [|b r IH]; intros Hin.
  - simpl. clear. induction ks as [|k ks IHk]; [reflexivity|exact IHk].
  - transitivity
      (list_sum (map (fun ty => if BeadType_eqb (type b) ty then 1%nat else 0%nat) ks)
       + list_sum
           (map (fun ty =>
                   List.length (filter (fun b => BeadType_eqb (type b) ty) r)) ks))%nat.
    + rewrite <- list_sum_map_add. f_equal. apply map_ext. intros ty.
      simpl. now destruct (BeadType_eqb (type b) ty).
    + rewrite list_sum_indicator; [|exact Hnd|apply Hin; now left].
      rewrite IH; [reflexivity|]. intros x Hx. apply Hin. now right.
Qed.

(** X20.  getBeadsStats: the total of the project is the sum of the four
    status counts and the tombstones, which no count reports; the counts
    by type add up to the total, with one entry for each type that occurs
    and none that is 0. *)
Theorem stats_add_up (projectKey : string) (beads : list Bead) :
  let s := getBeadsStats projectKey beads in
  total_beads s
  = (stats_open s + stats_in_progress s + stats_blocked s + stats_closed s
     + count_status projectKey tombstone beads)%nat
  /\ list_sum (map snd (by_type s)) = total_beads s
  /\ NoDup (map fst (by_type s))
  /\ (forall ty n, In (ty, n) (by_type s) ->
        (0 < n)%nat
        /\ n = List.length
                 (filter (fun b => String.eqb (project_key b) projectKey
                                   && BeadType_eqb (type b) ty) beads)).
Proof.
  simpl. unfold count_status, count_by_type.
  set (rows := filter (fun b => String.eqb (project_key b) projectKey) beads).
  rewrite !filter_and. fold rows.
  split; [apply count_partition|].
  rewrite !map_map. cbn [fst snd]. rewrite map_id.
  split; [|split].
  - apply list_sum_groups; [apply NoDup_nodup|].
    intros b Hb. apply nodup_In. now apply in_map.
  - apply NoDup_nodup.
  - intros ty n Hin. apply in_map_iff in Hin.
    destruct Hin as (ty' & H & Hty). injection H as -> <-.
    split; [|now rewrite filter_and].
    apply nodup_In, in_map_iff in Hty. destruct Hty as (b & Hb & Hin).
    assert (H : In b (filter (fun b => BeadType_eqb (type b) ty) rows)).
    { apply filter_In. split; [exact Hin|]. now apply BeadType_eqb_eq. }
    destruct (filter _ rows); [contradiction|simpl; lia].
Qed.

(** *** generateBeadId *)

Lemma to_int32_mod (x : Z) : to_int32 x mod 2 ^ 32 = x mod 2 ^ 32.
Proof.
  unfold to_int32.
  rewrite Zminus_mod, Zmod_mod, <- Zminus_mod.
  f_equal. lia.
Qed.

Lemma to_int32_range (x : Z) : - 2 ^ 31 <= to_int32 x < 2 ^ 31.
Proof.
  unfold to_int32.
  pose proof (Z.mod_pos_bound (x + 2 ^ 31) (2 ^ 32) ltac:(lia)). lia.
Qed.

Lemma to_int32_congruent (x y : Z) :
  x mod 2 ^ 32 = y mod 2 ^ 32 -> to_int32 x = to_int32 y.
Proof.
  intros H. unfold to_int32. f_equal.
  rewrite (Zplus_mod x), (Zplus_mod y), H. reflexivity.
Qed.

Lemma to_int32_fixed (x : Z) : - 2 ^ 31 <= x < 2 ^ 31 -> to_int32 x = x.
Proof.
  intros H. unfold to_int32. rewrite Z.mod_small; lia.
Qed.

(** One step of the hash is [31 * acc + code] brought back to 32 bits. *)
Lemma hash_step_31 (acc code : Z) :
  hash_step acc code = to_int32 (31 * acc + code).
Proof.
  unfold hash_step, shl5. apply to_int32_congruent.
  rewrite Z.shiftl_mul_pow2 by lia.
  rewrite (Zplus_mod (_ - acc)), (Zminus_mod _ acc), to_int32_mod.
  rewrite (Zmult_mod (to_int32 acc)), to_int32_mod.
  rewrite <- Zmult_mod, <- Zminus_mod, <- Zplus_mod.
  f_equal. lia.
Qed.

Lemma fold_hash_congruent (units : list Z) (a a' : Z) :
  a mod 2 ^ 32 = a' mod 2 ^ 32 ->
  fold_left hash_step units a mod 2 ^ 32
  = fold_left (fun acc code => 31 * acc + code) units a' mod 2 ^ 32.
Proof.
  revert a a'. induction units as [|c r IH]; intros a a' H; [exact H|].
  simpl. apply IH. rewrite hash_step_31, to_int32_mod.
  rewrite (Zplus_mod (31 * a)), (Zplus_mod (31 * a')).
  rewrite (Zmult_mod 31 a), (Zmult_mod 31 a'), H. reflexivity.
Qed.

Lemma fold_hash_range (units : list Z) (a : Z) :
  - 2 ^ 31 <= a < 2 ^ 31 ->
  - 2 ^ 31 <= fold_left hash_step units a < 2 ^ 31.
Proof.
  revert a. induction units as [|c r IH]; intros a H; [exact H|].
  simpl. apply IH. apply to_int32_range.
Qed.

(** X21.  The hash that generateBeadId takes of the project key is the
    polynomial in 31 over its code units, wrapped to a signed 32-bit
    integer: it depends on the key alone and lies in the 32-bit range. *)
Theorem hash_code_is_polynomial_31 (units : list Z) :
  hash_code units = to_int32 (polynomial_31 units)
  /\ - 2 ^ 31 <= hash_code units < 2 ^ 31.
Proof.
  assert (Hr : - 2 ^ 31 <= hash_code units < 2 ^ 31)
    by (apply fold_hash_range; lia).
  split; [|exact Hr].
  rewrite <- (to_int32_fixed _ Hr).
  apply to_int32_congruent, fold_hash_congruent. reflexivity.
Qed.

(** The key "ab": 97 * 31 + 98; and a key long enough to wrap. *)
Example hash_code_small_keys :
  hash_code [97; 98] = 3105
  /\ hash_code [47; 116; 101; 115; 116; 47; 112; 114; 111; 106; 101; 99; 116]
     = to_int32 (polynomial_31 [47; 116; 101; 115; 116; 47; 112; 114; 111;
                                106; 101; 99; 116])
  /\ polynomial_31 [47; 116; 101; 115; 116; 47; 112; 114; 111; 106; 101; 99; 116]
     > 2 ^ 31.
Proof. vm_compute. repeat split. Qed.

(** A cell whose title is given again and whose priority is raised: one
    change is recorded. *)
Lemma updateBead_records_real_changes_witness :
  let b := mkBead "bd-1" "/p" task open "Fix login" None 2 None None
                  1000 1000 None None None None None None in
  let appendBeadEvent :=
    fun (e : BeadEvent) (db : list BeadEvent) => inr (A := string) (db ++ [e]) in
  let getBead := fun (db : list BeadEvent) (_ _ : string) => Some b in
  let options := mkUpdateBeadOptions (Some "Fix login"%string) None (Some 1) None None in
  getBead [] "/p"%string "bd-1"%string = Some b
  /\ changes_of options b
     = [("priority"%string, mkChange (value_number 2) (value_number 1))]
  /\ snd (updateBead (list BeadEvent) appendBeadEvent getBead "/p" "bd-1"
                     options 2000 [])
     = [bead_updated "/p" "bd-1" 2000
          [("priority"%string, mkChange (value_number 2) (value_number 1))] None].
Proof.
  intros b appendBeadEvent getBead options.
  assert (H : getBead [] "/p"%string "bd-1"%string = Some b) by reflexivity.
  split; [exact H|]. split; [reflexivity|].
  destruct (updateBead_records_real_changes (list BeadEvent) appendBeadEvent
              getBead "/p" "bd-1" options 2000 [] b H) as (_ & _ & _ & Hupd).
  rewrite Hupd by discriminate. reflexivity.
Defined.

End BeadsAdapterFacts.

(** ** Memory store: ftsSearch *)

Module MemoryFtsFacts.

Import MemoryStore MemoryFts.






Section Store.

Variable Metadata : Type.
Variable JSON_parse : string -> Metadata.
Variable empty_metadata : Metadata.
Variable limit_outside : AdapterType -> Q -> LimitReading.
Variable fts5_match : string -> FtsRow -> bool.
Variable fts5_rank : string -> FtsRow -> Q.
Variable ts_match : string -> string -> bool.
Variable ts_rank : string -> string -> Q.

Local Abbreviation ftsSearch :=
  (ftsSearch JSON_parse empty_metadata limit_outside fts5_match fts5_rank
             ts_match ts_rank).
Local Abbreviation parseMemoryRow := (parseMemoryRow JSON_parse empty_metadata).
Local Abbreviation fts_result := (fts_result JSON_parse empty_metadata).
Local Abbreviation Scored := (Scored Metadata).

(** What the query of each engine selects: in libSQL a memory joined to a
    row of the FTS5 table that matches, with that row's rank; in PGlite a
    memory whose content matches, with its ts_rank; in the collection,
    when one is asked for. *)
Local Abbreviation selects db memories_fts searchQuery collection :=
  (fun row : Scored =>
     match adapterType db with
     | libsql =>
         exists f, In f memories_fts /\ In (fst row) (memories db)
                   /\ row_id (fst row) = fts_id f
                   /\ fts5_match searchQuery f = true
                   /\ in_collection collection (fst row) = true
                   /\ snd row = fts5_rank searchQuery f
     | pglite =>
         In (fst row) (memories db)
         /\ ts_match searchQuery (row_content (fst row)) = true
         /\ in_collection collection (fst row) = true
         /\ snd row = ts_rank searchQuery (row_content (fst row))
     end).

(** The order of the rows and the score made of the score column, by
    engine. *)
Local Abbreviation comes_before db :=
  (fun a b : Scored =>
     match adapterType db with
     | libsql => (snd a <= snd b)%Q
     | pglite => (snd b <= snd a)%Q
     end).

Local Abbreviation score_made db :=
  (match adapterType db with
   | libsql => Qabs
   | pglite => fun score : Q => score
   end).








End Store.

(** Two notes that match in libSQL, ranks -2 and -1: the better rank
    comes first and the scores are 2 and 1; a query that matches nothing
    finds nothing. *)
Example ftsSearch_small_store :
  let row := fun i : string =>
    mkMemoryRow (Metadata := unit) i i metadata_null (Some "default"%string)
                "2025-01-01T00:00:00.000Z" None None in
  let db := mkDatabase libsql [row "weak"; row "strong"; row "other"]%string [] in
  let index := [mkFtsRow "weak" "tokens"; mkFtsRow "strong" "tokens tokens";
                mkFtsRow "other" "nothing"]%string in
  let fts5_match := fun (q : string) (f : FtsRow) =>
                      String.eqb q "tokens"
                      && negb (String.eqb (fts_content f) "nothing") in
  let fts5_rank := fun (q : string) (f : FtsRow) =>
                     if String.eqb (fts_id f) "strong" then (-2 # 1)%Q else (-1 # 1)%Q in
  let run := fun q =>
    option_map (map (fun r => (MemoryStore.id (memory r), score r)))
      (ftsSearch (fun _ => tt) tt limit_rejects fts5_match fts5_rank
                 (fun _ _ => false) (fun _ _ => 0%Q)
                 db index q (mkSearchOptions None None None)) in
  run "tokens"%string
  = Some [("strong"%string, num (2 # 1)); ("weak"%string, num (1 # 1))]
  /\ run "rollback"%string = Some [].
Proof. split; reflexivity. Qed.

End MemoryFtsFacts.
